(** * Mundi: terrain height queries, camera navigation and the performance optimizer

    A shallow embedding of the parts of [js/terrain.js],
    [js/camera-controller.js] and [js/performance-optimizer.js] that decide
    the height-query contract, terrain collision, level-of-detail
    registration, frustum culling, adaptive quality and object pooling,
    followed by the generation of the height grid, the mouse look and the
    registry, the dialogue and the animation of the world manager.

    JavaScript numbers are modelled as rationals ([Q]).  Where the source
    takes a floor or rounds to an integer, and so where the last bit of a
    product or a quotient decides which cell, which segment count or which
    frame rate comes out, every operation is followed by the rounding of the
    64-bit format ([Float.fl]); values kept in a [Float32Array] go through
    the rounding of the 32-bit format ([Float.fround]).  Elsewhere the
    arithmetic is exact.  Integral quantities that the source only ever uses
    as integers (grid indices, segment counts, the rounded mean frame rate)
    are [Z].  Objects are
    references into a store keyed by their identity; the JavaScript [Map]s
    (the LOD registry keyed by [uuid], the pools keyed by name) are [gmap]s
    and arrays are lists. *)

From Stdlib Require Import QArith Qround Qabs Qpower Lia Lqa Ascii.
From stdpp Require Import gmap strings list fin_maps pretty.

Local Open Scope Q_scope.
Set Warnings "-register-all".

(** ** Small numeric helpers *)

(** [v || 0] on a number: a falsy number (zero) yields the literal [0]. *)
Definition orZero (v : Q) : Q := if Qeq_bool v 0 then 0 else v.

(** [Math.max] and [Math.min] on two numbers. *)
Definition Math_max (a b : Q) : Q := if Qlt_le_dec a b then b else a.
Definition Math_min (a b : Q) : Q := if Qlt_le_dec b a then b else a.

(** [a < b] on numbers, as a boolean. *)
Definition Qltb (a b : Q) : bool := negb (Qle_bool b a).

(** Truthiness of a number used as a condition. *)
Definition truthy (v : Q) : bool := negb (Qeq_bool v 0).

(** ** Floating-point numbers

    The numbers of the host are binary floating-point numbers: the result
    of an arithmetic operation is the exact result rounded to the nearest
    number of the format, a tie going to the one whose last bit is even.
    A format is given by the number [p] of bits of its significand and its
    least exponent [emin]; below [2^(emin + p - 1)] the numbers are the
    multiples of [2^emin], so small values underflow gradually and to zero.
    The upper end of the range is not modelled: the infinities and NaN have
    no counterpart in [Q]. *)

Module Float.

(** Rounding to the nearest integer, a tie going to the even one. *)
Definition rne (q : Q) : Z :=
  let f := Qfloor q in
  match Qcompare (q - inject_Z f) (1 # 2) with
  | Lt => f
  | Gt => (f + 1)%Z
  | Eq => if Z.even f then f else (f + 1)%Z
  end.

(** For a positive [q], the exponent [k] with [2^k <= q < 2^(k+1)]. *)
Definition ilog2 (q : Q) : Z :=
  if Qle_bool q 0 then 0%Z
  else
    let k := (Z.log2 (Qnum q) - Z.log2 (Zpos (Qden q)))%Z in
    if Qle_bool (2 ^ k) q then k else (k - 1)%Z.

(** The exponent of the last place of a number of magnitude [q]. *)
Definition ulpExp (p emin : Z) (q : Q) : Z := Z.max (ilog2 q - p + 1) emin.

(** The nearest number of the format, for [q >= 0]. *)
Definition roundAbs (p emin : Z) (q : Q) : Q :=
  let e := ulpExp p emin q in
  inject_Z (rne (q / 2 ^ e)) * 2 ^ e.

Definition round (p emin : Z) (q : Q) : Q :=
  if Qle_bool 0 q then roundAbs p emin q else - roundAbs p emin (- q).

(** The 64-bit format of every number of the language. *)
Definition fl : Q -> Q := round 53 (-1074).

(** The 32-bit format of the elements of a [Float32Array] ([Math.fround]). *)
Definition fround : Q -> Q := round 24 (-149).

End Float.

(** ** js/terrain.js *)

Module Terrain.

Record TerrainGenerator := {
  size : Q;
  segments : Z;
  heightScale : Q;
  heightData : list (list Q)
}.

(** The fields as the constructor sets them, with a given height grid. *)
Definition constructed (hd : list (list Q)) : TerrainGenerator :=
  {| size := 1000; segments := 256; heightScale := 50; heightData := hd |}.

(** The index expression is evaluated as the source writes it, one rounded
    operation after the other: [size / 2], the sum, the quotient, the
    product, and then the floor. *)
Definition getHeightAt (t : TerrainGenerator) (x z : Q) : Q :=
  if Nat.eqb (length (heightData t)) 0 then 0
  else
    let nx := Qfloor (Float.fl (Float.fl (Float.fl (x + Float.fl (size t / 2)) / size t)
                                * inject_Z (segments t))) in
    let nz := Qfloor (Float.fl (Float.fl (Float.fl (z + Float.fl (size t / 2)) / size t)
                                * inject_Z (segments t))) in
    if (nx <? 0)%Z || (nx >=? segments t)%Z || (nz <? 0)%Z || (nz >=? segments t)%Z
    then 0
    else match heightData t !! Z.to_nat nx with
         | Some row =>
             match row !! Z.to_nat nz with
             | Some h => orZero h
             | None => 0
             end
         | None => 0
         end.

(** A height grid with [n] samples per axis, all at height [h]. *)
Definition constantGrid (n : nat) (h : Q) : list (list Q) := repeat (repeat h n) n.

(** The grid index the query computes for one world coordinate. *)
Definition gridIndex (t : TerrainGenerator) (c : Q) : Z :=
  Qfloor (Float.fl (Float.fl (Float.fl (c + Float.fl (size t / 2)) / size t)
                    * inject_Z (segments t))).

End Terrain.

(** ** js/camera-controller.js *)

Record Vector3 := { vx : Q; vy : Q; vz : Q }.

Definition Vector3_add (a b : Vector3) : Vector3 :=
  {| vx := vx a + vx b; vy := vy a + vy b; vz := vz a + vz b |}.

Definition multiplyScalar (a : Vector3) (k : Q) : Vector3 :=
  {| vx := vx a * k; vy := vy a * k; vz := vz a * k |}.

Definition set_y (a : Vector3) (y : Q) : Vector3 :=
  {| vx := vx a; vy := y; vz := vz a |}.

Module Camera.

Record Keys := {
  forward : bool; backward : bool; left : bool; right : bool;
  up : bool; down : bool; run : bool
}.

Definition noKeys : Keys :=
  {| forward := false; backward := false; left := false; right := false;
     up := false; down := false; run := false |}.

(** What the rendering library derives from the camera orientation in one
    tick: [camera.getWorldDirection], [(0,0,-1).applyEuler(euler)], the
    normalised [direction x up] for either of them, and the rotated
    third-person offset [(0,0,thirdPersonDistance).applyEuler(euler)].
    These involve trigonometry and square roots and are inputs here. *)
Record Orientation := {
  cameraDirection : Vector3;
  cameraRight : Vector3;
  eulerDirection : Vector3;
  eulerRight : Vector3;
  thirdPersonOffset : Vector3
}.

(** One entry of [raycaster.intersectObjects(scene.children, true)]. *)
Record Intersection := {
  distance : Q;
  point : Vector3;
  objectName : string
}.

(** The downward probe of the scene from a given origin, nearest hit first. *)
Definition Probe := Vector3 -> list Intersection.

Record CameraController := {
  terrain : Terrain.TerrainGenerator;
  isFirstPerson : bool;
  moveSpeed : Q;
  runMultiplier : Q;
  keys : Keys;
  position : Vector3;
  velocity : Vector3;
  thirdPersonHeight : Q;
  cameraTarget : Vector3;
  cameraPosition : Vector3
}.

Definition with_position (c : CameraController) (p : Vector3) : CameraController :=
  {| terrain := terrain c; isFirstPerson := isFirstPerson c;
     moveSpeed := moveSpeed c; runMultiplier := runMultiplier c;
     keys := keys c; position := p; velocity := velocity c;
     thirdPersonHeight := thirdPersonHeight c;
     cameraTarget := cameraTarget c; cameraPosition := cameraPosition c |}.

Definition with_velocity (c : CameraController) (v : Vector3) : CameraController :=
  {| terrain := terrain c; isFirstPerson := isFirstPerson c;
     moveSpeed := moveSpeed c; runMultiplier := runMultiplier c;
     keys := keys c; position := position c; velocity := v;
     thirdPersonHeight := thirdPersonHeight c;
     cameraTarget := cameraTarget c; cameraPosition := cameraPosition c |}.

Definition with_keys (c : CameraController) (k : Keys) : CameraController :=
  {| terrain := terrain c; isFirstPerson := isFirstPerson c;
     moveSpeed := moveSpeed c; runMultiplier := runMultiplier c;
     keys := k; position := position c; velocity := velocity c;
     thirdPersonHeight := thirdPersonHeight c;
     cameraTarget := cameraTarget c; cameraPosition := cameraPosition c |}.

(** [onKeyDown] and [onKeyUp]: the key code selects the intent to set. *)
Definition setKey (code : string) (v : bool) (k : Keys) : Keys :=
  if String.eqb code "KeyW" then
    {| forward := v; backward := backward k; left := left k; right := right k;
       up := up k; down := down k; run := run k |}
  else if String.eqb code "KeyS" then
    {| forward := forward k; backward := v; left := left k; right := right k;
       up := up k; down := down k; run := run k |}
  else if String.eqb code "KeyA" then
    {| forward := forward k; backward := backward k; left := v; right := right k;
       up := up k; down := down k; run := run k |}
  else if String.eqb code "KeyD" then
    {| forward := forward k; backward := backward k; left := left k; right := v;
       up := up k; down := down k; run := run k |}
  else if String.eqb code "Space" then
    {| forward := forward k; backward := backward k; left := left k; right := right k;
       up := v; down := down k; run := run k |}
  else if String.eqb code "KeyC" then
    {| forward := forward k; backward := backward k; left := left k; right := right k;
       up := up k; down := v; run := run k |}
  else if String.eqb code "ShiftLeft" then
    {| forward := forward k; backward := backward k; left := left k; right := right k;
       up := up k; down := down k; run := v |}
  else k.

Definition onKeyDown (code : string) (c : CameraController) : CameraController :=
  with_keys c (setKey code true (keys c)).

Definition onKeyUp (code : string) (c : CameraController) : CameraController :=
  with_keys c (setKey code false (keys c)).

(** [updateCamera]: first person copies the position; third person places
    the camera behind and above it and aims at a point 2 above it. *)
Definition updateCamera (o : Orientation) (c : CameraController) : CameraController :=
  if isFirstPerson c then
    {| terrain := terrain c; isFirstPerson := isFirstPerson c;
       moveSpeed := moveSpeed c; runMultiplier := runMultiplier c;
       keys := keys c; position := position c; velocity := velocity c;
       thirdPersonHeight := thirdPersonHeight c;
       cameraTarget := cameraTarget c; cameraPosition := position c |}
  else
    let p := Vector3_add (position c) (thirdPersonOffset o) in
    {| terrain := terrain c; isFirstPerson := isFirstPerson c;
       moveSpeed := moveSpeed c; runMultiplier := runMultiplier c;
       keys := keys c; position := position c; velocity := velocity c;
       thirdPersonHeight := thirdPersonHeight c;
       cameraTarget := set_y (position c) (vy (position c) + 2);
       cameraPosition := set_y p (vy p + thirdPersonHeight c) |}.

(** The constructor followed by [init]: the start position (0, 10, 0) is
    put at the terrain height at the origin plus 2. *)
Definition init (t : Terrain.TerrainGenerator) (o : Orientation) : CameraController :=
  updateCamera o
    {| terrain := t; isFirstPerson := true;
       moveSpeed := 50; runMultiplier := 2;
       keys := noKeys;
       position := {| vx := 0; vy := Terrain.getHeightAt t 0 0 + 2; vz := 0 |};
       velocity := {| vx := 0; vy := 0; vz := 0 |};
       thirdPersonHeight := 5;
       cameraTarget := {| vx := 0; vy := 0; vz := 0 |};
       cameraPosition := {| vx := 0; vy := 0; vz := 0 |} |}.

Definition updateMovement (deltaTime : Q) (o : Orientation) (c : CameraController)
  : CameraController :=
  let speed := moveSpeed c * (if run (keys c) then runMultiplier c else 1) * deltaTime in
  let direction := if isFirstPerson c then cameraDirection o else eulerDirection o in
  let right := if isFirstPerson c then cameraRight o else eulerRight o in
  let v0 := {| vx := 0; vy := vy (velocity c); vz := 0 |} in
  let v1 := if forward (keys c) then Vector3_add v0 (multiplyScalar direction speed) else v0 in
  let v2 := if backward (keys c) then Vector3_add v1 (multiplyScalar direction (- speed)) else v1 in
  let v3 := if left (keys c) then Vector3_add v2 (multiplyScalar right (- speed)) else v2 in
  let v4 := if Camera.right (keys c) then Vector3_add v3 (multiplyScalar right speed) else v3 in
  let v5 := set_y v4 (if up (keys c) then speed
                      else if down (keys c) then - speed else 0) in
  with_position (with_velocity c v5) (Vector3_add (position c) v5).

(** One iteration of the loop of [checkObjectCollisions] over the hits. *)
Definition collide (c' : CameraController) (i : Intersection) : CameraController :=
  if String.eqb (objectName i) "terrain" then c'
  else if Qlt_le_dec (distance i) 2
       then with_position c' (set_y (position c') (vy (point i) + 2))
       else c'.

(** [checkObjectCollisions]: the ray is cast once from the current position;
    every hit that is not the terrain and is closer than 2 sets the height. *)
Definition checkObjectCollisions (probe : Probe) (c : CameraController) : CameraController :=
  fold_left collide (probe (position c)) c.

Definition applyTerrainCollision (probe : Probe) (c : CameraController) : CameraController :=
  let terrainHeight := Terrain.getHeightAt (terrain c) (vx (position c)) (vz (position c)) in
  let minHeight := terrainHeight + 2 in
  let c1 := if Qlt_le_dec (vy (position c)) minHeight
            then with_position c (set_y (position c) minHeight)
            else c in
  checkObjectCollisions probe c1.

Definition update (deltaTime : Q) (o : Orientation) (probe : Probe) (c : CameraController)
  : CameraController :=
  let deltaTime := if Qlt_le_dec (1 # 10) deltaTime then 1 # 10 else deltaTime in
  updateCamera o (applyTerrainCollision probe (updateMovement deltaTime o c)).

Definition setPosition (o : Orientation) (p : Vector3) (c : CameraController) : CameraController :=
  updateCamera o (with_position c p).

Definition teleportTo (o : Orientation) (x z : Q) (c : CameraController) : CameraController :=
  let y := Terrain.getHeightAt (terrain c) x z + 2 in
  setPosition o {| vx := x; vy := y; vz := z |} c.

(** The invariant of the navigation state: the vertical position is at
    least the terrain height under it plus the eye height 2. *)
Definition grounded (c : CameraController) : Prop :=
  Terrain.getHeightAt (terrain c) (vx (position c)) (vz (position c)) + 2
    <= vy (position c).

(** What the collision loop can do to a state: nothing but the height
    changes, and a changed height comes from a hit closer than 2 that is not
    the terrain. *)
Definition lifted (l : list Intersection) (c c' : CameraController) : Prop :=
  terrain c' = terrain c /\ isFirstPerson c' = isFirstPerson c /\
  keys c' = keys c /\ velocity c' = velocity c /\
  vx (position c') = vx (position c) /\ vz (position c') = vz (position c) /\
  (vy (position c') = vy (position c) \/
   exists i, In i l /\ String.eqb (objectName i) "terrain" = false /\
             distance i < 2 /\ vy (position c') = vy (point i) + 2).

(** All movement intents are false. *)
Definition idle (k : Keys) : Prop :=
  forward k = false /\ backward k = false /\ left k = false /\
  right k = false /\ up k = false /\ down k = false.

(** A probe cast straight down: every hit lies below the origin at its
    distance. *)
Definition downward (probe : Probe) : Prop :=
  forall p i, In i (probe p) ->
    0 <= distance i /\ vy (point i) == vy p - distance i.

(** No object other than the terrain is closer than 2 below any origin. *)
Definition clearBelow (probe : Probe) : Prop :=
  forall p i, In i (probe p) ->
    String.eqb (objectName i) "terrain" = true \/ 2 <= distance i.

(** The probe of a scene that holds nothing but open space. *)
Definition emptyProbe : Probe := fun _ => [].

(** The probe of a scene in which a rock lies 1 below wherever one stands. *)
Definition platformProbe : Probe :=
  fun p => [{| distance := 1;
               point := {| vx := vx p; vy := vy p - 1; vz := vz p |};
               objectName := "rock" |}].

Definition noOrientation : Orientation :=
  {| cameraDirection := {| vx := 0; vy := 0; vz := -1 |};
     cameraRight := {| vx := 1; vy := 0; vz := 0 |};
     eulerDirection := {| vx := 0; vy := 0; vz := -1 |};
     eulerRight := {| vx := 1; vy := 0; vz := 0 |};
     thirdPersonOffset := {| vx := 0; vy := 0; vz := 15 |} |}.

(** The scenario of the specification: terrain height 3 everywhere, the
    controller freshly initialised and then placed at (0, y, 0). *)
Definition flatTerrain : Terrain.TerrainGenerator :=
  Terrain.constructed (Terrain.constantGrid 257 3).

Definition scenario (y : Q) : CameraController :=
  with_position (init flatTerrain noOrientation) {| vx := 0; vy := y; vz := 0 |}.

End Camera.

(** ** js/performance-optimizer.js *)

Module Optimizer.

(** *** Scene objects

    Objects are JavaScript references: they live in a store keyed by their
    identity, and every place that holds an object (the scene graph, the
    level table of a LOD, the registry, a pool) holds that identity.  The
    [uuid] of an object is its identity. *)

Definition uuid := nat.

Definition Matrix4 := list Q.

Record Sphere := { center : Vector3; radius : Q }.

Record Geometry := {
  geometryClass : string;                     (* geometry.constructor *)
  parameters : option (list (string * Q));    (* geometry.parameters, in key order *)
  boundingSphere : option Sphere
}.

Record Material := {
  roughness : Q;
  metalness : Q;
  normalMap : option string;
  roughnessMap : option string;
  metalnessMap : option string
}.

(** [object.material]: none, one material, or an array of materials (a
    mesh accepts either). *)
Inductive MaterialSlot :=
| NoMaterial
| OneMaterial (m : Material)
| MaterialArray (ms : list Material).

Inductive ObjectKind := KMesh | KSprite | KLOD | KOther.

(** The drawing the impostor canvas receives. *)
Inductive Glyph := GTree | GRock | GBuilding | GNpc | GGeneric.

Record UserData := {
  type : option string;
  originallyVisible : option bool;
  originalObject : option uuid
}.

Record Level := { levelDistance : Q; levelObject : uuid }.

Record Object3D := {
  kind : ObjectKind;
  visible : bool;
  userData : UserData;
  geometry : option Geometry;     (* [None] on a mesh: geometry is null *)
  material : MaterialSlot;
  position : Vector3;
  rotation : Vector3;
  scale : Vector3;
  matrixWorld : Matrix4;
  levels : list Level;          (* THREE.LOD only *)
  currentLevel : nat;           (* THREE.LOD only *)
  glyph : option Glyph          (* impostor sprites only *)
}.

Definition isMesh (o : Object3D) : bool :=
  match kind o with KMesh => true | _ => false end.
Definition isSprite (o : Object3D) : bool :=
  match kind o with KSprite => true | _ => false end.

Definition set_visible (b : bool) (o : Object3D) : Object3D :=
  {| kind := kind o; visible := b; userData := userData o;
     geometry := geometry o; material := material o;
     position := position o; rotation := rotation o; scale := scale o;
     matrixWorld := matrixWorld o; levels := levels o;
     currentLevel := currentLevel o; glyph := glyph o |}.

Definition set_userData (u : UserData) (o : Object3D) : Object3D :=
  {| kind := kind o; visible := visible o; userData := u;
     geometry := geometry o; material := material o;
     position := position o; rotation := rotation o; scale := scale o;
     matrixWorld := matrixWorld o; levels := levels o;
     currentLevel := currentLevel o; glyph := glyph o |}.

Definition set_geometry (g : option Geometry) (o : Object3D) : Object3D :=
  {| kind := kind o; visible := visible o; userData := userData o;
     geometry := g; material := material o;
     position := position o; rotation := rotation o; scale := scale o;
     matrixWorld := matrixWorld o; levels := levels o;
     currentLevel := currentLevel o; glyph := glyph o |}.

Definition set_material (m : MaterialSlot) (o : Object3D) : Object3D :=
  {| kind := kind o; visible := visible o; userData := userData o;
     geometry := geometry o; material := m;
     position := position o; rotation := rotation o; scale := scale o;
     matrixWorld := matrixWorld o; levels := levels o;
     currentLevel := currentLevel o; glyph := glyph o |}.

Definition set_levels (l : list Level) (o : Object3D) : Object3D :=
  {| kind := kind o; visible := visible o; userData := userData o;
     geometry := geometry o; material := material o;
     position := position o; rotation := rotation o; scale := scale o;
     matrixWorld := matrixWorld o; levels := l;
     currentLevel := currentLevel o; glyph := glyph o |}.

Definition set_currentLevel (n : nat) (o : Object3D) : Object3D :=
  {| kind := kind o; visible := visible o; userData := userData o;
     geometry := geometry o; material := material o;
     position := position o; rotation := rotation o; scale := scale o;
     matrixWorld := matrixWorld o; levels := levels o;
     currentLevel := n; glyph := glyph o |}.

Definition set_transform (p r sc : Vector3) (o : Object3D) : Object3D :=
  {| kind := kind o; visible := visible o; userData := userData o;
     geometry := geometry o; material := material o;
     position := p; rotation := r; scale := sc;
     matrixWorld := matrixWorld o; levels := levels o;
     currentLevel := currentLevel o; glyph := glyph o |}.

Definition set_originallyVisible (b : option bool) (u : UserData) : UserData :=
  {| type := type u; originallyVisible := b; originalObject := originalObject u |}.

Definition set_originalObject (r : option uuid) (u : UserData) : UserData :=
  {| type := type u; originallyVisible := originallyVisible u; originalObject := r |}.

Definition set_boundingSphere (b : option Sphere) (g : Geometry) : Geometry :=
  {| geometryClass := geometryClass g; parameters := parameters g;
     boundingSphere := b |}.

(** The parent/child structure of the scene graph, by identity. *)
Inductive Tree := T (id : uuid) (kids : list Tree).

Definition root (t : Tree) : uuid := match t with T i _ => i end.
Definition children (t : Tree) : list Tree := match t with T _ ks => ks end.

(** [scene.traverse]: the object itself, then each child's subtree. *)
Fixpoint preorder (t : Tree) : list uuid :=
  match t with
  | T i ks => i :: flat_map preorder ks
  end.

(** The subtree hanging from a given object, if it is in the graph. *)
Fixpoint subtree (i : uuid) (t : Tree) : option Tree :=
  match t with
  | T j ks =>
      if Nat.eqb i j then Some t
      else (fix first (l : list Tree) : option Tree :=
              match l with
              | [] => None
              | k :: l' => match subtree i k with
                           | Some r => Some r
                           | None => first l'
                           end
              end) ks
  end.

(** [object.parent] for an object of the graph ([None] stands for null). *)
Fixpoint parentOf (i : uuid) (t : Tree) : option uuid :=
  match t with
  | T j ks =>
      if existsb (fun k => Nat.eqb (root k) i) ks then Some j
      else (fix first (l : list Tree) : option uuid :=
              match l with
              | [] => None
              | k :: l' => match parentOf i k with
                           | Some r => Some r
                           | None => first l'
                           end
              end) ks
  end.

(** [array.splice(indexOf(x), 1)] on a child list. *)
Fixpoint removeChild (i : uuid) (ks : list Tree) : list Tree :=
  match ks with
  | [] => []
  | k :: ks' => if Nat.eqb (root k) i then ks' else k :: removeChild i ks'
  end.

(** [parent.add(a); parent.remove(b)] performed at the node [p]. *)
Fixpoint replaceAt (p : uuid) (a : Tree) (b : uuid) (t : Tree) : Tree :=
  match t with
  | T j ks =>
      if Nat.eqb j p then T j (removeChild b (ks ++ [a]))
      else T j (map (replaceAt p a b) ks)
  end.

(** The store together with the next unused identity. *)
Record Store := { objects : gmap uuid Object3D; nextId : uuid }.

Definition alloc (o : Object3D) (st : Store) : uuid * Store :=
  (nextId st, {| objects := <[nextId st := o]> (objects st); nextId := S (nextId st) |}).

Definition modify (i : uuid) (f : Object3D -> Object3D) (st : Store) : Store :=
  {| objects := alter f i (objects st); nextId := nextId st |}.

(** *** The rendering library

    Operations of the external rendering library whose results depend on
    matrices, vertex data or the camera.  They are an interface here. *)
Class RenderLibrary := {
  CameraT : Type;
  (** [geometry.computeBoundingSphere()], read back from the geometry *)
  computeBoundingSphere : Geometry -> Sphere;
  (** [sphere.applyMatrix4(matrixWorld)] *)
  applyMatrix4 : Sphere -> Matrix4 -> Sphere;
  (** the frustum built from [projectionMatrix * matrixWorldInverse],
      then [frustum.intersectsSphere(sphere)] *)
  intersectsSphere : CameraT -> Sphere -> bool;
  (** camera-to-object distance that [lod.update(camera)] computes *)
  distanceTo : CameraT -> Matrix4 -> Q;
  (** [new Box3().setFromObject(object).getSize()]; [None] when the
      library throws *)
  boxSize : Object3D -> option Vector3;
  (** it throws on a mesh whose geometry is null, reading the bounding box
      of the geometry *)
  boxSize_null : forall o, isMesh o = true -> geometry o = None -> boxSize o = None
}.

(** *** THREE.LOD

    The level table of the rendering library's LOD object.  The library is
    not part of the repository; its behaviour is the one the specification
    of the distance selector describes: levels are kept ordered by minimum
    distance, and an update selects the last level, walking up from level 0,
    whose minimum distance is at most the camera distance, shows it and
    hides every other level. *)

(** Modelled from the spec: insertion of a level keeps the table ordered by
    minimum distance (the rendering library's [addLevel] is missing). *)
Fixpoint insertLevel (lv : Level) (ls : list Level) : list Level :=
  match ls with
  | [] => [lv]
  | x :: r => if Qlt_le_dec (levelDistance lv) (levelDistance x)
              then lv :: x :: r
              else x :: insertLevel lv r
  end.

(** Modelled from the spec: [lod.addLevel(object, distance)] of the missing
    rendering library; the caller records the child link. *)
Definition addLevel (lod object : uuid) (distance : Q) (st : Store) : Store :=
  modify lod
    (fun o => set_levels
                (insertLevel {| levelDistance := Qabs distance; levelObject := object |}
                             (levels o)) o) st.

Definition hideAll (ls : list Level) (st : Store) : Store :=
  fold_left (fun s l => modify (levelObject l) (set_visible false) s) ls st.

(** Modelled from the spec: the walk of the missing rendering library's
    [update] over the levels after level 0; it stops at the first level whose
    minimum distance exceeds the camera distance and hides the rest. *)
Fixpoint selectFrom (dist : Q) (prev : uuid) (rest : list Level) (i : nat) (st : Store)
  : nat * Store :=
  match rest with
  | [] => (i, st)
  | l :: rest' =>
      if Qle_bool (levelDistance l) dist
      then selectFrom dist (levelObject l) rest' (S i)
             (modify (levelObject l) (set_visible true)
                (modify prev (set_visible false) st))
      else (i, hideAll rest st)
  end.

(** Modelled from the spec: [lod.update(camera)] of the missing rendering
    library, for a camera at distance [dist]; a table with fewer than two
    levels is never swapped. *)
Definition LOD_update (dist : Q) (lod : uuid) (st : Store) : Store :=
  match objects st !! lod with
  | Some o =>
      match levels o with
      | l0 :: ((_ :: _) as rest) =>
          let st1 := modify (levelObject l0) (set_visible true) st in
          let '(i, st2) := selectFrom dist (levelObject l0) rest 1 st1 in
          modify lod (set_currentLevel (i - 1)) st2
      | _ => st
      end
  | None => st
  end.

(** *** Cloning *)

Definition relink (renames : list (uuid * uuid)) (ls : list Level) : list Level :=
  omap (fun l =>
          match List.find (fun p => Nat.eqb (fst p) (levelObject l)) renames with
          | Some p => Some {| levelDistance := levelDistance l; levelObject := snd p |}
          | None => None
          end) ls.

(** [object.clone()]: a new object with the same fields (geometry and
    material are shared, which by value is a copy), then clones of the
    children.  A cloned level table points at the cloned children. *)
Fixpoint cloneTree (t : Tree) (st : Store) : Tree * Store :=
  match t with
  | T i ks =>
      let i' := nextId st in
      let st0 := {| objects := objects st; nextId := S i' |} in
      let '(ks', st1) :=
        (fix go (l : list Tree) (s : Store) : list Tree * Store :=
           match l with
           | [] => ([], s)
           | k :: l' =>
               let '(k', s1) := cloneTree k s in
               let '(r, s2) := go l' s1 in
               (k' :: r, s2)
           end) ks st0 in
      let renames := zip (map root ks) (map root ks') in
      let st2 :=
        match objects st !! i with
        | Some o =>
            {| objects := <[i' := set_levels (relink renames (levels o)) o]> (objects st1);
               nextId := nextId st1 |}
        | None => st1
        end in
      (T i' ks', st2)
  end.

(** The object together with what hangs from it in the scene graph. *)
Definition objectTree (object : uuid) (scene : Tree) : Tree :=
  match subtree object scene with
  | Some t => t
  | None => T object []
  end.

(** *** createReducedDetail *)

(** [if (params.k) params.k = Math.max(lo, Math.floor(params.k * detailLevel))];
    the floor is that of the rounded product. *)
Definition reduceParam (k : string) (lo : Z) (detailLevel : Q)
    (params : list (string * Q)) : list (string * Q) :=
  map (fun p : string * Q =>
         if String.eqb (fst p) k && truthy (snd p)
         then (fst p,
               Math_max (inject_Z lo) (inject_Z (Qfloor (Float.fl (snd p * detailLevel)))))
         else p) params.

Definition reduceParams (detailLevel : Q) (params : list (string * Q)) : list (string * Q) :=
  reduceParam "widthSegments" 1 detailLevel
    (reduceParam "heightSegments" 1 detailLevel
       (reduceParam "radialSegments" 3 detailLevel params)).

(** [new GeometryClass(...Object.values(params))]: the constructors of the
    library record the arguments they are given as [parameters]. *)
Definition rebuildGeometry (g : Geometry) (params : list (string * Q)) : Geometry :=
  {| geometryClass := geometryClass g; parameters := Some params; boundingSphere := None |}.

Definition simplifyMaterial (detailLevel : Q) (m : Material) : Material :=
  let r := Math_min 1 (roughness m * 1.2) in
  let me := Math_max 0 (metalness m * 0.8) in
  if Qlt_le_dec detailLevel 0.5
  then {| roughness := r; metalness := me;
          normalMap := None; roughnessMap := None; metalnessMap := None |}
  else {| roughness := r; metalness := me;
          normalMap := normalMap m; roughnessMap := roughnessMap m;
          metalnessMap := metalnessMap m |}.

(** The result is the root of the new object's subtree, or [None] for
    null.  Inside the [try] block [reduced.material.clone()] throws when
    the material is an array, which has no [clone]; the [catch] branch then
    returns null, and what the block had built is unreachable. *)
Definition createReducedDetail (object : uuid) (detailLevel : Q) (scene : Tree) (st : Store)
  : option Tree * Store :=
  match objects st !! object with
  | None => (None, st)
  | Some o =>
      if negb (isMesh o) then (None, st)
      else match geometry o with
           | None => (None, st)
           | Some _ =>
               let '(reduced, st1) := cloneTree (objectTree object scene) st in
               let st2 :=
                 modify (root reduced)
                   (fun r =>
                      match geometry r with
                      | Some geometry =>
                          match parameters geometry with
                          | Some params =>
                              set_geometry
                                (Some (rebuildGeometry geometry (reduceParams detailLevel params))) r
                          | None => r
                          end
                      | None => r
                      end) st1 in
               match material o with
               | MaterialArray _ => (None, st)
               | _ =>
                   let st3 :=
                     modify (root reduced)
                       (fun r =>
                          match material r with
                          | OneMaterial m =>
                              set_material (OneMaterial (simplifyMaterial detailLevel m)) r
                          | _ => r
                          end) st2 in
                   (Some reduced, st3)
               end
           end
  end.

(** *** createImpostor *)

Definition glyphFor (t : option string) : Glyph :=
  match t with
  | Some k =>
      if String.eqb k "tree" then GTree
      else if String.eqb k "rock" then GRock
      else if String.eqb k "building" then GBuilding
      else if String.eqb k "npc" then GNpc
      else GGeneric
  | None => GGeneric
  end.

Definition spriteGeometry : Geometry :=
  {| geometryClass := "BufferGeometry"; parameters := None; boundingSphere := None |}.

Definition zero3 : Vector3 := {| vx := 0; vy := 0; vz := 0 |}.
Definition one3 : Vector3 := {| vx := 1; vy := 1; vz := 1 |}.

(** [None] is the TypeError that leaves [Box3.setFromObject]; the sprite
    built before it is then unreachable. *)
Definition createImpostor `{RenderLibrary} (o : Object3D) (st : Store)
  : option (uuid * Store) :=
  match boxSize o with
  | None => None
  | Some size =>
      let maxSize := Math_max (Math_max (vx size) (vy size)) (vz size) in
      Some (alloc {| kind := KSprite; visible := true;
                     userData := {| type := None; originallyVisible := None;
                                    originalObject := None |};
                     geometry := Some spriteGeometry; material := NoMaterial;
                     position := zero3; rotation := zero3;
                     scale := {| vx := maxSize; vy := maxSize; vz := 1 |};
                     matrixWorld := []; levels := []; currentLevel := 0%nat;
                     glyph := Some (glyphFor (type (userData o))) |} st)
  end.

(** *** The optimizer *)

Record Stats := {
  visibleObjects : nat;
  culledObjects : nat;
  averageFPS : Z;
  frameCount : nat
}.

Record PerformanceOptimizer := {
  store : Store;
  scene : Tree;
  lodEnabled : bool;
  lodDistances : list Q;
  lodObjects : gmap uuid uuid;            (* object.uuid -> its LOD *)
  frustumCullingEnabled : bool;
  performanceStats : Stats;
  fpsHistory : list Q;
  lastFrameTime : Q;
  objectPools : gmap string (list uuid);
  pixelRatio : Q;                          (* renderer.getPixelRatio() *)
  devicePixelRatio : Q                     (* window.devicePixelRatio *)
}.

Definition set_store (st : Store) (s : PerformanceOptimizer) : PerformanceOptimizer :=
  {| store := st; scene := scene s; lodEnabled := lodEnabled s;
     lodDistances := lodDistances s; lodObjects := lodObjects s;
     frustumCullingEnabled := frustumCullingEnabled s;
     performanceStats := performanceStats s; fpsHistory := fpsHistory s;
     lastFrameTime := lastFrameTime s; objectPools := objectPools s;
     pixelRatio := pixelRatio s; devicePixelRatio := devicePixelRatio s |}.

Definition set_lodEnabled (b : bool) (s : PerformanceOptimizer) : PerformanceOptimizer :=
  {| store := store s; scene := scene s; lodEnabled := b;
     lodDistances := lodDistances s; lodObjects := lodObjects s;
     frustumCullingEnabled := frustumCullingEnabled s;
     performanceStats := performanceStats s; fpsHistory := fpsHistory s;
     lastFrameTime := lastFrameTime s; objectPools := objectPools s;
     pixelRatio := pixelRatio s; devicePixelRatio := devicePixelRatio s |}.

Definition set_lodDistances (d : list Q) (s : PerformanceOptimizer) : PerformanceOptimizer :=
  {| store := store s; scene := scene s; lodEnabled := lodEnabled s;
     lodDistances := d; lodObjects := lodObjects s;
     frustumCullingEnabled := frustumCullingEnabled s;
     performanceStats := performanceStats s; fpsHistory := fpsHistory s;
     lastFrameTime := lastFrameTime s; objectPools := objectPools s;
     pixelRatio := pixelRatio s; devicePixelRatio := devicePixelRatio s |}.

Definition set_frustumCullingEnabled (b : bool) (s : PerformanceOptimizer)
  : PerformanceOptimizer :=
  {| store := store s; scene := scene s; lodEnabled := lodEnabled s;
     lodDistances := lodDistances s; lodObjects := lodObjects s;
     frustumCullingEnabled := b;
     performanceStats := performanceStats s; fpsHistory := fpsHistory s;
     lastFrameTime := lastFrameTime s; objectPools := objectPools s;
     pixelRatio := pixelRatio s; devicePixelRatio := devicePixelRatio s |}.

Definition set_performanceStats (p : Stats) (s : PerformanceOptimizer) : PerformanceOptimizer :=
  {| store := store s; scene := scene s; lodEnabled := lodEnabled s;
     lodDistances := lodDistances s; lodObjects := lodObjects s;
     frustumCullingEnabled := frustumCullingEnabled s;
     performanceStats := p; fpsHistory := fpsHistory s;
     lastFrameTime := lastFrameTime s; objectPools := objectPools s;
     pixelRatio := pixelRatio s; devicePixelRatio := devicePixelRatio s |}.

Definition set_fps (h : list Q) (t : Q) (s : PerformanceOptimizer) : PerformanceOptimizer :=
  {| store := store s; scene := scene s; lodEnabled := lodEnabled s;
     lodDistances := lodDistances s; lodObjects := lodObjects s;
     frustumCullingEnabled := frustumCullingEnabled s;
     performanceStats := performanceStats s; fpsHistory := h;
     lastFrameTime := t; objectPools := objectPools s;
     pixelRatio := pixelRatio s; devicePixelRatio := devicePixelRatio s |}.

Definition set_objectPools (p : gmap string (list uuid)) (s : PerformanceOptimizer)
  : PerformanceOptimizer :=
  {| store := store s; scene := scene s; lodEnabled := lodEnabled s;
     lodDistances := lodDistances s; lodObjects := lodObjects s;
     frustumCullingEnabled := frustumCullingEnabled s;
     performanceStats := performanceStats s; fpsHistory := fpsHistory s;
     lastFrameTime := lastFrameTime s; objectPools := p;
     pixelRatio := pixelRatio s; devicePixelRatio := devicePixelRatio s |}.

Definition setPixelRatio (r : Q) (s : PerformanceOptimizer) : PerformanceOptimizer :=
  {| store := store s; scene := scene s; lodEnabled := lodEnabled s;
     lodDistances := lodDistances s; lodObjects := lodObjects s;
     frustumCullingEnabled := frustumCullingEnabled s;
     performanceStats := performanceStats s; fpsHistory := fpsHistory s;
     lastFrameTime := lastFrameTime s; objectPools := objectPools s;
     pixelRatio := r; devicePixelRatio := devicePixelRatio s |}.

(** The constructor followed by [init], over a given scene and renderer. *)
Definition constructed (st : Store) (sc : Tree) (ratio dpr now : Q) : PerformanceOptimizer :=
  {| store := st; scene := sc; lodEnabled := true;
     lodDistances := [50; 150; 300]; lodObjects := ∅;
     frustumCullingEnabled := true;
     performanceStats := {| visibleObjects := 0; culledObjects := 0;
                            averageFPS := 60; frameCount := 0 |};
     fpsHistory := []; lastFrameTime := now;
     objectPools := <["temporary" := []]> (<["particles" := []]> ∅);
     pixelRatio := ratio; devicePixelRatio := dpr |}.

(** *** createLODForObject *)

(** [this.lodDistances[i]], with [addLevel]'s default for a missing entry. *)
Definition lodDistance (s : PerformanceOptimizer) (i : nat) : Q :=
  match lodDistances s !! i with
  | Some d => d
  | None => 0
  end.

(** [new THREE.LOD()] with the transform of the object it replaces.  It
    takes the object's place under the same parent, so the world matrix the
    renderer computes for it is the object's. *)
Definition newLOD (o : Object3D) : Object3D :=
  {| kind := KLOD; visible := true;
     userData := {| type := None; originallyVisible := None; originalObject := None |};
     geometry := None; material := NoMaterial;
     position := position o; rotation := rotation o; scale := scale o;
     matrixWorld := matrixWorld o; levels := []; currentLevel := 0%nat; glyph := None |}.

(** [None] is a TypeError that leaves the function: the one of
    [createImpostor], or the one raised by [object.parent.add] when the
    object has no parent.  The parent relation that the state holds is the
    one of the scene graph: an object of the store that is not in the scene
    tree stands for a detached object, whose [parent] is null.  The detail
    levels 0.6 and 0.3 are the numbers the literals denote. *)
Definition createLODForObject `{RenderLibrary} (object : uuid) (s : PerformanceOptimizer)
  : option PerformanceOptimizer :=
  match objects (store s) !! object with
  | None => Some s
  | Some o =>
      if negb (isMesh o) || bool_decide (is_Some (lodObjects s !! object)) then Some s
      else
        let '(lod, st0) := alloc (newLOD o) (store s) in
        (* level 0: the original at full quality *)
        let '(highDetail, st1) := cloneTree (objectTree object (scene s)) st0 in
        let st2 := addLevel lod (root highDetail) 0 st1 in
        let kids0 := [highDetail] in
        (* level 1: medium quality *)
        let '(mediumDetail, st3) :=
          createReducedDetail object (Float.fl 0.6) (scene s) st2 in
        let '(kids1, st4) :=
          match mediumDetail with
          | Some m => (kids0 ++ [m], addLevel lod (root m) (lodDistance s 0) st3)
          | None => (kids0, st3)
          end in
        (* level 2: low quality *)
        let '(lowDetail, st5) :=
          createReducedDetail object (Float.fl 0.3) (scene s) st4 in
        let '(kids2, st6) :=
          match lowDetail with
          | Some m => (kids1 ++ [m], addLevel lod (root m) (lodDistance s 1) st5)
          | None => (kids1, st5)
          end in
        (* level 3: impostor *)
        match createImpostor o st6 with
        | None => None
        | Some (impostor, st7) =>
            let st8 := addLevel lod impostor (lodDistance s 2) st7 in
            let kids3 := kids2 ++ [T impostor []] in
            (* replace the original by the LOD *)
            match parentOf object (scene s) with
            | None => None
            | Some parent =>
                let scene' := replaceAt parent (T lod kids3) object (scene s) in
                let st9 :=
                  modify lod
                    (set_userData (set_originalObject (Some object) (userData o))) st8 in
                Some {| store := st9; scene := scene'; lodEnabled := lodEnabled s;
                        lodDistances := lodDistances s;
                        lodObjects := <[object := lod]> (lodObjects s);
                        frustumCullingEnabled := frustumCullingEnabled s;
                        performanceStats := performanceStats s; fpsHistory := fpsHistory s;
                        lastFrameTime := lastFrameTime s; objectPools := objectPools s;
                        pixelRatio := pixelRatio s; devicePixelRatio := devicePixelRatio s |}
            end
        end
  end.

(** *** Object pools *)

(** [pool.pop()]: the last element and the remaining array. *)
Definition pop (l : list uuid) : option uuid * list uuid :=
  (last l, removelast l).

Definition getFromPool (poolName : string) (s : PerformanceOptimizer)
  : option uuid * PerformanceOptimizer :=
  match objectPools s !! poolName with
  | Some pool =>
      if (0 <? length pool)%nat
      then (fst (pop pool), set_objectPools (<[poolName := snd (pop pool)]> (objectPools s)) s)
      else (None, s)
  | None => (None, s)
  end.

Definition resetObject (o : Object3D) : Object3D :=
  set_visible true (set_transform zero3 zero3 one3 o).

Definition returnToPool (poolName : string) (object : uuid) (s : PerformanceOptimizer)
  : PerformanceOptimizer :=
  match objectPools s !! poolName with
  | Some pool =>
      if (length pool <? 100)%nat
      then set_objectPools (<[poolName := pool ++ [object]]> (objectPools s))
             (set_store (modify object resetObject (store s)) s)
      else s
  | None => s
  end.

(** *** Frame statistics *)

Definition Math_round (x : Q) : Z := Qfloor (x + (1 # 2)).

Definition set_averageFPS (f : Z) (p : Stats) : Stats :=
  {| visibleObjects := visibleObjects p; culledObjects := culledObjects p;
     averageFPS := f; frameCount := frameCount p |}.

Definition set_counts (v c : nat) (p : Stats) : Stats :=
  {| visibleObjects := v; culledObjects := c;
     averageFPS := averageFPS p; frameCount := frameCount p |}.

(** [fpsHistory.reduce((sum, fps) => sum + fps, 0)]: the samples are added
    from the left, each sum rounded. *)
Definition sumSamples (l : list Q) : Q :=
  fold_left (fun sum fps => Float.fl (sum + fps)) l 0.

(** The once-per-second timer callback (the DOM counter is left out).
    [Math.round] is applied to the rounded quotient. *)
Definition updatePerformanceStats (s : PerformanceOptimizer) : PerformanceOptimizer :=
  if (0 <? length (fpsHistory s))%nat then
    let avgFPS :=
      Float.fl (sumSamples (fpsHistory s) / inject_Z (Z.of_nat (length (fpsHistory s)))) in
    set_fps [] (lastFrameTime s)
      (set_performanceStats (set_averageFPS (Math_round avgFPS) (performanceStats s)) s)
  else s.

(** *** updateLOD *)

(** Every registered LOD is updated against the camera.  Distinct LODs own
    distinct level objects, so the iteration order of the registry is
    immaterial. *)
Definition updateLOD `{RenderLibrary} (camera : CameraT) (s : PerformanceOptimizer)
  : PerformanceOptimizer :=
  set_store
    (map_fold
       (fun (_ : uuid) (lod : uuid) (st : Store) =>
          match objects st !! lod with
          | Some o => LOD_update (distanceTo camera (matrixWorld o)) lod st
          | None => st
          end)
       (store s) (lodObjects s)) s.

(** *** updateFrustumCulling *)

(** The traversal callback on one object: the new object and whether it was
    counted as visible ([Some true]), culled ([Some false]) or skipped. *)
Definition cullObject `{RenderLibrary} (camera : CameraT) (o : Object3D)
  : Object3D * option bool :=
  if isMesh o || isSprite o then
    match geometry o with
    | Some g =>
        let bs := match boundingSphere g with
                  | Some b => b
                  | None => computeBoundingSphere g
                  end in
        let sphere := applyMatrix4 bs (matrixWorld o) in
        let isVisible := intersectsSphere camera sphere in
        let ov := match originallyVisible (userData o) with
                  | Some b => b
                  | None => visible o
                  end in
        (set_visible (isVisible && ov)
           (set_userData (set_originallyVisible (Some ov) (userData o))
              (set_geometry (Some (set_boundingSphere (Some bs) g)) o)),
         Some isVisible)
    | None => (o, None)
    end
  else (o, None).

Definition cullStep `{RenderLibrary} (camera : CameraT)
    (acc : gmap uuid Object3D * (nat * nat)) (i : uuid)
  : gmap uuid Object3D * (nat * nat) :=
  let '(h, (visibleCount, culledCount)) := acc in
  match h !! i with
  | Some o =>
      match cullObject camera o with
      | (o', Some true) => (<[i := o']> h, (S visibleCount, culledCount))
      | (o', Some false) => (<[i := o']> h, (visibleCount, S culledCount))
      | (_, None) => acc
      end
  | None => acc
  end.

Definition updateFrustumCulling `{RenderLibrary} (camera : CameraT) (s : PerformanceOptimizer)
  : PerformanceOptimizer :=
  let '(h, (visibleCount, culledCount)) :=
    fold_left (cullStep camera) (preorder (scene s)) (objects (store s), (0, 0))%nat in
  set_performanceStats (set_counts visibleCount culledCount (performanceStats s))
    (set_store {| objects := h; nextId := nextId (store s) |} s).

(** *** adaptiveQuality *)

Definition adaptiveQuality (s : PerformanceOptimizer) : PerformanceOptimizer :=
  let avgFPS := averageFPS (performanceStats s) in
  let s1 :=
    if (avgFPS <? 30)%Z && Qltb 1 (pixelRatio s)
    then setPixelRatio (Math_max 0.5 (pixelRatio s * 0.9)) s
    else if (55 <? avgFPS)%Z && Qltb (pixelRatio s) (devicePixelRatio s)
    then setPixelRatio (Math_min (devicePixelRatio s) (pixelRatio s * 1.1)) s
    else s in
  if (avgFPS <? 25)%Z then set_lodDistances [30; 80; 150] s1
  else if (50 <? avgFPS)%Z then set_lodDistances [70; 200; 400] s1
  else s1.

(** *** toggleOptimization *)

Definition restoreObject (o : Object3D) : Object3D :=
  match originallyVisible (userData o) with
  | Some b => set_visible b o
  | None => o
  end.

Definition restoreVisibility (s : PerformanceOptimizer) : PerformanceOptimizer :=
  set_store
    {| objects := fold_left (fun h i => alter restoreObject i h)
                    (preorder (scene s)) (objects (store s));
       nextId := nextId (store s) |} s.

Definition toggleOptimization (type : string) (enabled : bool) (s : PerformanceOptimizer)
  : PerformanceOptimizer :=
  if String.eqb type "lod" then set_lodEnabled enabled s
  else if String.eqb type "culling" then
    let s1 := set_frustumCullingEnabled enabled s in
    if negb enabled then restoreVisibility s1 else s1
  else s.

(** *** Runs and sample data *)

(** Repeated adaptation steps with no new frame-rate sample in between. *)
Fixpoint ticks (n : nat) (s : PerformanceOptimizer) : PerformanceOptimizer :=
  match n with
  | O => s
  | S n' => ticks n' (adaptiveQuality s)
  end.

(** Successive culling passes, one camera pose per pass. *)
Definition cullPasses `{RenderLibrary} (cams : list CameraT) (s : PerformanceOptimizer)
  : PerformanceOptimizer :=
  fold_left (fun s' c => updateFrustumCulling c s') cams s.

(** The world-space bounding sphere the culler tests, when the object has a
    geometry to compute it from. *)
Definition worldSphere `{RenderLibrary} (o : Object3D) : option Sphere :=
  match geometry o with
  | Some g =>
      Some (applyMatrix4
              (match boundingSphere g with
               | Some b => b
               | None => computeBoundingSphere g
               end) (matrixWorld o))
  | None => None
  end.

(** The flag [originallyVisible] holds once the culler has seen the object:
    the captured one if there is one, else the current [visible]. *)
Definition captured (o : Object3D) : bool :=
  match originallyVisible (userData o) with
  | Some b => b
  | None => visible o
  end.

Inductive PoolOp :=
| GetFromPool (poolName : string)
| ReturnToPool (poolName : string) (object : uuid).

Definition runPoolOp (s : PerformanceOptimizer) (op : PoolOp) : PerformanceOptimizer :=
  match op with
  | GetFromPool n => snd (getFromPool n s)
  | ReturnToPool n o => returnToPool n o s
  end.

Definition runPoolOps (ops : list PoolOp) (s : PerformanceOptimizer) : PerformanceOptimizer :=
  fold_left runPoolOp ops s.

Definition poolsBounded (s : PerformanceOptimizer) : Prop :=
  forall (name : string) (pool : list uuid),
    objectPools s !! name = Some pool -> (length pool <= 100)%nat.

(** The box of the stand-in library: the scale of the object, and the
    TypeError for a mesh whose geometry is null. *)
Definition lineBox (o : Object3D) : option Vector3 :=
  if isMesh o
  then match geometry o with
       | Some _ => Some (scale o)
       | None => None
       end
  else Some (scale o).

(** A one-dimensional stand-in for the rendering library: a camera is its
    position on the x axis and its view range, and the world matrix of an
    object holds its x position. *)
Definition lineLibrary : RenderLibrary :=
  {| CameraT := Q * Q;
     computeBoundingSphere := fun _ => {| center := zero3; radius := 1 |};
     applyMatrix4 := fun sp m =>
       {| center := {| vx := vx (center sp) + hd 0 m; vy := vy (center sp);
                       vz := vz (center sp) |};
          radius := radius sp |};
     intersectsSphere := fun cam sp =>
       Qle_bool (Qabs (vx (center sp) - fst cam) - radius sp) (snd cam);
     distanceTo := fun cam m => Qabs (hd 0 m - fst cam);
     boxSize := lineBox;
     boxSize_null := fun o Hm Hg =>
       @eq_ind_r bool true
         (fun b : bool =>
            (if b then match geometry o with
                       | Some _ => Some (scale o)
                       | None => None
                       end
             else Some (scale o)) = None)
         (@eq_ind_r (option Geometry) None
            (fun g : option Geometry =>
               match g with
               | Some _ => Some (scale o)
               | None => None
               end = None) eq_refl (geometry o) Hg)
         (isMesh o) Hm |}.

Definition sampleMaterial : Material :=
  {| roughness := 0.5; metalness := 0.5;
     normalMap := Some "normal"; roughnessMap := None; metalnessMap := None |}.

Definition sampleObject (k : ObjectKind) (g : option Geometry) (x : Q) (vis : bool)
  : Object3D :=
  {| kind := k; visible := vis;
     userData := {| type := Some "rock"; originallyVisible := None; originalObject := None |};
     geometry := g; material := OneMaterial sampleMaterial;
     position := {| vx := x; vy := 0; vz := 0 |}; rotation := zero3; scale := one3;
     matrixWorld := [x]; levels := []; currentLevel := 0%nat; glyph := None |}.

Definition sphereGeometry : Geometry :=
  {| geometryClass := "SphereGeometry";
     parameters := Some [("radius", 1); ("widthSegments", 32); ("heightSegments", 16)];
     boundingSphere := None |}.

Definition mergedGeometry : Geometry :=
  {| geometryClass := "BufferGeometry"; parameters := None; boundingSphere := None |}.

(** A scene with the scene object 0, a parametric mesh 1 at x = 0, a mesh 2
    without parameters at x = 500 and an author-hidden mesh 3 at x = 0. *)
Definition sampleStore : Store :=
  {| objects :=
       <[3%nat := sampleObject KMesh (Some sphereGeometry) 0 false]>
         (<[2%nat := sampleObject KMesh (Some mergedGeometry) 500 true]>
            (<[1%nat := sampleObject KMesh (Some sphereGeometry) 0 true]>
               (<[0%nat := sampleObject KOther None 0 true]> ∅)));
     nextId := 4%nat |}.

Definition sampleScene : Tree := T 0%nat [T 1%nat []; T 2%nat []; T 3%nat []].

(** The optimizer over the sample scene, on a display whose pixel ratio
    the renderer starts from, at a given mean frame rate. *)
Definition sampleOptimizer (fps : Z) (ratio : Q) : PerformanceOptimizer :=
  let s := constructed sampleStore sampleScene ratio ratio 0 in
  set_performanceStats (set_averageFPS fps (performanceStats s)) s.

(** The sample optimizer with the pool "temporary" filled to its limit. *)
Definition fullPoolState : PerformanceOptimizer :=
  set_objectPools
    (<["temporary" := repeat 1%nat 100]> (objectPools (sampleOptimizer 60 1)))
    (sampleOptimizer 60 1).

(** The sample optimizer after one culling pass by a camera at x = 0 that
    sees 100 far: mesh 2, at x = 500, is culled. *)
Definition culledSample : PerformanceOptimizer :=
  @updateFrustumCulling lineLibrary (0, 100) (sampleOptimizer 60 1).

(** *** Further functions *)

(** The clones of a list of subtrees, threaded through the store: the loop
    over the children inside [object.clone()]. *)
Fixpoint cloneKids (ks : list Tree) (st : Store) : list Tree * Store :=
  match ks with
  | [] => ([], st)
  | k :: l' =>
      let '(k', s1) := cloneTree k st in
      let '(r, s2) := cloneKids l' s1 in
      (k' :: r, s2)
  end.

(** How the culling callback counts an object: [Some true] visible,
    [Some false] culled, [None] not counted. *)
Definition verdict `{RenderLibrary} (camera : CameraT) (o : Object3D) : option bool :=
  snd (cullObject camera o).

(** The three threshold tables the code ever assigns to [lodDistances]. *)
Definition thresholdPresets : list (list Q) :=
  [[50; 150; 300]; [30; 80; 150]; [70; 200; 400]].

(** [getPerformanceStats]: the counters the optimizer itself computes (the
    renderer's own statistics are left out). *)
Record PerformanceReport := {
  reportStats : Stats;
  reportLodObjects : nat;
  reportPooledObjects : nat;
  reportPixelRatio : Q
}.

Definition getPerformanceStats (s : PerformanceOptimizer) : PerformanceReport :=
  {| reportStats := performanceStats s;
     reportLodObjects := size (lodObjects s);
     reportPooledObjects :=
       map_fold (fun (_ : string) (pool : list uuid) (sum : nat) => (sum + length pool)%nat)
                0%nat (objectPools s);
     reportPixelRatio := pixelRatio s |}.



(** A run of adaptation steps in which the mean frame rate takes the given
    values, one per step. *)
Definition feed (rates : list Z) (s : PerformanceOptimizer) : PerformanceOptimizer :=
  fold_left
    (fun s' f => adaptiveQuality (set_performanceStats (set_averageFPS f (performanceStats s')) s'))
    rates s.


(** The number of entries of [l] whose object the culling callback counts
    as visible ([b = true]) or as culled ([b = false]). *)
Definition countVerdict `{RenderLibrary} (b : bool) (camera : CameraT)
    (h : gmap uuid Object3D) (l : list uuid) : nat :=
  length
    (List.filter
       (fun i => match h !! i with
                 | Some o => match verdict camera o with
                             | Some b' => Bool.eqb b b'
                             | None => false
                             end
                 | None => false
                 end) l).


(** [st'] extends [st]: identities are only added, and no object that
    existed in [st] is changed. *)
Definition extends (st st' : Store) : Prop :=
  (nextId st <= nextId st')%nat /\
  forall j, (j < nextId st)%nat -> objects st' !! j = objects st !! j.


End Optimizer.

(** ** js/terrain.js: generation of the height grid and of the mesh *)

Module TerrainMesh.

Section Generation.

(** [Math.sin], an interface: the trigonometric function of the host. *)
Variable Math_sin : Q -> Q.

(** [noise(x, y)]: the fractional part of a scaled sine, mapped to [-1, 1]. *)
Definition noise (x y : Q) : Q :=
  let n := Float.fl (Math_sin (Float.fl (Float.fl (x * Float.fl 12.9898)
                                         + Float.fl (y * Float.fl 78.233)))
                     * Float.fl 43758.5453) in
  Float.fl (Float.fl (2 * Float.fl (n - inject_Z (Qfloor n))) - 1).

(** The loop counter values of [for (let x = 0; x <= segments; x++)]. *)
Definition upTo (n : Z) : list Z := map Z.of_nat (seq 0 (Z.to_nat (n + 1))).

(** The body of the inner loop of [generateHeightData], for a segment
    count that is not zero (at zero the source divides 0 by 0). *)
Definition sampleHeight (segments : Z) (heightScale : Q) (x z : Z) : Q :=
  let nx := Float.fl (inject_Z x / inject_Z segments) in
  let nz := Float.fl (inject_Z z / inject_Z segments) in
  let height := 0 in
  let height :=
    Float.fl (height + Float.fl (noise (Float.fl (nx * 2)) (Float.fl (nz * 2)) * 0.5)) in
  let height :=
    Float.fl (height + Float.fl (noise (Float.fl (nx * 8)) (Float.fl (nz * 8)) * 0.25)) in
  let height :=
    Float.fl (height + Float.fl (noise (Float.fl (nx * 32)) (Float.fl (nz * 32)) * 0.125)) in
  Float.fl (height * heightScale).

Definition generateHeightData (t : Terrain.TerrainGenerator) : Terrain.TerrainGenerator :=
  {| Terrain.size := Terrain.size t;
     Terrain.segments := Terrain.segments t;
     Terrain.heightScale := Terrain.heightScale t;
     Terrain.heightData :=
       map (fun x =>
              map (fun z => sampleHeight (Terrain.segments t) (Terrain.heightScale t) x z)
                  (upTo (Terrain.segments t)))
           (upTo (Terrain.segments t)) |}.

End Generation.

(** [array[i]] for an integer index that may be negative or too large. *)
Definition at_ {A : Type} (l : list A) (i : Z) : option A :=
  if (i <? 0)%Z then None else l !! Z.to_nat i.

(** [applyHeightToGeometry] on the flat position array (x, y, z per
    vertex): the y of a vertex is overwritten by the grid cell of its x and z
    when that cell exists.  The array is a [Float32Array], so the height is
    stored rounded to the 32-bit format. *)
Fixpoint applyHeightToGeometry (t : Terrain.TerrainGenerator) (vertices : list Q) : list Q :=
  match vertices with
  | v0 :: v1 :: v2 :: rest =>
      let x := Terrain.gridIndex t v0 in
      let z := Terrain.gridIndex t v2 in
      let v1' := match at_ (Terrain.heightData t) x with
                 | Some row => match at_ row z with
                               | Some h => Float.fround h
                               | None => v1
                               end
                 | None => v1
                 end in
      v0 :: v1' :: v2 :: applyHeightToGeometry t rest
  | _ => vertices
  end.

End TerrainMesh.

(** ** js/camera-controller.js: mouse look and mode *)

Module Look.

Section MouseLook.

(** [Math.PI], an interface: a rational stand-in for the constant. *)
Variable Math_PI : Q.

Record Angles := { pitch : Q; yaw : Q; roll : Q }.   (* euler.x, euler.y, euler.z *)

(** [euler.setFromQuaternion(q)] for the quaternion [q] that
    [setFromEuler] makes of given angles, an interface of the rendering
    library: the angles read back are the canonical ones of the rotation,
    not the ones that were written. *)
Variable readBack : Angles -> Angles.

(** The orientation part of the controller.  [euler] is the Euler triple of
    the controller (order YXZ); [cameraAngles] stands for
    [camera.quaternion]: the angles the quaternion was last set from. *)
Record LookState := {
  isFirstPerson : bool;
  isPointerLocked : bool;
  mouseSensitivity : Q;
  minPolarAngle : Q;
  maxPolarAngle : Q;
  euler : Angles;
  cameraAngles : Angles
}.

(** The fields as the constructor sets them. *)
Definition constructed : LookState :=
  {| isFirstPerson := true; isPointerLocked := false;
     mouseSensitivity := 0.002;
     minPolarAngle := 0.1; maxPolarAngle := Math_PI - 0.1;
     euler := {| pitch := 0; yaw := 0; roll := 0 |};
     cameraAngles := {| pitch := 0; yaw := 0; roll := 0 |} |}.

(** [event.movementX || 0]: an absent or zero movement counts as 0. *)
Definition orNone (m : option Q) : Q :=
  match m with
  | Some v => orZero v
  | None => 0
  end.

Definition onMouseMove (movementX movementY : option Q) (s : LookState) : LookState :=
  if negb (isPointerLocked s) && isFirstPerson s then s
  else
    let mx := orNone movementX in
    let my := orNone movementY in
    let read := readBack (cameraAngles s) in
    let y := yaw read - mx * mouseSensitivity s in
    let x := pitch read - my * mouseSensitivity s in
    let x := Math_max (minPolarAngle s - Math_PI / 2)
                      (Math_min (maxPolarAngle s - Math_PI / 2) x) in
    let e := {| pitch := x; yaw := y; roll := roll read |} in
    {| isFirstPerson := isFirstPerson s; isPointerLocked := isPointerLocked s;
       mouseSensitivity := mouseSensitivity s;
       minPolarAngle := minPolarAngle s; maxPolarAngle := maxPolarAngle s;
       euler := e;
       cameraAngles := if isFirstPerson s then e else cameraAngles s |}.

(** [setRotation(yaw, pitch)]: no clamp is applied, and [euler.z] stays. *)
Definition setRotation (y p : Q) (s : LookState) : LookState :=
  let e := {| pitch := p; yaw := y; roll := roll (euler s) |} in
  {| isFirstPerson := isFirstPerson s; isPointerLocked := isPointerLocked s;
     mouseSensitivity := mouseSensitivity s;
     minPolarAngle := minPolarAngle s; maxPolarAngle := maxPolarAngle s;
     euler := e;
     cameraAngles := if isFirstPerson s then e else cameraAngles s |}.

End MouseLook.

End Look.


(** ** js/performance-optimizer.js: WorldManager *)

Module World.

(** The identity of a scene object. *)
Definition ref := nat.

(** What the manager reads and writes on an NPC: its position, its rotation
    about the y axis and the user data set by [addNPC].  [dialogueIndex] is
    a count: the code assigns it 0 and remainders only. *)
Record Entity := {
  position : Vector3;
  rotation_y : Q;
  dialogue : option (list string);
  dialogueIndex : nat;
  animationTime : Q;
  originalPosition : Vector3
}.

Definition set_dialogueIndex (i : nat) (e : Entity) : Entity :=
  {| position := position e; rotation_y := rotation_y e; dialogue := dialogue e;
     dialogueIndex := i; animationTime := animationTime e;
     originalPosition := originalPosition e |}.

Definition set_rotation_y (r : Q) (e : Entity) : Entity :=
  {| position := position e; rotation_y := r; dialogue := dialogue e;
     dialogueIndex := dialogueIndex e; animationTime := animationTime e;
     originalPosition := originalPosition e |}.

Record WorldManager := {
  entities : gmap ref Entity;
  sceneChildren : list ref;
  objects : gmap string ref;
  interactiveObjects : list ref;
  npcs : list ref;
  objectIdCounter : nat;
  wireframeMode : bool
}.

(** The collections as the constructor leaves them before [init]. *)
Definition constructed (h : gmap ref Entity) (children : list ref) : WorldManager :=
  {| entities := h; sceneChildren := children; objects := ∅;
     interactiveObjects := []; npcs := []; objectIdCounter := 0%nat;
     wireframeMode := false |}.

(** *** registerObject and removeObject *)

(** The template string [`${type}_${counter}`]. *)
Definition objectId (type : string) (counter : nat) : string :=
  type +:+ "_" +:+ pretty counter.

Definition registerObject (type : string) (object : ref) (w : WorldManager)
  : string * WorldManager :=
  let id := objectId type (objectIdCounter w) in
  (id,
   {| entities := entities w; sceneChildren := sceneChildren w;
      objects := <[id := object]> (objects w);
      interactiveObjects := interactiveObjects w; npcs := npcs w;
      objectIdCounter := S (objectIdCounter w);
      wireframeMode := wireframeMode w |}).

(** [indexOf] followed by [splice(index, 1)] when the index is not -1: the
    first occurrence is taken out.  [scene.remove] does the same to the
    children of the scene. *)
Fixpoint spliceFirst (x : ref) (l : list ref) : list ref :=
  match l with
  | [] => []
  | y :: r => if Nat.eqb x y then r else y :: spliceFirst x r
  end.

Definition removeObject (id : string) (w : WorldManager) : WorldManager :=
  match objects w !! id with
  | Some object =>
      {| entities := entities w;
         sceneChildren := spliceFirst object (sceneChildren w);
         objects := delete id (objects w);
         interactiveObjects := spliceFirst object (interactiveObjects w);
         npcs := spliceFirst object (npcs w);
         objectIdCounter := objectIdCounter w;
         wireframeMode := wireframeMode w |}
  | None => w
  end.

Record WorldStats := {
  totalObjects : nat;
  statInteractiveObjects : nat;
  statNpcs : nat;
  statWireframeMode : bool
}.

Definition getWorldStats (w : WorldManager) : WorldStats :=
  {| totalObjects := size (objects w);
     statInteractiveObjects := length (interactiveObjects w);
     statNpcs := length (npcs w);
     statWireframeMode := wireframeMode w |}.

(** Every identifier in use was issued by [registerObject] from a counter
    value that is already past. *)
Definition issued (w : WorldManager) : Prop :=
  forall id, is_Some (objects w !! id) ->
    exists type n, id = objectId type n /\ (n < objectIdCounter w)%nat.

(** *** interactWithNPC *)

(** [dialogue[index]] inside the template string. *)
Definition line (d : list string) (index : nat) : string :=
  match d !! index with
  | Some s => s
  | None => "undefined"
  end.

(** The call itself: the text given to [alert], if any, the rotation that
    the timer started by the call writes back, and the NPC as the call
    leaves it. *)
Definition interactWithNPC (npc : Entity) : option string * Q * Entity :=
  let index := dialogueIndex npc in
  let '(shown, npc1) :=
    match dialogue npc with
    | Some d =>
        if (index <? length d)%nat
        then (Some ("NPC: " +:+ line d index),
              set_dialogueIndex ((index + 1) mod length d)%nat npc)
        else (None, npc)
    | None => (None, npc)
    end in
  let originalRotation := rotation_y npc1 in
  (shown, originalRotation, set_rotation_y (originalRotation + 0.2) npc1).

(** What happens to one NPC: an interaction, or the oldest pending timer
    of an earlier interaction running (all timers have the same delay, so
    they run in the order they were started). *)
Inductive Event := Interact | Timeout.

(** The pending timers, oldest first, each with the rotation it restores;
    the texts shown so far, oldest first; the NPC. *)
Definition Session : Type := list Q * list string * Entity.

Definition step (s : Session) (e : Event) : Session :=
  let '(timers, shown, npc) := s in
  match e with
  | Interact =>
      let '(text, r, npc') := interactWithNPC npc in
      (timers ++ [r],
       match text with Some t => shown ++ [t] | None => shown end,
       npc')
  | Timeout =>
      match timers with
      | r :: rest => (rest, shown, set_rotation_y r npc)
      | [] => s
      end
  end.

Definition run (events : list Event) (s : Session) : Session :=
  fold_left step events s.

Definition start (npc : Entity) : Session := ([], [], npc).

(** *** updateNPCs *)

Section Animation.

(** [Math.sin] and [Math.cos], interfaces of the host. *)
Variables Math_sin Math_cos : Q -> Q.

Variable terrain : Terrain.TerrainGenerator.

(** The body of the [forEach] callback. *)
Definition animate (deltaTime : Q) (npc : Entity) : Entity :=
  let t := animationTime npc + deltaTime in
  let offset := Math_sin t * 0.3 in
  let x := vx (originalPosition npc) + offset in
  let z := vz (originalPosition npc) + Math_cos t * 0.2 in
  let terrainHeight := Terrain.getHeightAt terrain x z in
  {| position := {| vx := x; vy := terrainHeight; vz := z |};
     rotation_y := rotation_y npc; dialogue := dialogue npc;
     dialogueIndex := dialogueIndex npc; animationTime := t;
     originalPosition := originalPosition npc |}.

Definition updateNPCs (deltaTime : Q) (w : WorldManager) : WorldManager :=
  {| entities := fold_left (fun h i => alter (animate deltaTime) i h) (npcs w) (entities w);
     sceneChildren := sceneChildren w; objects := objects w;
     interactiveObjects := interactiveObjects w; npcs := npcs w;
     objectIdCounter := objectIdCounter w; wireframeMode := wireframeMode w |}.

End Animation.

(** A sample NPC with a dialogue of three lines, as [addNPC] sets one up. *)
Definition sampleNpc (x z : Q) : Entity :=
  {| position := {| vx := x; vy := 0; vz := z |}; rotation_y := 0;
     dialogue := Some ["Ola, aventureiro!"; "Este e um mundo virtual incrivel!";
                       "Explore e descubra novos lugares!"];
     dialogueIndex := 0%nat; animationTime := 0;
     originalPosition := {| vx := x; vy := 0; vz := z |} |}.

End World.


(** * Properties *)

(** ** Numeric helpers *)

Lemma Qltb_lt (a b : Q) : Qltb a b = true <-> a < b.
Proof.
  unfold Qltb. rewrite negb_true_iff. split.
  - intros H. apply Qnot_le_lt. intros Hle.
    apply Qle_bool_iff in Hle. congruence.
  - intros H. destruct (Qle_bool b a) eqn:E; [|reflexivity].
    apply Qle_bool_iff in E. exfalso. apply (Qlt_not_le _ _ H E).
Qed.

Lemma Qltb_ge (a b : Q) : Qltb a b = false <-> b <= a.
Proof.
  unfold Qltb. rewrite negb_false_iff. apply Qle_bool_iff.
Qed.

Lemma Qfloor_neg (q : Q) : q < 0 -> (Qfloor q < 0)%Z.
Proof.
  intros H. rewrite Zlt_Qlt.
  apply Qle_lt_trans with q; [apply Qfloor_le | exact H].
Qed.

Lemma Qfloor_above (q : Q) (n : Z) : inject_Z n <= q -> (n <= Qfloor q)%Z.
Proof.
  intros H. rewrite <- (Qfloor_Z n). apply Qfloor_resp_le. exact H.
Qed.

(** ** Floating-point rounding *)

Section FloatFacts.

Import Float.

Lemma rne_close (q : Q) :
  inject_Z (rne q) - (1 # 2) <= q /\ q <= inject_Z (rne q) + (1 # 2).
Proof.
  unfold rne. pose proof (Qfloor_le q) as Hl. pose proof (Qlt_floor q) as Hu.
  rewrite inject_Z_plus in Hu. change (inject_Z 1) with 1 in Hu.
  destruct (Qcompare (q - inject_Z (Qfloor q)) (1 # 2)) eqn:E.
  - apply (proj2 (Qeq_alt _ _)) in E. destruct (Z.even (Qfloor q)).
    + split; lra.
    + rewrite inject_Z_plus. change (inject_Z 1) with 1. split; lra.
  - apply (proj2 (Qlt_alt _ _)) in E. split; lra.
  - apply (proj2 (Qgt_alt _ _)) in E. rewrite inject_Z_plus. change (inject_Z 1) with 1. split; lra.
Qed.

Lemma rne_comp (q q' : Q) : q == q' -> rne q = rne q'.
Proof.
  intros H. unfold rne. rewrite (Qfloor_comp q q' H).
  assert (E : Qcompare (q - inject_Z (Qfloor q')) (1 # 2)
              = Qcompare (q' - inject_Z (Qfloor q')) (1 # 2)).
  { apply Qcompare_comp; [|reflexivity]. rewrite H. reflexivity. }
  rewrite E. reflexivity.
Qed.

Lemma rne_Z (n : Z) : rne (inject_Z n) = n.
Proof.
  unfold rne. rewrite Qfloor_Z.
  assert (E : Qcompare (inject_Z n - inject_Z n) (1 # 2) = Lt).
  { apply (proj1 (Qlt_alt _ _)). lra. }
  rewrite E. reflexivity.
Qed.

Lemma rne_mono (q q' : Q) : q <= q' -> (rne q <= rne q')%Z.
Proof.
  intros H. destruct (Z_le_gt_dec (rne q) (rne q')) as [Hle|Hgt]; [exact Hle|].
  destruct (rne_close q) as [H1 _]. destruct (rne_close q') as [_ H2].
  assert (Hz : inject_Z (rne q') + 1 <= inject_Z (rne q)).
  { change 1 with (inject_Z 1). rewrite <- inject_Z_plus, <- Zle_Qle. lia. }
  assert (E : q == q') by lra.
  rewrite (rne_comp q q' E). lia.
Qed.

Lemma rne_nonneg (q : Q) : 0 <= q -> (0 <= rne q)%Z.
Proof.
  intros H. rewrite <- (rne_Z 0). apply rne_mono. exact H.
Qed.

Lemma pow2_pos (k : Z) : 0 < 2 ^ k.
Proof. apply Qpower_0_lt. reflexivity. Qed.

Lemma pow2_plus (a b : Z) : 2 ^ (a + b) == 2 ^ a * 2 ^ b.
Proof. apply Qpower_plus. discriminate. Qed.

Lemma pow2_minus (a b : Z) : 2 ^ (a - b) == 2 ^ a / 2 ^ b.
Proof. apply Qpower_minus. discriminate. Qed.

Lemma pow2_succ (a : Z) : 2 ^ (a + 1) == 2 * 2 ^ a.
Proof. rewrite pow2_plus. change (2 ^ 1) with 2. ring. Qed.

Lemma pow2_le (a b : Z) : (a <= b)%Z -> 2 ^ a <= 2 ^ b.
Proof. intros H. apply Qpower_le_compat_l; [exact H | discriminate]. Qed.

Lemma pow2_lt (a b : Z) : (a < b)%Z -> 2 ^ a < 2 ^ b.
Proof. intros H. apply Qpower_lt_compat_l; [exact H | reflexivity]. Qed.

Lemma pow2_lt_inv (a b : Z) : 2 ^ a < 2 ^ b -> (a < b)%Z.
Proof. intros H. apply (Qpower_lt_compat_l_inv 2); [exact H | reflexivity]. Qed.

Lemma pow2_Z (n : Z) : (0 <= n)%Z -> inject_Z (2 ^ n) == 2 ^ n.
Proof. intros H. rewrite Zpower_Qpower by exact H. reflexivity. Qed.


Lemma Qle_bool_false (a b : Q) : Qle_bool a b = false -> b < a.
Proof.
  intros H. apply Qnot_le_lt. intros Hle. apply Qle_bool_iff in Hle. congruence.
Qed.

Lemma ilog2_rough (q : Q) :
  0 < q ->
  let k := (Z.log2 (Qnum q) - Z.log2 (Zpos (Qden q)))%Z in
  2 ^ (k - 1) <= q /\ q < 2 ^ (k + 1).
Proof.
  intros Hq k. destruct q as [n d]. cbn [Qnum Qden] in k.
  assert (Hn : (0 < n)%Z) by (unfold Qlt in Hq; simpl in Hq; lia).
  destruct (Z.log2_spec n Hn) as [Ha1 Ha2].
  destruct (Z.log2_spec (Zpos d) (Pos2Z.is_pos d)) as [Hb1 Hb2].
  set (a := Z.log2 n) in *. set (b := Z.log2 (Zpos d)) in *.
  assert (Ha0 : (0 <= a)%Z) by apply Z.log2_nonneg.
  assert (Hb0 : (0 <= b)%Z) by apply Z.log2_nonneg.
  assert (A1 : 2 ^ a <= inject_Z n).
  { rewrite <- pow2_Z by exact Ha0. rewrite <- Zle_Qle. exact Ha1. }
  assert (A2 : inject_Z n < 2 ^ (a + 1)).
  { rewrite <- pow2_Z by lia. rewrite <- Zlt_Qlt. replace (a + 1)%Z with (Z.succ a) by lia.
    exact Ha2. }
  assert (B1 : 2 ^ b <= inject_Z (Zpos d)).
  { rewrite <- pow2_Z by exact Hb0. rewrite <- Zle_Qle. exact Hb1. }
  assert (B2 : inject_Z (Zpos d) < 2 ^ (b + 1)).
  { rewrite <- pow2_Z by lia. rewrite <- Zlt_Qlt. replace (b + 1)%Z with (Z.succ b) by lia.
    exact Hb2. }
  assert (Hd : 0 < inject_Z (Zpos d)) by reflexivity.
  assert (E : n # d == inject_Z n / inject_Z (Zpos d)) by apply Qmake_Qdiv.
  pose proof (pow2_pos a) as Pa. pose proof (pow2_pos b) as Pb.
  pose proof (pow2_succ a) as Sa. pose proof (pow2_succ b) as Sb.
  assert (NZ : forall c, ~ 2 ^ c == 0).
  { intros c H0. pose proof (pow2_pos c) as P. rewrite H0 in P. apply (Qlt_irrefl _ P). }
  split.
  - unfold k. replace (a - b - 1)%Z with (a - (b + 1))%Z by lia.
    rewrite pow2_minus, E.
    apply Qle_shift_div_l; [exact Hd|].
    apply Qle_trans with (2 ^ a); [|exact A1].
    assert (X : 2 ^ a / 2 ^ (b + 1) * inject_Z (Z.pos d)
                == 2 ^ a * inject_Z (Z.pos d) / 2 ^ (b + 1)) by (field; apply NZ).
    rewrite X. apply Qle_shift_div_r; [apply pow2_pos|].
    pose proof (pow2_pos (b + 1)). nra.
  - unfold k. replace (a - b + 1)%Z with ((a + 1) - b)%Z by lia.
    rewrite pow2_minus, E.
    apply Qlt_shift_div_r; [exact Hd|].
    apply Qlt_le_trans with (2 ^ (a + 1)); [exact A2|].
    assert (X : 2 ^ (a + 1) / 2 ^ b * inject_Z (Z.pos d)
                == 2 ^ (a + 1) * inject_Z (Z.pos d) / 2 ^ b) by (field; apply NZ).
    rewrite X. apply Qle_shift_div_l; [exact Pb|].
    pose proof (pow2_pos (a + 1)). nra.
Qed.

Lemma ilog2_spec (q : Q) : 0 < q -> 2 ^ ilog2 q <= q /\ q < 2 ^ (ilog2 q + 1).
Proof.
  intros Hq. destruct (ilog2_rough q Hq) as [H1 H2]. unfold ilog2.
  destruct (Qle_bool q 0) eqn:E0.
  { apply Qle_bool_iff in E0. exfalso. apply (Qlt_not_le _ _ Hq E0). }
  set (k := (Z.log2 (Qnum q) - Z.log2 (Zpos (Qden q)))%Z) in *.
  destruct (Qle_bool (2 ^ k) q) eqn:E.
  - apply Qle_bool_iff in E. split; assumption.
  - apply Qle_bool_false in E. split; [exact H1|].
    replace (k - 1 + 1)%Z with k by lia. exact E.
Qed.

Lemma ilog2_unique (q : Q) (k : Z) : 2 ^ k <= q -> q < 2 ^ (k + 1) -> ilog2 q = k.
Proof.
  intros H1 H2.
  assert (Hq : 0 < q) by (apply Qlt_le_trans with (2 ^ k); [apply pow2_pos | exact H1]).
  destruct (ilog2_spec q Hq) as [S1 S2].
  assert (A : (k < ilog2 q + 1)%Z) by (apply pow2_lt_inv; apply Qle_lt_trans with q; assumption).
  assert (B : (ilog2 q < k + 1)%Z) by (apply pow2_lt_inv; apply Qle_lt_trans with q; assumption).
  lia.
Qed.

Lemma ilog2_comp (q q' : Q) : q == q' -> ilog2 q = ilog2 q'.
Proof.
  intros H. destruct (Qlt_le_dec 0 q) as [Hq|Hq].
  - destruct (ilog2_spec q Hq) as [S1 S2]. symmetry. apply ilog2_unique.
    + rewrite <- H. exact S1.
    + rewrite <- H. exact S2.
  - unfold ilog2.
    assert (E1 : Qle_bool q 0 = true) by (apply Qle_bool_iff; exact Hq).
    assert (E2 : Qle_bool q' 0 = true) by (apply Qle_bool_iff; rewrite <- H; exact Hq).
    rewrite E1, E2. reflexivity.
Qed.

Lemma ilog2_mono (q q' : Q) : 0 < q -> q <= q' -> (ilog2 q <= ilog2 q')%Z.
Proof.
  intros Hq H.
  assert (Hq' : 0 < q') by (apply Qlt_le_trans with q; assumption).
  destruct (ilog2_spec q Hq) as [S1 _]. destruct (ilog2_spec q' Hq') as [_ S2].
  assert (A : (ilog2 q < ilog2 q' + 1)%Z).
  { apply pow2_lt_inv. apply Qle_lt_trans with q; [exact S1|].
    apply Qle_lt_trans with q'; assumption. }
  lia.
Qed.

Lemma ilog2_pow2 (k : Z) : ilog2 (2 ^ k) = k.
Proof.
  apply ilog2_unique; [apply Qle_refl | apply pow2_lt; lia].
Qed.


Lemma pow2_nz (c : Z) : ~ 2 ^ c == 0.
Proof.
  intros H0. pose proof (pow2_pos c) as P. rewrite H0 in P. apply (Qlt_irrefl _ P).
Qed.

Lemma pow2_div_Z (K e : Z) : (e <= K)%Z -> 2 ^ K / 2 ^ e == inject_Z (2 ^ (K - e)).
Proof.
  intros H. rewrite pow2_Z by lia. rewrite pow2_minus. reflexivity.
Qed.

Section Rounding.

Variables p emin : Z.
Hypothesis p_pos : (1 <= p)%Z.

Lemma ulpExp_comp (q q' : Q) : q == q' -> ulpExp p emin q = ulpExp p emin q'.
Proof. intros H. unfold ulpExp. rewrite (ilog2_comp q q' H). reflexivity. Qed.

Lemma ulpExp_mono (q q' : Q) : 0 < q -> q <= q' -> (ulpExp p emin q <= ulpExp p emin q')%Z.
Proof.
  intros Hq H. unfold ulpExp. pose proof (ilog2_mono q q' Hq H). lia.
Qed.

Lemma ulpExp_emin (q : Q) : (emin <= ulpExp p emin q)%Z.
Proof. unfold ulpExp. lia. Qed.

Lemma roundAbs_comp (q q' : Q) : q == q' -> roundAbs p emin q == roundAbs p emin q'.
Proof.
  intros H. unfold roundAbs. rewrite (ulpExp_comp q q' H).
  rewrite (rne_comp (q / 2 ^ ulpExp p emin q') (q' / 2 ^ ulpExp p emin q')).
  - reflexivity.
  - rewrite H. reflexivity.
Qed.

Lemma roundAbs_nonneg (q : Q) : 0 <= q -> 0 <= roundAbs p emin q.
Proof.
  intros H. unfold roundAbs. apply Qmult_le_0_compat.
  - change 0 with (inject_Z 0). rewrite <- Zle_Qle. apply rne_nonneg.
    apply Qle_shift_div_l; [apply pow2_pos|]. rewrite Qmult_0_l. exact H.
  - apply Qlt_le_weak, pow2_pos.
Qed.

Lemma roundAbs_upper (q : Q) (K : Z) :
  q <= 2 ^ K -> (ulpExp p emin q <= K)%Z -> roundAbs p emin q <= 2 ^ K.
Proof.
  intros H He. unfold roundAbs. set (e := ulpExp p emin q) in *.
  assert (X : 2 ^ K == inject_Z (2 ^ (K - e)) * 2 ^ e).
  { rewrite <- pow2_div_Z by exact He. field. apply pow2_nz. }
  rewrite X. apply Qmult_le_compat_r; [|apply Qlt_le_weak, pow2_pos].
  rewrite <- Zle_Qle. rewrite <- (rne_Z (2 ^ (K - e))). apply rne_mono.
  rewrite <- pow2_div_Z by exact He.
  apply Qmult_le_compat_r; [exact H|].
  apply Qlt_le_weak, Qinv_lt_0_compat, pow2_pos.
Qed.

Lemma roundAbs_lower (q : Q) (K : Z) :
  2 ^ K <= q -> (ulpExp p emin q <= K)%Z -> 2 ^ K <= roundAbs p emin q.
Proof.
  intros H He. unfold roundAbs. set (e := ulpExp p emin q) in *.
  assert (X : 2 ^ K == inject_Z (2 ^ (K - e)) * 2 ^ e).
  { rewrite <- pow2_div_Z by exact He. field. apply pow2_nz. }
  rewrite X. apply Qmult_le_compat_r; [|apply Qlt_le_weak, pow2_pos].
  rewrite <- Zle_Qle. rewrite <- (rne_Z (2 ^ (K - e))). apply rne_mono.
  rewrite <- pow2_div_Z by exact He.
  apply Qmult_le_compat_r; [exact H|].
  apply Qlt_le_weak, Qinv_lt_0_compat, pow2_pos.
Qed.

Lemma roundAbs_mono (x y : Q) : 0 <= x -> x <= y -> roundAbs p emin x <= roundAbs p emin y.
Proof.
  intros Hx Hxy.
  destruct (Qlt_le_dec 0 x) as [Hpos|Hzero].
  2:{ assert (E : x == 0) by lra.
      rewrite (roundAbs_comp x 0 E).
      assert (Z0 : roundAbs p emin 0 == 0).
      { unfold roundAbs.
        rewrite (rne_comp (0 / 2 ^ ulpExp p emin 0) (inject_Z 0)) by (unfold Qdiv; ring).
        rewrite rne_Z. ring. }
      rewrite Z0. apply roundAbs_nonneg. lra. }
  assert (Hy : 0 < y) by lra.
  pose proof (ulpExp_mono x y Hpos Hxy) as He.
  destruct (Z.eq_dec (ulpExp p emin x) (ulpExp p emin y)) as [Eq|Ne].
  - unfold roundAbs. rewrite Eq.
    apply Qmult_le_compat_r; [|apply Qlt_le_weak, pow2_pos].
    rewrite <- Zle_Qle. apply rne_mono.
    apply Qmult_le_compat_r; [exact Hxy|].
    apply Qlt_le_weak, Qinv_lt_0_compat, pow2_pos.
  - destruct (ilog2_spec x Hpos) as [_ Sx]. destruct (ilog2_spec y Hy) as [Sy _].
    assert (Hk : (ilog2 x < ilog2 y)%Z) by (unfold ulpExp in *; lia).
    assert (Ey : ulpExp p emin y = (ilog2 y - p + 1)%Z) by (unfold ulpExp in *; lia).
    apply Qle_trans with (2 ^ ilog2 y).
    + apply roundAbs_upper.
      * apply Qlt_le_weak. apply Qlt_le_trans with (2 ^ (ilog2 x + 1)); [exact Sx|].
        apply pow2_le. lia.
      * lia.
    + apply roundAbs_lower; [exact Sy | lia].
Qed.

Lemma roundAbs_exact (m e : Z) :
  (0 <= m < 2 ^ p)%Z -> (emin <= e)%Z ->
  roundAbs p emin (inject_Z m * 2 ^ e) == inject_Z m * 2 ^ e.
Proof.
  intros Hm He.
  destruct (Z.eq_dec m 0%Z) as [->|Hm0].
  { unfold roundAbs.
    rewrite (rne_comp _ (inject_Z 0)) by (unfold Qdiv; ring).
    rewrite rne_Z. ring. }
  set (x := inject_Z m * 2 ^ e).
  assert (Hle : (ulpExp p emin x <= e)%Z).
  { assert (Hx : 0 < x).
    { unfold x. apply Qmult_lt_0_compat; [|apply pow2_pos].
      change 0 with (inject_Z 0). rewrite <- Zlt_Qlt. lia. }
    destruct (ilog2_spec x Hx) as [S1 _].
    assert (Hlt : x < 2 ^ (p + e)).
    { unfold x. rewrite pow2_plus. apply Qmult_lt_compat_r; [apply pow2_pos|].
      rewrite <- pow2_Z by lia. rewrite <- Zlt_Qlt. lia. }
    assert (A : (ilog2 x < p + e)%Z).
    { apply pow2_lt_inv. apply Qle_lt_trans with x; assumption. }
    unfold ulpExp. lia. }
  unfold roundAbs. fold x. set (e' := ulpExp p emin x) in *.
  assert (X : x / 2 ^ e' == inject_Z (m * 2 ^ (e - e'))).
  { unfold x. rewrite inject_Z_mult, <- pow2_div_Z by exact Hle. field. apply pow2_nz. }
  rewrite (rne_comp _ _ X), rne_Z, inject_Z_mult, <- pow2_div_Z by exact Hle.
  unfold x. field. apply pow2_nz.
Qed.

Lemma round_comp (q q' : Q) : q == q' -> round p emin q == round p emin q'.
Proof.
  intros H. unfold round.
  destruct (Qle_bool 0 q) eqn:E; destruct (Qle_bool 0 q') eqn:E'.
  - apply roundAbs_comp. exact H.
  - apply Qle_bool_iff in E. apply Qle_bool_false in E'. lra.
  - apply Qle_bool_iff in E'. apply Qle_bool_false in E. lra.
  - apply Qopp_comp. apply roundAbs_comp. rewrite H. reflexivity.
Qed.

Lemma round_mono (x y : Q) : x <= y -> round p emin x <= round p emin y.
Proof.
  intros H. unfold round.
  destruct (Qle_bool 0 x) eqn:E; destruct (Qle_bool 0 y) eqn:E'.
  - apply Qle_bool_iff in E. apply roundAbs_mono; assumption.
  - apply Qle_bool_iff in E. apply Qle_bool_false in E'. lra.
  - apply Qle_bool_iff in E'. apply Qle_bool_false in E.
    pose proof (roundAbs_nonneg (- x) ltac:(lra)). pose proof (roundAbs_nonneg y E'). lra.
  - apply Qle_bool_false in E. apply Qle_bool_false in E'.
    pose proof (roundAbs_mono (- y) (- x) ltac:(lra) ltac:(lra)). lra.
Qed.

Lemma round_opp (q : Q) : round p emin (- q) == - round p emin q.
Proof.
  unfold round.
  destruct (Qle_bool 0 q) eqn:E; destruct (Qle_bool 0 (- q)) eqn:E'.
  - apply Qle_bool_iff in E. apply Qle_bool_iff in E'.
    assert (Z0 : q == 0) by lra.
    rewrite (roundAbs_comp (- q) 0) by lra. rewrite (roundAbs_comp q 0 Z0).
    assert (R0 : roundAbs p emin 0 == 0) by (apply (roundAbs_exact 0 emin); lia).
    rewrite R0. reflexivity.
  - rewrite (roundAbs_comp (- - q) q) by ring. reflexivity.
  - ring.
  - apply Qle_bool_false in E. apply Qle_bool_false in E'. lra.
Qed.

Lemma round_exact (m e : Z) :
  (Z.abs m < 2 ^ p)%Z -> (emin <= e)%Z ->
  round p emin (inject_Z m * 2 ^ e) == inject_Z m * 2 ^ e.
Proof.
  intros Hm He. unfold round.
  destruct (Qle_bool 0 (inject_Z m * 2 ^ e)) eqn:E.
  - apply Qle_bool_iff in E.
    assert (H0 : (0 <= m)%Z).
    { destruct (Z_lt_le_dec m 0) as [Hn|Hn]; [|exact Hn]. exfalso.
      assert (inject_Z m < 0) by (change 0 with (inject_Z 0); rewrite <- Zlt_Qlt; exact Hn).
      pose proof (pow2_pos e). nra. }
    apply roundAbs_exact; lia.
  - apply Qle_bool_false in E.
    assert (H0 : (m < 0)%Z).
    { destruct (Z_lt_le_dec m 0) as [Hn|Hn]; [exact Hn|]. exfalso.
      assert (0 <= inject_Z m) by (change 0 with (inject_Z 0); rewrite <- Zle_Qle; exact Hn).
      pose proof (pow2_pos e). nra. }
    rewrite (roundAbs_comp (- (inject_Z m * 2 ^ e)) (inject_Z (- m) * 2 ^ e))
      by (rewrite inject_Z_opp; ring).
    rewrite roundAbs_exact by lia. rewrite inject_Z_opp. ring.
Qed.

Lemma round_0 : round p emin 0 == 0.
Proof.
  rewrite (round_comp 0 (inject_Z 0 * 2 ^ emin)) by ring.
  rewrite round_exact by lia. ring.
Qed.

Lemma round_nonneg (q : Q) : 0 <= q -> 0 <= round p emin q.
Proof. intros H. rewrite <- round_0. apply round_mono. exact H. Qed.

Lemma round_nonpos (q : Q) : q <= 0 -> round p emin q <= 0.
Proof. intros H. rewrite <- round_0. apply round_mono. exact H. Qed.

(** A value that rounding leaves alone is a multiple of its last place. *)
Lemma round_fixed (q : Q) :
  round p emin q == q ->
  exists m : Z, q == inject_Z m * 2 ^ ulpExp p emin (Qabs q).
Proof.
  unfold round. destruct (Qle_bool 0 q) eqn:E; intros H.
  - apply Qle_bool_iff in E. rewrite (ulpExp_comp (Qabs q) q) by (apply Qabs_pos; exact E).
    eexists. rewrite <- H at 1. unfold roundAbs. reflexivity.
  - apply Qle_bool_false in E.
    rewrite (ulpExp_comp (Qabs q) (- q)) by (apply Qabs_neg; lra).
    exists (- rne (- q / 2 ^ ulpExp p emin (- q)))%Z.
    rewrite <- H at 1. unfold roundAbs. rewrite inject_Z_opp. ring.
Qed.

End Rounding.

End FloatFacts.

(** ** The two formats *)

Lemma fl_comp (x y : Q) : x == y -> Float.fl x == Float.fl y.
Proof. apply round_comp. Qed.

Lemma fl_mono (x y : Q) : x <= y -> Float.fl x <= Float.fl y.
Proof. apply round_mono. lia. Qed.

Lemma fl_exact (m e : Z) :
  (Z.abs m < 2 ^ 53)%Z -> (-1074 <= e)%Z ->
  Float.fl (inject_Z m * 2 ^ e) == inject_Z m * 2 ^ e.
Proof. apply round_exact. lia. Qed.

Lemma fl_Z (m : Z) : (Z.abs m < 2 ^ 53)%Z -> Float.fl (inject_Z m) == inject_Z m.
Proof.
  intros H. rewrite (fl_comp (inject_Z m) (inject_Z m * 2 ^ 0)) by (change (2 ^ 0) with 1; ring).
  rewrite fl_exact by (try exact H; lia). change (2 ^ 0) with 1. ring.
Qed.

Lemma fl_opp (x : Q) : Float.fl (- x) == - Float.fl x.
Proof. apply round_opp. lia. Qed.

Lemma fl_0 : Float.fl 0 == 0.
Proof. apply round_0. lia. Qed.

Lemma fl_nonneg (x : Q) : 0 <= x -> 0 <= Float.fl x.
Proof. apply round_nonneg. lia. Qed.

Lemma fl_nonpos (x : Q) : x <= 0 -> Float.fl x <= 0.
Proof. apply round_nonpos. lia. Qed.

Lemma fl_fixed (x : Q) :
  Float.fl x == x -> exists m : Z, x == inject_Z m * 2 ^ Float.ulpExp 53 (-1074) (Qabs x).
Proof. apply round_fixed. Qed.

Lemma fround_comp (x y : Q) : x == y -> Float.fround x == Float.fround y.
Proof. apply round_comp. Qed.

Lemma fround_mono (x y : Q) : x <= y -> Float.fround x <= Float.fround y.
Proof. apply round_mono. lia. Qed.

Lemma fround_0 : Float.fround 0 == 0.
Proof. apply round_0. lia. Qed.

(** ** The height query (js/terrain.js) *)

Section HeightQuery.

Import Terrain.

Variable t : TerrainGenerator.
Hypothesis size_pos : 0 < size t.
Hypothesis segments_pos : (0 < segments t)%Z.
Hypothesis size_number : Float.fl (size t) == size t.
Hypothesis half_number : Float.fl (size t / 2) == size t / 2.
Hypothesis segments_number : Float.fl (inject_Z (segments t)) == inject_Z (segments t).

Local Abbreviation gridIndex := (Terrain.gridIndex t).

(** The index expression after the sum. *)
Local Abbreviation scaled a :=
  (Float.fl (Float.fl (a / size t) * inject_Z (segments t))).

Lemma segments_Q : 1 <= inject_Z (segments t).
Proof. change 1 with (inject_Z 1). rewrite <- Zle_Qle. lia. Qed.

Lemma scaled_mono (a a' : Q) : a <= a' -> scaled a <= scaled a'.
Proof.
  intros H. pose proof segments_Q as Hs. apply fl_mono.
  apply Qmult_le_compat_r; [|lra]. apply fl_mono.
  apply Qmult_le_compat_r; [exact H|]. apply Qlt_le_weak, Qinv_lt_0_compat, size_pos.
Qed.

Lemma scaled_0 : scaled 0 == 0.
Proof.
  rewrite (fl_comp (Float.fl (0 / size t) * inject_Z (segments t)) 0); [apply fl_0|].
  rewrite (fl_comp (0 / size t) 0) by (unfold Qdiv; ring). rewrite fl_0. ring.
Qed.

Lemma scaled_size : scaled (size t) == inject_Z (segments t).
Proof.
  assert (E1 : Float.fl (size t / size t) == 1).
  { rewrite (fl_comp (size t / size t) (inject_Z 1)).
    - rewrite fl_Z by (vm_compute; reflexivity). reflexivity.
    - change (inject_Z 1) with 1. field. intros H. rewrite H in size_pos.
      apply (Qlt_irrefl _ size_pos). }
  rewrite (fl_comp _ (inject_Z (segments t))); [exact segments_number|].
  rewrite E1. ring.
Qed.

Lemma gridIndex_mono (c c' : Q) : c <= c' -> (gridIndex c <= gridIndex c')%Z.
Proof.
  intros H. unfold Terrain.gridIndex. apply Qfloor_resp_le. apply scaled_mono.
  apply fl_mono. lra.
Qed.

Lemma gridIndex_nonneg (c : Q) : - (size t / 2) <= c -> (0 <= gridIndex c)%Z.
Proof.
  intros H. unfold Terrain.gridIndex. apply Qfloor_above. change (inject_Z 0) with 0.
  rewrite <- scaled_0. apply scaled_mono. apply fl_nonneg. rewrite half_number. lra.
Qed.

Lemma sum_le_size (c : Q) : c <= size t / 2 -> Float.fl (c + Float.fl (size t / 2)) <= size t.
Proof.
  intros H. apply Qle_trans with (Float.fl (size t)); [|rewrite size_number; apply Qle_refl].
  apply fl_mono. rewrite half_number.
  assert (E : size t == size t / 2 + size t / 2) by field. lra.
Qed.

Lemma sum_ge_size (c : Q) : size t / 2 <= c -> size t <= Float.fl (c + Float.fl (size t / 2)).
Proof.
  intros H. apply Qle_trans with (Float.fl (size t)); [rewrite size_number; apply Qle_refl|].
  apply fl_mono. rewrite half_number.
  assert (E : size t == size t / 2 + size t / 2) by field. lra.
Qed.

Lemma gridIndex_le_segments (c : Q) : c <= size t / 2 -> (gridIndex c <= segments t)%Z.
Proof.
  intros H. unfold Terrain.gridIndex.
  apply Z.le_trans with (Qfloor (inject_Z (segments t))); [|rewrite Qfloor_Z; lia].
  apply Qfloor_resp_le.
  apply Qle_trans with (scaled (size t)); [|rewrite scaled_size; apply Qle_refl].
  apply scaled_mono. apply sum_le_size. exact H.
Qed.

Lemma gridIndex_above (c : Q) : size t / 2 <= c -> (segments t <= gridIndex c)%Z.
Proof.
  intros H. unfold Terrain.gridIndex. apply Qfloor_above.
  apply Qle_trans with (scaled (size t)); [rewrite scaled_size; apply Qle_refl|].
  apply scaled_mono. apply sum_ge_size. exact H.
Qed.

(** Left of the domain a coordinate that is a number gives a negative
    index: the sum is a non-zero multiple of the last place of [size / 2],
    which is too large to vanish in the quotient and the product. *)
Lemma gridIndex_below (c : Q) :
  Float.fl c == c -> c < - (size t / 2) -> (gridIndex c < 0)%Z.
Proof.
  intros Dc Hc.
  assert (Hh : 0 < size t / 2) by (apply Qlt_shift_div_l; [reflexivity | lra]).
  set (h := size t / 2) in *.
  destruct (fl_fixed c Dc) as [m1 E1]. destruct (fl_fixed h half_number) as [m2 E2].
  rewrite (ulpExp_comp 53 (-1074) (Qabs c) (- c)) in E1 by (apply Qabs_neg; lra).
  rewrite (ulpExp_comp 53 (-1074) (Qabs h) h) in E2 by (apply Qabs_pos; lra).
  set (e1 := Float.ulpExp 53 (-1074) (- c)) in *.
  set (e2 := Float.ulpExp 53 (-1074) h) in *.
  assert (He : (e2 <= e1)%Z) by (apply ulpExp_mono; lra).
  assert (Hmin : (-1074 <= e2)%Z) by apply ulpExp_emin.
  (* the sum is a negative multiple of 2^e2 *)
  assert (Es : c + h == inject_Z (m1 * 2 ^ (e1 - e2) + m2) * 2 ^ e2).
  { rewrite inject_Z_plus, inject_Z_mult, <- pow2_div_Z by exact He.
    rewrite E1 at 1. rewrite E2 at 1. field. apply pow2_nz. }
  set (M := (m1 * 2 ^ (e1 - e2) + m2)%Z) in *.
  assert (HM : (M <= -1)%Z).
  { destruct (Z_lt_le_dec M 0) as [Hn|Hn]; [lia|]. exfalso.
    assert (0 <= inject_Z M) by (change 0 with (inject_Z 0); rewrite <- Zle_Qle; exact Hn).
    pose proof (pow2_pos e2). nra. }
  assert (Hsum : c + h <= - 2 ^ e2).
  { rewrite Es.
    assert (inject_Z M <= -1) by (change (-1) with (inject_Z (-1)); rewrite <- Zle_Qle; exact HM).
    pose proof (pow2_pos e2). nra. }
  assert (HA : Float.fl (c + Float.fl h) <= - 2 ^ e2).
  { apply Qle_trans with (Float.fl (inject_Z (-1) * 2 ^ e2)).
    - apply fl_mono. rewrite half_number. change (inject_Z (-1)) with (-1). lra.
    - rewrite fl_exact by (try exact Hmin; vm_compute; reflexivity).
      change (inject_Z (-1)) with (-1). lra. }
  (* 2^e2 is more than size / 2^54 *)
  assert (Hulp : size t * 2 ^ (-54) < 2 ^ e2).
  { destruct (ilog2_spec h Hh) as [_ S2].
    assert (P : 2 ^ (Float.ilog2 h - 53 + 1) <= 2 ^ e2).
    { apply pow2_le. unfold e2, Float.ulpExp. lia. }
    assert (X : 2 ^ (Float.ilog2 h + 1) == 2 ^ (Float.ilog2 h - 53 + 1) * 2 ^ 53).
    { rewrite <- pow2_plus. apply Qpower_comp; [reflexivity|]. lia. }
    assert (K1 : 2 ^ (-54) == / (2 * 2 ^ 53)) by reflexivity.
    assert (Y : size t == 2 * h) by (unfold h; field).
    pose proof (pow2_pos 53) as P53. pose proof (pow2_pos (Float.ilog2 h - 53 + 1)) as Pk.
    rewrite K1, Y.
    apply Qlt_le_trans with (2 ^ (Float.ilog2 h - 53 + 1)); [|exact P].
    apply Qlt_shift_div_r; [nra|]. rewrite X in S2. nra. }
  assert (HB : Float.fl (Float.fl (c + Float.fl h) / size t) <= - 2 ^ (-54)).
  { apply Qle_trans with (Float.fl (inject_Z (-1) * 2 ^ (-54))).
    - apply fl_mono. change (inject_Z (-1)) with (-1).
      apply Qle_shift_div_r; [exact size_pos|]. pose proof (pow2_pos (-54)). nra.
    - rewrite fl_exact by (vm_compute; try reflexivity; discriminate).
      change (inject_Z (-1)) with (-1). lra. }
  unfold Terrain.gridIndex. fold h. apply Qfloor_neg.
  apply Qle_lt_trans with (Float.fl (inject_Z (-1) * 2 ^ (-54))).
  - apply fl_mono. change (inject_Z (-1)) with (-1).
    pose proof segments_Q. pose proof (pow2_pos (-54)). nra.
  - rewrite fl_exact by (vm_compute; try reflexivity; discriminate).
    change (inject_Z (-1)) with (-1). pose proof (pow2_pos (-54)). lra.
Qed.

Lemma getHeightAt_index_out (x z : Q) :
  ((gridIndex x < 0)%Z \/ (segments t <= gridIndex x)%Z \/
   (gridIndex z < 0)%Z \/ (segments t <= gridIndex z)%Z) ->
  getHeightAt t x z = 0.
Proof.
  intros H. unfold getHeightAt. fold (Terrain.gridIndex t x) (Terrain.gridIndex t z).
  destruct (Nat.eqb (length (heightData t)) 0); [reflexivity|].
  destruct (_ || _) eqn:E; [reflexivity|].
  repeat (apply orb_false_iff in E; destruct E as [E ?]).
  lia.
Qed.

Lemma getHeightAt_index_in (x z : Q) :
  (0 <= gridIndex x < segments t)%Z -> (0 <= gridIndex z < segments t)%Z ->
  heightData t <> [] ->
  getHeightAt t x z =
    match heightData t !! Z.to_nat (gridIndex x) with
    | Some row => match row !! Z.to_nat (gridIndex z) with
                  | Some h => orZero h
                  | None => 0
                  end
    | None => 0
    end.
Proof.
  intros Hx Hz Hne. unfold getHeightAt. fold (Terrain.gridIndex t x) (Terrain.gridIndex t z).
  destruct (heightData t) as [|r rs] eqn:Ehd; [congruence|]. simpl length.
  cbn [Nat.eqb].
  destruct (_ || _) eqn:E; [|reflexivity].
  repeat (apply orb_true_iff in E; destruct E as [E|E]); lia.
Qed.

End HeightQuery.

(** C1. On a terrain whose size, half size and segment count are numbers
    of the language, the height query returns 0 for every pair of
    coordinates outside the square domain.  In general it looks up the cell
    at the indices it computes, each the floor of the index expression
    evaluated in floating point, and returns 0 as soon as an index leaves
    [0, segments).  The computed index grows with the coordinate and lies
    between 0 and segments for a coordinate of the domain. *)
Theorem getHeightAt_contract (t : Terrain.TerrainGenerator) (x z : Q)
    (size_pos : 0 < Terrain.size t) (segments_pos : (0 < Terrain.segments t)%Z)
    (size_number : Float.fl (Terrain.size t) == Terrain.size t)
    (half_number : Float.fl (Terrain.size t / 2) == Terrain.size t / 2)
    (segments_number :
       Float.fl (inject_Z (Terrain.segments t)) == inject_Z (Terrain.segments t))
    (x_number : Float.fl x == x) (z_number : Float.fl z == z) :
  let half := Terrain.size t / 2 in
  let index := fun c : Q =>
    Qfloor (Float.fl (Float.fl (Float.fl (c + Float.fl half) / Terrain.size t)
                      * inject_Z (Terrain.segments t))) in
  let nx := index x in
  let nz := index z in
  ((x < - half \/ half < x \/ z < - half \/ half < z) ->
     Terrain.getHeightAt t x z = 0) /\
  (((nx < 0)%Z \/ (Terrain.segments t <= nx)%Z \/
    (nz < 0)%Z \/ (Terrain.segments t <= nz)%Z) ->
     Terrain.getHeightAt t x z = 0) /\
  ((0 <= nx < Terrain.segments t)%Z -> (0 <= nz < Terrain.segments t)%Z ->
   Terrain.heightData t <> [] ->
     Terrain.getHeightAt t x z =
       match Terrain.heightData t !! Z.to_nat nx with
       | Some row => match row !! Z.to_nat nz with
                     | Some h => orZero h
                     | None => 0
                     end
       | None => 0
       end) /\
  (forall c c' : Q, c <= c' -> (index c <= index c')%Z) /\
  (forall c : Q, - half <= c -> c <= half -> (0 <= index c <= Terrain.segments t)%Z).
Proof.
  intros half index nx nz.
  change nx with (Terrain.gridIndex t x). change nz with (Terrain.gridIndex t z).
  split; [|split; [|split; [|split]]].
  - intros H. apply getHeightAt_index_out.
    destruct H as [H|[H|[H|H]]].
    + left. now apply gridIndex_below.
    + right; left. apply gridIndex_above; try assumption. apply Qlt_le_weak. exact H.
    + right; right; left. now apply gridIndex_below.
    + right; right; right. apply gridIndex_above; try assumption. apply Qlt_le_weak. exact H.
  - apply getHeightAt_index_out.
  - apply getHeightAt_index_in.
  - intros c c' H. apply (gridIndex_mono t size_pos segments_pos c c' H).
  - intros c Hlo Hhi. split.
    + apply (gridIndex_nonneg t size_pos segments_pos half_number c Hlo).
    + apply (gridIndex_le_segments t size_pos segments_pos size_number half_number
               segments_number c Hhi).
Qed.

Lemma getHeightAt_contract_witness :
  let t := Terrain.constructed (Terrain.constantGrid 257 3) in
  Terrain.getHeightAt t 600 0 = 0 /\
  Terrain.getHeightAt t 500 0 = 0 /\
  Terrain.getHeightAt t 0 0 = 3.
Proof.
  intros t.
  destruct (getHeightAt_contract t 600 0) as [Hout _];
    try (vm_compute; reflexivity).
  destruct (getHeightAt_contract t 500 0) as [_ [Hidx _]];
    try (vm_compute; reflexivity).
  destruct (getHeightAt_contract t 0 0) as [_ [_ [Hin _]]];
    try (vm_compute; reflexivity).
  split; [|split].
  - apply Hout. right; left. reflexivity.
  - apply Hidx. right; left. vm_compute. discriminate.
  - rewrite Hin.
    + vm_compute. reflexivity.
    + vm_compute. split; [discriminate | reflexivity].
    + vm_compute. split; [discriminate | reflexivity].
    + discriminate.
Defined.

(** ** Terrain collision (js/camera-controller.js) *)

Lemma gridIndex_comp (t : Terrain.TerrainGenerator) (c c' : Q) :
  c == c' -> Terrain.gridIndex t c = Terrain.gridIndex t c'.
Proof.
  intros H. unfold Terrain.gridIndex. apply Qfloor_comp. apply fl_comp.
  apply Qmult_comp; [|reflexivity]. apply fl_comp.
  apply Qdiv_comp; [|reflexivity]. apply fl_comp. rewrite H. reflexivity.
Qed.

Lemma getHeightAt_comp (t : Terrain.TerrainGenerator) (x x' z z' : Q) :
  x == x' -> z == z' -> Terrain.getHeightAt t x z = Terrain.getHeightAt t x' z'.
Proof.
  intros Hx Hz. unfold Terrain.getHeightAt.
  fold (Terrain.gridIndex t x) (Terrain.gridIndex t z)
       (Terrain.gridIndex t x') (Terrain.gridIndex t z').
  rewrite (gridIndex_comp t x x' Hx), (gridIndex_comp t z z' Hz). reflexivity.
Qed.

Section Collision.

Import Camera.

Lemma collide_cases (c : CameraController) (i : Intersection) :
  collide c i = c \/
  (String.eqb (objectName i) "terrain" = false /\ distance i < 2 /\
   collide c i = with_position c (set_y (position c) (vy (point i) + 2))).
Proof.
  unfold collide. destruct (String.eqb (objectName i) "terrain"); [left; reflexivity|].
  destruct (Qlt_le_dec (distance i) 2) as [Hd|Hd]; [right; auto | left; reflexivity].
Qed.

Lemma fold_collide (l : list Intersection) :
  forall c, lifted l c (fold_left collide l c).
Proof.
  induction l as [|i l IH]; intros c; simpl.
  - unfold lifted. tauto.
  - specialize (IH (collide c i)).
    destruct IH as (Ht & Hf & Hk & Hv & Hx & Hz & Hy).
    assert (Hy' : vy (position (fold_left collide l (collide c i))) = vy (position (collide c i)) \/
                  exists j, In j (i :: l) /\ String.eqb (objectName j) "terrain" = false /\
                            distance j < 2 /\
                            vy (position (fold_left collide l (collide c i))) = vy (point j) + 2).
    { destruct Hy as [Hy|(j & Hj & Hr)]; [left; exact Hy|].
      right. exists j. split; [right; exact Hj | exact Hr]. }
    clear Hy.
    destruct (collide_cases c i) as [E|(En & Hd & E)]; rewrite E in *.
    + unfold lifted. tauto.
    + simpl in *. unfold lifted. repeat (split; [assumption|]).
      destruct Hy' as [Hy|Hy]; [|right; exact Hy].
      right. exists i. split; [left; reflexivity|]. auto.
Qed.

Lemma checkObjectCollisions_lifted (probe : Probe) (c : CameraController) :
  lifted (probe (position c)) c (checkObjectCollisions probe c).
Proof. apply (fold_collide (probe (position c)) c). Qed.

Lemma fold_collide_clear (l : list Intersection) :
  (forall i, In i l -> String.eqb (objectName i) "terrain" = true \/ 2 <= distance i) ->
  forall c, fold_left collide l c = c.
Proof.
  induction l as [|i l IH]; intros Hl c; simpl; [reflexivity|].
  assert (E : collide c i = c).
  { unfold collide. destruct (Hl i (or_introl eq_refl)) as [H|H].
    - rewrite H. reflexivity.
    - destruct (String.eqb _ _); [reflexivity|].
      destruct (Qlt_le_dec (distance i) 2) as [Hd|Hd]; [|reflexivity].
      exfalso. apply (Qlt_not_le _ _ Hd H). }
  rewrite E. apply IH. intros j Hj. apply Hl. right. exact Hj.
Qed.

Lemma checkObjectCollisions_never_lowers (probe : Probe) (c : CameraController) :
  downward probe ->
  vy (position c) <= vy (position (checkObjectCollisions probe c)).
Proof.
  intros Hd.
  destruct (checkObjectCollisions_lifted probe c) as (_ & _ & _ & _ & _ & _ & Hy).
  destruct Hy as [Hy|(i & Hi & _ & Hlt & Hy)]; rewrite Hy.
  - apply Qle_refl.
  - destruct (Hd _ _ Hi) as [_ Hp]. rewrite Hp. lra.
Qed.

(** The clamp of [applyTerrainCollision], before the object probe. *)
Lemma applyTerrainCollision_grounded (probe : Probe) (c : CameraController) :
  downward probe -> grounded (applyTerrainCollision probe c).
Proof.
  intros Hd. unfold applyTerrainCollision.
  set (h := Terrain.getHeightAt (terrain c) (vx (position c)) (vz (position c))).
  set (c1 := if Qlt_le_dec (vy (position c)) (h + 2)
             then with_position c (set_y (position c) (h + 2)) else c).
  assert (H1 : terrain c1 = terrain c /\ vx (position c1) = vx (position c) /\
               vz (position c1) = vz (position c) /\ h + 2 <= vy (position c1)).
  { unfold c1. destruct (Qlt_le_dec (vy (position c)) (h + 2)); simpl.
    - repeat split; auto. apply Qle_refl.
    - repeat split; auto. }
  destruct H1 as (Ht1 & Hx1 & Hz1 & Hy1).
  pose proof (checkObjectCollisions_never_lowers probe c1 Hd) as Hup.
  destruct (checkObjectCollisions_lifted probe c1) as (Ht & _ & _ & _ & Hx & Hz & _).
  unfold grounded. rewrite Ht, Hx, Hz, Ht1, Hx1, Hz1. fold h.
  apply Qle_trans with (vy (position c1)); assumption.
Qed.

Lemma applyTerrainCollision_never_lowers (probe : Probe) (c : CameraController) :
  downward probe ->
  vy (position c) <= vy (position (applyTerrainCollision probe c)).
Proof.
  intros Hd. unfold applyTerrainCollision.
  set (h := Terrain.getHeightAt (terrain c) (vx (position c)) (vz (position c))).
  set (c1 := if Qlt_le_dec (vy (position c)) (h + 2)
             then with_position c (set_y (position c) (h + 2)) else c).
  apply Qle_trans with (vy (position c1)).
  - unfold c1. destruct (Qlt_le_dec (vy (position c)) (h + 2)) as [Hlt|Hge]; simpl.
    + apply Qlt_le_weak. exact Hlt.
    + apply Qle_refl.
  - apply checkObjectCollisions_never_lowers. exact Hd.
Qed.

Lemma updateCamera_position (o : Orientation) (c : CameraController) :
  position (updateCamera o c) = position c /\ terrain (updateCamera o c) = terrain c /\
  keys (updateCamera o c) = keys c /\ isFirstPerson (updateCamera o c) = isFirstPerson c.
Proof. unfold updateCamera. destruct (isFirstPerson c) eqn:E; simpl; auto. Qed.

Lemma updateCamera_grounded (o : Orientation) (c : CameraController) :
  grounded c -> grounded (updateCamera o c).
Proof.
  unfold grounded. destruct (updateCamera_position o c) as (Hp & Ht & _).
  rewrite Hp, Ht. auto.
Qed.

Lemma update_grounded (dt : Q) (o : Orientation) (probe : Probe) (c : CameraController) :
  downward probe -> grounded (update dt o probe c).
Proof.
  intros Hd. unfold update. apply updateCamera_grounded.
  apply applyTerrainCollision_grounded. exact Hd.
Qed.

Lemma teleportTo_grounded (o : Orientation) (x z : Q) (c : CameraController) :
  grounded (teleportTo o x z c).
Proof.
  unfold teleportTo, setPosition. apply updateCamera_grounded.
  unfold grounded. simpl. apply Qle_refl.
Qed.

Lemma setPosition_grounded_iff (o : Orientation) (p : Vector3) (c : CameraController) :
  grounded (setPosition o p c) <->
  Terrain.getHeightAt (terrain c) (vx p) (vz p) + 2 <= vy p.
Proof.
  unfold setPosition, grounded.
  destruct (updateCamera_position o (with_position c p)) as (Hp & Ht & _).
  rewrite Hp, Ht. simpl. reflexivity.
Qed.

(** With no movement intent the horizontal position keeps its value and the
    height is unchanged by [updateMovement]. *)
Lemma updateMovement_idle (dt : Q) (o : Orientation) (c : CameraController) :
  idle (keys c) ->
  let c' := updateMovement dt o c in
  terrain c' = terrain c /\ keys c' = keys c /\ isFirstPerson c' = isFirstPerson c /\
  vx (position c') == vx (position c) /\
  vy (position c') == vy (position c) /\
  vz (position c') == vz (position c).
Proof.
  intros (Hf & Hb & Hl & Hr & Hu & Hdn). unfold updateMovement.
  rewrite Hf, Hb, Hl, Hr, Hu, Hdn. simpl.
  repeat split; auto; ring.
Qed.

End Collision.

Section IdleTick.

Import Camera.

Variables (o : Orientation) (probe : Probe).

Lemma applyTerrainCollision_fields (c : CameraController) :
  let c' := applyTerrainCollision probe c in
  terrain c' = terrain c /\ keys c' = keys c /\
  vx (position c') = vx (position c) /\ vz (position c') = vz (position c).
Proof.
  unfold applyTerrainCollision.
  set (h := Terrain.getHeightAt (terrain c) (vx (position c)) (vz (position c))).
  set (c1 := if Qlt_le_dec (vy (position c)) (h + 2)
             then with_position c (set_y (position c) (h + 2)) else c).
  destruct (checkObjectCollisions_lifted probe c1) as (Ht1 & _ & Hk1 & _ & Hx1 & Hz1 & _).
  simpl. rewrite Ht1, Hk1, Hx1, Hz1. unfold c1.
  destruct (Qlt_le_dec (vy (position c)) (h + 2)); simpl; auto.
Qed.

Lemma update_idle_fields (dt : Q) (c : CameraController) :
  idle (keys c) ->
  let c' := update dt o probe c in
  terrain c' = terrain c /\ keys c' = keys c /\
  vx (position c') == vx (position c) /\ vz (position c') == vz (position c).
Proof.
  intros Hi c'. unfold c', update.
  set (d := if Qlt_le_dec (1 # 10) dt then 1 # 10 else dt).
  destruct (updateMovement_idle d o c Hi) as (Ht & Hk & _ & Hx & _ & Hz).
  destruct (updateCamera_position o (applyTerrainCollision probe (updateMovement d o c)))
    as (Hp & Ht' & Hk' & _).
  destruct (applyTerrainCollision_fields (updateMovement d o c)) as (Ht1 & Hk1 & Hx1 & Hz1).
  rewrite Hp, Ht', Hk', Ht1, Hk1, Hx1, Hz1. auto.
Qed.

Lemma update_idle_clear (dt : Q) (c : CameraController) :
  idle (keys c) -> clearBelow probe ->
  let h := Terrain.getHeightAt (terrain c) (vx (position c)) (vz (position c)) in
  vy (position (update dt o probe c)) ==
    if Qlt_le_dec (vy (position c)) (h + 2) then h + 2 else vy (position c).
Proof.
  intros Hi Hc h. unfold update.
  set (d := if Qlt_le_dec (1 # 10) dt then 1 # 10 else dt).
  destruct (updateMovement_idle d o c Hi) as (Ht & _ & _ & Hx & Hy & Hz).
  destruct (updateCamera_position o (applyTerrainCollision probe (updateMovement d o c)))
    as (Hp & _).
  rewrite Hp. unfold applyTerrainCollision, checkObjectCollisions.
  rewrite fold_collide_clear by (intros i Hin; exact (Hc _ _ Hin)).
  rewrite Ht, (getHeightAt_comp (terrain c) _ (vx (position c)) _ (vz (position c)) Hx Hz).
  fold h.
  destruct (Qlt_le_dec (vy (position (updateMovement d o c))) (h + 2)) as [H1|H1];
    destruct (Qlt_le_dec (vy (position c)) (h + 2)) as [H2|H2]; simpl.
  - reflexivity.
  - rewrite Hy in H1. exfalso. apply (Qlt_not_le _ _ H1 H2).
  - rewrite Hy in H1. exfalso. apply (Qlt_not_le _ _ H2 H1).
  - exact Hy.
Qed.

End IdleTick.

(** C4 (amended). A tick with no movement intent keeps the horizontal
    position, never lowers the height and leaves it at least 2 above the
    terrain; when no object lies closer than 2 below, the new height is the
    old one if that was already at least 2 above the terrain, and exactly
    terrain height plus 2 otherwise, and a further idle tick changes
    nothing. *)
Theorem update_idle_height (dt dt' : Q) (o o' : Camera.Orientation) (probe : Camera.Probe)
    (c : Camera.CameraController)
    (Hidle : Camera.idle (Camera.keys c)) (Hdown : Camera.downward probe) :
  let h := Terrain.getHeightAt (Camera.terrain c)
             (vx (Camera.position c)) (vz (Camera.position c)) in
  let c' := Camera.update dt o probe c in
  vx (Camera.position c') == vx (Camera.position c) /\
  vz (Camera.position c') == vz (Camera.position c) /\
  h + 2 <= vy (Camera.position c') /\
  vy (Camera.position c) <= vy (Camera.position c') /\
  (Camera.clearBelow probe ->
     vy (Camera.position c') ==
       (if Qlt_le_dec (vy (Camera.position c)) (h + 2)
        then h + 2 else vy (Camera.position c)) /\
     vy (Camera.position (Camera.update dt' o' probe c')) == vy (Camera.position c')).
Proof.
  intros h c'.
  destruct (update_idle_fields o probe dt c Hidle) as (Ht & Hk & Hx & Hz).
  fold c' in Ht, Hk, Hx, Hz.
  assert (Hh : Terrain.getHeightAt (Camera.terrain c')
                 (vx (Camera.position c')) (vz (Camera.position c')) = h).
  { rewrite Ht. apply getHeightAt_comp; assumption. }
  assert (Hg : h + 2 <= vy (Camera.position c')).
  { pose proof (update_grounded dt o probe c Hdown) as G.
    unfold Camera.grounded in G. fold c' in G. rewrite Hh in G. exact G. }
  split; [exact Hx|]. split; [exact Hz|]. split; [exact Hg|]. split.
  - unfold c', Camera.update.
    destruct (updateCamera_position o
      (Camera.applyTerrainCollision probe
         (Camera.updateMovement (if Qlt_le_dec (1 # 10) dt then 1 # 10 else dt) o c)))
      as (Hp & _).
    rewrite Hp.
    eapply Qle_trans; [|apply applyTerrainCollision_never_lowers; exact Hdown].
    destruct (updateMovement_idle (if Qlt_le_dec (1 # 10) dt then 1 # 10 else dt) o c Hidle)
      as (_ & _ & _ & _ & Hy & _).
    rewrite Hy. apply Qle_refl.
  - intros Hclear. split.
    + apply (update_idle_clear o probe dt c Hidle Hclear).
    + assert (Hidle' : Camera.idle (Camera.keys c')) by (rewrite Hk; exact Hidle).
      rewrite (update_idle_clear o' probe dt' c' Hidle' Hclear). rewrite Hh.
      destruct (Qlt_le_dec (vy (Camera.position c')) (h + 2)) as [Hlt|Hge].
      * exfalso. apply (Qlt_not_le _ _ Hlt Hg).
      * reflexivity.
Qed.

Lemma emptyProbe_downward : Camera.downward Camera.emptyProbe.
Proof. intros p i []. Qed.

Lemma emptyProbe_clear : Camera.clearBelow Camera.emptyProbe.
Proof. intros p i []. Qed.

Lemma update_idle_height_witness :
  vy (Camera.position
        (Camera.update (1 # 60) Camera.noOrientation Camera.emptyProbe (Camera.scenario 4))) == 5 /\
  vy (Camera.position
        (Camera.update (1 # 60) Camera.noOrientation Camera.emptyProbe (Camera.scenario 10))) == 10.
Proof.
  assert (Hi : forall y, Camera.idle (Camera.keys (Camera.scenario y))).
  { intros y. unfold Camera.idle. simpl. tauto. }
  split.
  - destruct (update_idle_height (1 # 60) (1 # 60) Camera.noOrientation Camera.noOrientation
                Camera.emptyProbe (Camera.scenario 4) (Hi 4) emptyProbe_downward)
      as (_ & _ & _ & _ & H).
    destruct (H emptyProbe_clear) as [H1 _]. rewrite H1. vm_compute. reflexivity.
  - destruct (update_idle_height (1 # 60) (1 # 60) Camera.noOrientation Camera.noOrientation
                Camera.emptyProbe (Camera.scenario 10) (Hi 10) emptyProbe_downward)
      as (_ & _ & _ & _ & H).
    destruct (H emptyProbe_clear) as [H1 _]. rewrite H1. vm_compute. reflexivity.
Defined.

(** C4, counterexample. Terrain height 3 at the origin, camera at
    (0, 10, 0), no input: after one update the camera is still at height 10,
    not at 5. *)
Lemma update_idle_stays_above :
  let c' := Camera.update (1 # 60) Camera.noOrientation Camera.emptyProbe (Camera.scenario 10) in
  Terrain.getHeightAt (Camera.terrain (Camera.scenario 10)) 0 0 = 3 /\
  Camera.idle (Camera.keys (Camera.scenario 10)) /\
  vy (Camera.cameraPosition c') == 10 /\
  ~ vy (Camera.cameraPosition c') == 5.
Proof.
  split; [vm_compute; reflexivity|].
  split; [unfold Camera.idle; simpl; tauto|].
  split; [vm_compute; reflexivity|].
  vm_compute. discriminate.
Qed.

(** C5 (amended). The per-tick update and [teleportTo] always leave the
    position at least 2 above the terrain under it; [setPosition] stores
    the given position as it is, so the bound holds after it exactly when the
    given position satisfies it. *)
Theorem position_operations_grounded (dt : Q) (o : Camera.Orientation) (probe : Camera.Probe)
    (c : Camera.CameraController) (x z : Q) (p : Vector3)
    (Hdown : Camera.downward probe) :
  Camera.grounded (Camera.update dt o probe c) /\
  Camera.grounded (Camera.teleportTo o x z c) /\
  (Camera.grounded (Camera.setPosition o p c) <->
   Terrain.getHeightAt (Camera.terrain c) (vx p) (vz p) + 2 <= vy p).
Proof.
  split; [apply update_grounded; exact Hdown|].
  split; [apply teleportTo_grounded|].
  apply setPosition_grounded_iff.
Qed.

Lemma platformProbe_downward : Camera.downward Camera.platformProbe.
Proof.
  intros p i [<-|[]]. simpl. split; [lra | reflexivity].
Qed.

Lemma position_operations_grounded_witness :
  let c := Camera.scenario 4 in
  let o := Camera.noOrientation in
  Camera.downward Camera.platformProbe /\
  Camera.grounded (Camera.update (1 # 60) o Camera.platformProbe c) /\
  Camera.grounded (Camera.teleportTo o 20 (-30) c).
Proof.
  intros c o.
  destruct (position_operations_grounded (1 # 60) o Camera.platformProbe c 20 (-30)
              {| vx := 0; vy := 0; vz := 0 |} platformProbe_downward) as (H1 & H2 & _).
  split; [exact platformProbe_downward|]. split; assumption.
Defined.

(** C5, counterexample. From the initial state, which satisfies the bound,
    [setPosition] to (0, 0, 0) leaves the position below terrain height
    plus 2. *)
Lemma setPosition_breaks_grounded :
  let c0 := Camera.init Camera.flatTerrain Camera.noOrientation in
  Camera.grounded c0 /\
  ~ Camera.grounded
      (Camera.setPosition Camera.noOrientation {| vx := 0; vy := 0; vz := 0 |} c0).
Proof.
  split.
  - unfold Camera.grounded. vm_compute. discriminate.
  - unfold Camera.grounded. vm_compute. intros H. apply H. reflexivity.
Qed.

(** ** Adaptive quality (js/performance-optimizer.js) *)

Section Quality.

Import Optimizer.

Lemma adaptiveQuality_stats (s : PerformanceOptimizer) :
  performanceStats (adaptiveQuality s) = performanceStats s.
Proof.
  unfold adaptiveQuality.
  repeat match goal with |- context [if ?b then _ else _] => destruct b end; reflexivity.
Qed.

Lemma adaptiveQuality_low_above (s : PerformanceOptimizer) :
  (averageFPS (performanceStats s) < 30)%Z -> 1 < pixelRatio s ->
  pixelRatio (adaptiveQuality s) = pixelRatio s * 0.9.
Proof.
  intros Hf Hr. unfold adaptiveQuality.
  apply Z.ltb_lt in Hf. rewrite Hf. apply Qltb_lt in Hr. rewrite Hr. simpl.
  assert (E : Math_max 0.5 (pixelRatio s * 0.9) = pixelRatio s * 0.9).
  { unfold Math_max. destruct (Qlt_le_dec 0.5 (pixelRatio s * 0.9)) as [H|H]; [reflexivity|].
    apply Qltb_lt in Hr. exfalso. lra. }
  repeat match goal with |- context [if ?b then _ else _] => destruct b end; simpl; exact E.
Qed.

Lemma adaptiveQuality_low_below (s : PerformanceOptimizer) :
  (averageFPS (performanceStats s) < 30)%Z -> pixelRatio s <= 1 ->
  pixelRatio (adaptiveQuality s) = pixelRatio s.
Proof.
  intros Hf Hr. unfold adaptiveQuality.
  apply Qltb_ge in Hr. rewrite Hr, andb_false_r.
  assert (E : (55 <? averageFPS (performanceStats s))%Z = false) by (apply Z.ltb_ge; lia).
  rewrite E. simpl.
  repeat match goal with |- context [if ?b then _ else _] => destruct b end; reflexivity.
Qed.

Lemma ticks_stats (n : nat) : forall s, performanceStats (ticks n s) = performanceStats s.
Proof.
  induction n as [|n IH]; intros s; simpl; [reflexivity|].
  rewrite IH. apply adaptiveQuality_stats.
Qed.

Lemma ticks_succ (n : nat) : forall s, ticks (S n) s = adaptiveQuality (ticks n s).
Proof.
  induction n as [|n IH]; intros s; [reflexivity|].
  change (ticks (S (S n)) s) with (ticks (S n) (adaptiveQuality s)).
  rewrite IH. reflexivity.
Qed.

Lemma ticks_settled (n : nat) : forall s,
  (averageFPS (performanceStats s) < 30)%Z -> pixelRatio s <= 1 ->
  pixelRatio (ticks n s) = pixelRatio s.
Proof.
  induction n as [|n IH]; intros s Hf Hr; simpl; [reflexivity|].
  rewrite IH.
  - apply adaptiveQuality_low_below; assumption.
  - rewrite adaptiveQuality_stats. exact Hf.
  - rewrite adaptiveQuality_low_below; assumption.
Qed.

Lemma ticks_reach (n : nat) : forall s,
  (averageFPS (performanceStats s) < 30)%Z ->
  pixelRatio s <= 1 + inject_Z (Z.of_nat n) / 9 ->
  pixelRatio (ticks n s) <= 1.
Proof.
  induction n as [|n IH]; intros s Hf Hr.
  - assert (E : 1 + inject_Z (Z.of_nat 0) / 9 == 1) by reflexivity.
    rewrite E in Hr. exact Hr.
  - change (ticks (S n) s) with (ticks n (adaptiveQuality s)).
    destruct (Qlt_le_dec 1 (pixelRatio s)) as [Hgt|Hle].
    + apply IH; [rewrite adaptiveQuality_stats; exact Hf|].
      rewrite adaptiveQuality_low_above by assumption.
      assert (H0 : 0 <= inject_Z (Z.of_nat n)).
      { change 0 with (inject_Z 0). rewrite <- Zle_Qle. lia. }
      assert (E : inject_Z (Z.of_nat (S n)) == inject_Z (Z.of_nat n) + 1).
      { rewrite Nat2Z.inj_succ. unfold Z.succ. rewrite inject_Z_plus. reflexivity. }
      rewrite E in Hr. clear E.
      generalize dependent (inject_Z (Z.of_nat n)). intros k Hk0 Hk1.
      generalize dependent (pixelRatio s). intros r Hr0 Hr1.
      assert (E1 : (k + 1) / 9 == k * (1 # 9) + (1 # 9)) by field.
      assert (E2 : k / 9 == k * (1 # 9)) by field.
      rewrite E1 in *. rewrite E2. lra.
    + pose proof (adaptiveQuality_low_below s Hf Hle) as E.
      rewrite ticks_settled.
      * rewrite E. exact Hle.
      * rewrite adaptiveQuality_stats. exact Hf.
      * rewrite E. exact Hle.
Qed.

End Quality.

Section QualityRuns.

Import Optimizer.

Lemma ticks_add (a b : nat) : forall s, ticks (a + b) s = ticks b (ticks a s).
Proof.
  induction a as [|a IH]; intros s; simpl; [reflexivity|]. apply IH.
Qed.

Lemma adaptiveQuality_low_step (s : PerformanceOptimizer) :
  (averageFPS (performanceStats s) < 30)%Z ->
  pixelRatio (adaptiveQuality s) =
    if Qlt_le_dec 1 (pixelRatio s) then pixelRatio s * 0.9 else pixelRatio s.
Proof.
  intros Hf. destruct (Qlt_le_dec 1 (pixelRatio s)) as [H|H].
  - apply adaptiveQuality_low_above; assumption.
  - apply adaptiveQuality_low_below; assumption.
Qed.

Lemma scale_bound (r : Q) : exists n : nat, r <= 1 + inject_Z (Z.of_nat n) / 9.
Proof.
  exists (Z.to_nat (Qceiling r * 9)).
  destruct (Z_lt_le_dec (Qceiling r) 0) as [Hneg|Hpos].
  - assert (Hr : r <= inject_Z (Qceiling r)) by apply Qle_ceiling.
    assert (Hc : inject_Z (Qceiling r) <= 0).
    { change 0 with (inject_Z 0). rewrite <- Zle_Qle. lia. }
    assert (H0 : 0 <= inject_Z (Z.of_nat (Z.to_nat (Qceiling r * 9)))).
    { change 0 with (inject_Z 0). rewrite <- Zle_Qle. lia. }
    generalize dependent (inject_Z (Z.of_nat (Z.to_nat (Qceiling r * 9)))). intros k Hk.
    assert (E : k / 9 == k * (1 # 9)) by field. rewrite E. lra.
  - rewrite Z2Nat.id by lia. rewrite inject_Z_mult.
    assert (Hr : r <= inject_Z (Qceiling r)) by apply Qle_ceiling.
    generalize dependent (inject_Z (Qceiling r)). intros k Hk.
    assert (E : k * inject_Z 9 / 9 == k) by (change (inject_Z 9) with 9; field).
    rewrite E. lra.
Qed.

End QualityRuns.

(** C3 (amended). While the mean frame rate is below 30, each adaptation
    step multiplies the resolution scale by 0.9 if the scale is above 1 and
    leaves it unchanged otherwise; the scale therefore never increases,
    settles after finitely many steps at a value of at most 1 and stays
    there, and from a start above 1 it remains above 0.9, so the 0.5 floor
    is not reached. *)
Theorem adaptiveQuality_low_fps (s : Optimizer.PerformanceOptimizer)
    (Hfps : (Optimizer.averageFPS (Optimizer.performanceStats s) < 30)%Z) :
  (forall n : nat,
     Optimizer.pixelRatio (Optimizer.ticks (S n) s) =
       if Qlt_le_dec 1 (Optimizer.pixelRatio (Optimizer.ticks n s))
       then Optimizer.pixelRatio (Optimizer.ticks n s) * 0.9
       else Optimizer.pixelRatio (Optimizer.ticks n s)) /\
  (forall n : nat,
     Optimizer.pixelRatio (Optimizer.ticks (S n) s)
       <= Optimizer.pixelRatio (Optimizer.ticks n s)) /\
  (exists n : nat,
     Optimizer.pixelRatio (Optimizer.ticks n s) <= 1 /\
     forall m : nat, (n <= m)%nat ->
       Optimizer.pixelRatio (Optimizer.ticks m s) =
       Optimizer.pixelRatio (Optimizer.ticks n s)) /\
  (1 < Optimizer.pixelRatio s ->
     forall n : nat, 0.9 < Optimizer.pixelRatio (Optimizer.ticks n s)).
Proof.
  assert (Hstep : forall n : nat,
     Optimizer.pixelRatio (Optimizer.ticks (S n) s) =
       if Qlt_le_dec 1 (Optimizer.pixelRatio (Optimizer.ticks n s))
       then Optimizer.pixelRatio (Optimizer.ticks n s) * 0.9
       else Optimizer.pixelRatio (Optimizer.ticks n s)).
  { intros n. rewrite ticks_succ. apply adaptiveQuality_low_step.
    rewrite ticks_stats. exact Hfps. }
  split; [exact Hstep|]. split; [|split].
  - intros n. rewrite Hstep.
    destruct (Qlt_le_dec 1 (Optimizer.pixelRatio (Optimizer.ticks n s))) as [H|H].
    + lra.
    + apply Qle_refl.
  - destruct (scale_bound (Optimizer.pixelRatio s)) as [n Hn].
    exists n. pose proof (ticks_reach n s Hfps Hn) as Hle.
    split; [exact Hle|]. intros m Hm.
    replace m with (n + (m - n))%nat by lia.
    rewrite ticks_add. apply ticks_settled; [|exact Hle].
    rewrite ticks_stats. exact Hfps.
  - intros Hgt n. induction n as [|n IH].
    + simpl. lra.
    + rewrite Hstep.
      destruct (Qlt_le_dec 1 (Optimizer.pixelRatio (Optimizer.ticks n s))) as [H|H].
      * lra.
      * exact IH.
Qed.

Lemma adaptiveQuality_low_fps_witness :
  let s := Optimizer.sampleOptimizer 20 2 in
  Optimizer.pixelRatio (Optimizer.ticks 1 s) == 1.8 /\
  Optimizer.pixelRatio (Optimizer.ticks 2 s) <= Optimizer.pixelRatio (Optimizer.ticks 1 s) /\
  0.9 < Optimizer.pixelRatio (Optimizer.ticks 40 s).
Proof.
  intros s.
  assert (Hf : (Optimizer.averageFPS (Optimizer.performanceStats s) < 30)%Z)
    by (vm_compute; reflexivity).
  destruct (adaptiveQuality_low_fps s Hf) as (H1 & H2 & _ & H4).
  split; [|split].
  - rewrite (H1 0%nat). vm_compute. reflexivity.
  - apply (H2 1%nat).
  - apply H4. vm_compute. reflexivity.
Defined.

(** C3, counterexample. At a mean frame rate of 20 and a resolution scale
    of 1, which is above 0.5, an adaptation step leaves the scale at 1; and
    from scale 2 the scale stops above 0.9 and is not 0.5 after 50 steps. *)
Lemma adaptiveQuality_keeps_unit_scale :
  let s := Optimizer.sampleOptimizer 20 1 in
  (Optimizer.averageFPS (Optimizer.performanceStats s) < 30)%Z /\
  0.5 < Optimizer.pixelRatio s /\
  Optimizer.pixelRatio (Optimizer.adaptiveQuality s) == 1 /\
  ~ Optimizer.pixelRatio (Optimizer.adaptiveQuality s) == Optimizer.pixelRatio s * 0.9 /\
  ~ Optimizer.pixelRatio (Optimizer.ticks 50 (Optimizer.sampleOptimizer 20 2)) == 0.5.
Proof.
  repeat split; try (vm_compute; reflexivity); vm_compute; discriminate.
Qed.

(** ** Object pools (js/performance-optimizer.js) *)

Section Pools.

Import Optimizer.

Lemma removelast_shorter {A : Type} (l : list A) : (length (removelast l) <= length l)%nat.
Proof.
  induction l as [|a l IH]; simpl; [lia|].
  destruct l; simpl in *; lia.
Qed.

Lemma constructed_bounded (st : Store) (sc : Tree) (ratio dpr now : Q) :
  poolsBounded (constructed st sc ratio dpr now).
Proof.
  intros name pool. unfold constructed. simpl. intros H.
  apply lookup_insert_Some in H. destruct H as [[_ <-]|[_ H]]; [simpl; lia|].
  apply lookup_insert_Some in H. destruct H as [[_ <-]|[_ H]]; [simpl; lia|].
  rewrite lookup_empty in H. discriminate.
Qed.

Lemma getFromPool_bounded (n : string) (s : PerformanceOptimizer) :
  poolsBounded s -> poolsBounded (snd (getFromPool n s)).
Proof.
  intros Hb. unfold getFromPool.
  destruct (objectPools s !! n) as [pool|] eqn:E; [|exact Hb].
  destruct (0 <? length pool)%nat; [|exact Hb].
  intros name p. simpl. intros H.
  apply lookup_insert_Some in H. destruct H as [[_ <-]|[_ H]].
  - pose proof (removelast_shorter pool). pose proof (Hb n pool E). lia.
  - exact (Hb name p H).
Qed.

Lemma returnToPool_bounded (n : string) (object : uuid) (s : PerformanceOptimizer) :
  poolsBounded s -> poolsBounded (returnToPool n object s).
Proof.
  intros Hb. unfold returnToPool.
  destruct (objectPools s !! n) as [pool|] eqn:E; [|exact Hb].
  destruct (length pool <? 100)%nat eqn:El; [|exact Hb].
  apply Nat.ltb_lt in El.
  intros name p. simpl. intros H.
  apply lookup_insert_Some in H. destruct H as [[_ <-]|[_ H]].
  - rewrite length_app. simpl. lia.
  - exact (Hb name p H).
Qed.

Lemma runPoolOps_bounded (ops : list PoolOp) :
  forall s, poolsBounded s -> poolsBounded (runPoolOps ops s).
Proof.
  induction ops as [|op ops IH]; intros s Hb; [exact Hb|].
  unfold runPoolOps. simpl. apply IH.
  destruct op as [n|n o]; simpl.
  - apply getFromPool_bounded. exact Hb.
  - apply returnToPool_bounded. exact Hb.
Qed.

Lemma returnToPool_full (n : string) (object : uuid) (s : PerformanceOptimizer)
    (pool : list uuid) :
  objectPools s !! n = Some pool -> (100 <= length pool)%nat ->
  returnToPool n object s = s.
Proof.
  intros E Hl. unfold returnToPool. rewrite E.
  destruct (length pool <? 100)%nat eqn:El; [|reflexivity].
  apply Nat.ltb_lt in El. lia.
Qed.

Lemma returnToPool_adds (n : string) (object : uuid) (s : PerformanceOptimizer)
    (pool : list uuid) (o : Object3D) :
  objectPools s !! n = Some pool -> (length pool < 100)%nat ->
  objects (store s) !! object = Some o ->
  objectPools (returnToPool n object s) !! n = Some (pool ++ [object]) /\
  objects (store (returnToPool n object s)) !! object = Some (resetObject o).
Proof.
  intros E Hl Ho. unfold returnToPool. rewrite E.
  apply Nat.ltb_lt in Hl. rewrite Hl. simpl. split.
  - apply lookup_insert_eq.
  - rewrite lookup_alter_eq, Ho. reflexivity.
Qed.

End Pools.

(** C10. From any state whose pools hold at most 100 objects, and so from
    the constructed optimizer, every sequence of [getFromPool] and
    [returnToPool] leaves every pool with at most 100 objects; returning
    to a pool that already holds 100 changes nothing, and an object that is
    added has position and rotation 0, scale 1 and is visible. *)
Theorem pools_bounded (ops : list Optimizer.PoolOp) (s : Optimizer.PerformanceOptimizer)
    (Hs : Optimizer.poolsBounded s) :
  Optimizer.poolsBounded (Optimizer.runPoolOps ops s) /\
  (forall st sc ratio dpr now,
     Optimizer.poolsBounded
       (Optimizer.runPoolOps ops (Optimizer.constructed st sc ratio dpr now))) /\
  (forall name object pool,
     Optimizer.objectPools s !! name = Some pool -> length pool = 100%nat ->
     Optimizer.returnToPool name object s = s) /\
  (forall name object pool o,
     Optimizer.objectPools s !! name = Some pool -> (length pool < 100)%nat ->
     Optimizer.objects (Optimizer.store s) !! object = Some o ->
     let s' := Optimizer.returnToPool name object s in
     Optimizer.objectPools s' !! name = Some (pool ++ [object]) /\
     exists o', Optimizer.objects (Optimizer.store s') !! object = Some o' /\
       Optimizer.position o' = Optimizer.zero3 /\
       Optimizer.rotation o' = Optimizer.zero3 /\
       Optimizer.scale o' = Optimizer.one3 /\
       Optimizer.visible o' = true).
Proof.
  split; [apply runPoolOps_bounded; exact Hs|].
  split; [intros; apply runPoolOps_bounded, constructed_bounded|].
  split.
  - intros name object pool E Hl. apply (returnToPool_full name object s pool E). lia.
  - intros name object pool o E Hl Ho s'.
    destruct (returnToPool_adds name object s pool o E Hl Ho) as [H1 H2].
    split; [exact H1|].
    exists (Optimizer.resetObject o). split; [exact H2|].
    repeat split.
Qed.

Lemma pools_bounded_witness :
  let s := Optimizer.fullPoolState in
  let ops := [Optimizer.ReturnToPool "temporary" 2%nat;
              Optimizer.GetFromPool "temporary";
              Optimizer.ReturnToPool "particles" 2%nat;
              Optimizer.ReturnToPool "temporary" 3%nat;
              Optimizer.ReturnToPool "temporary" 3%nat] in
  Optimizer.poolsBounded s /\
  Optimizer.poolsBounded (Optimizer.runPoolOps ops s) /\
  Optimizer.returnToPool "temporary" 2%nat s = s /\
  Optimizer.objectPools (Optimizer.returnToPool "particles" 2%nat s) !! "particles"
    = Some [2%nat].
Proof.
  intros s ops.
  assert (Hs : Optimizer.poolsBounded s).
  { intros name pool H. unfold s, Optimizer.fullPoolState in H. simpl in H.
    apply lookup_insert_Some in H. destruct H as [[_ <-]|[_ H]].
    - simpl. lia.
    - apply lookup_insert_Some in H. destruct H as [[_ <-]|[_ H]]; [simpl; lia|].
      apply lookup_insert_Some in H. destruct H as [[_ <-]|[_ H]]; [simpl; lia|].
      rewrite lookup_empty in H. discriminate. }
  destruct (pools_bounded ops s Hs) as (H1 & _ & H3 & H4).
  split; [exact Hs|]. split; [exact H1|]. split.
  - apply (H3 "temporary" 2%nat (repeat 1%nat 100)); [reflexivity | apply repeat_length].
  - destruct (H4 "particles" 2%nat []
                (Optimizer.sampleObject Optimizer.KMesh
                   (Some Optimizer.mergedGeometry) 500 true)) as [H _].
    + reflexivity.
    + simpl. lia.
    + reflexivity.
    + exact H.
Defined.

(** ** Scene traversals (js/performance-optimizer.js) *)

Section Traversal.

Import Optimizer.

(** A traversal whose callback rewrites the visited object by an idempotent
    function rewrites exactly the visited objects, once. *)
Lemma fold_alter_lookup (f : Object3D -> Object3D) (l : list uuid) :
  (forall o, f (f o) = f o) ->
  forall (h : gmap uuid Object3D) (i : uuid),
    fold_left (fun h' j => alter f j h') l h !! i =
      if decide (i ∈ l) then f <$> h !! i else h !! i.
Proof.
  intros Hf. induction l as [|j l IH]; intros h i; simpl.
  - destruct (decide (i ∈ [])) as [Hin|_]; [|reflexivity].
    apply elem_of_nil in Hin. contradiction.
  - rewrite IH. destruct (decide (i = j)) as [->|Hne].
    + rewrite lookup_alter_eq.
      destruct (decide (j ∈ j :: l)) as [_|Hn]; [|exfalso; apply Hn; left].
      destruct (decide (j ∈ l)); [|reflexivity].
      destruct (h !! j); simpl; [|reflexivity]. rewrite Hf. reflexivity.
    + rewrite lookup_alter_ne by congruence.
      destruct (decide (i ∈ l)) as [Hin|Hin];
        destruct (decide (i ∈ j :: l)) as [Hin'|Hin']; try reflexivity.
      * exfalso. apply Hin'. right. exact Hin.
      * exfalso. apply elem_of_cons in Hin'. destruct Hin'; [congruence|contradiction].
Qed.

Lemma restoreObject_idem (o : Object3D) : restoreObject (restoreObject o) = restoreObject o.
Proof.
  unfold restoreObject. destruct (originallyVisible (userData o)) eqn:E; simpl.
  - rewrite E. reflexivity.
  - rewrite E. reflexivity.
Qed.

Lemma restoreVisibility_lookup (s : PerformanceOptimizer) (i : uuid) :
  objects (store (restoreVisibility s)) !! i =
    if decide (i ∈ preorder (scene s))
    then restoreObject <$> objects (store s) !! i
    else objects (store s) !! i.
Proof.
  unfold restoreVisibility. simpl.
  apply fold_alter_lookup. apply restoreObject_idem.
Qed.

End Traversal.

(** C9. Switching culling off restores, for every object of the scene
    graph whose [originallyVisible] flag was captured, the [visible] flag to
    the captured value and changes nothing else; objects without a captured
    flag, in the scene or not, are left as they are. *)
Theorem toggle_culling_off_restores (s : Optimizer.PerformanceOptimizer)
    (i : Optimizer.uuid) (o : Optimizer.Object3D)
    (Ho : Optimizer.objects (Optimizer.store s) !! i = Some o) :
  let s' := Optimizer.toggleOptimization "culling" false s in
  Optimizer.frustumCullingEnabled s' = false /\
  Optimizer.scene s' = Optimizer.scene s /\
  (forall b, i ∈ Optimizer.preorder (Optimizer.scene s) ->
     Optimizer.originallyVisible (Optimizer.userData o) = Some b ->
     Optimizer.objects (Optimizer.store s') !! i = Some (Optimizer.set_visible b o)) /\
  (Optimizer.originallyVisible (Optimizer.userData o) = None ->
     Optimizer.objects (Optimizer.store s') !! i = Some o) /\
  (i ∉ Optimizer.preorder (Optimizer.scene s) ->
     Optimizer.objects (Optimizer.store s') !! i = Some o).
Proof.
  intros s'.
  assert (E : Optimizer.objects (Optimizer.store s') !! i =
              if decide (i ∈ Optimizer.preorder (Optimizer.scene s))
              then Optimizer.restoreObject <$> Optimizer.objects (Optimizer.store s) !! i
              else Optimizer.objects (Optimizer.store s) !! i).
  { unfold s'.
    change (Optimizer.toggleOptimization "culling" false s)
      with (Optimizer.restoreVisibility (Optimizer.set_frustumCullingEnabled false s)).
    apply (restoreVisibility_lookup (Optimizer.set_frustumCullingEnabled false s) i). }
  split; [reflexivity|]. split; [reflexivity|].
  clearbody s'. rewrite Ho in E. simpl in E.
  split; [|split].
  - intros b Hin Hb. rewrite E. destruct (decide _); [|contradiction].
    unfold Optimizer.restoreObject. rewrite Hb. reflexivity.
  - intros Hn. rewrite E. destruct (decide _); [|reflexivity].
    unfold Optimizer.restoreObject. rewrite Hn. reflexivity.
  - intros Hn. rewrite E. destruct (decide _); [contradiction|reflexivity].
Qed.

(** ** Frustum culling (js/performance-optimizer.js) *)

Section Culling.

Import Optimizer.

Context {L : RenderLibrary}.

(** What the traversal callback makes of one object. *)
Local Abbreviation culled cam o := (fst (cullObject cam o)).

Lemma cullObject_skipped (cam : CameraT) (o : Object3D) :
  snd (cullObject cam o) = None -> culled cam o = o.
Proof.
  unfold cullObject. destruct (isMesh o || isSprite o); [|reflexivity].
  destruct (geometry o); [discriminate|reflexivity].
Qed.

Lemma cullObject_counted (cam : CameraT) (o : Object3D) (g : Geometry) :
  isMesh o || isSprite o = true -> geometry o = Some g ->
  exists sp, worldSphere o = Some sp /\
    snd (cullObject cam o) = Some (intersectsSphere cam sp) /\
    visible (culled cam o) = intersectsSphere cam sp && captured o /\
    originallyVisible (userData (culled cam o)) = Some (captured o) /\
    kind (culled cam o) = kind o /\
    worldSphere (culled cam o) = Some sp /\
    captured (culled cam o) = captured o.
Proof.
  intros Hk Hg. unfold cullObject, worldSphere, captured. rewrite Hk, Hg. simpl.
  eexists. split; [reflexivity|]. repeat split.
Qed.

Lemma cullObject_idem (cam : CameraT) (o : Object3D) :
  culled cam (culled cam o) = culled cam o.
Proof.
  unfold cullObject. destruct (isMesh o || isSprite o) eqn:Hk.
  - destruct (geometry o) as [g|] eqn:Hg; simpl.
    + unfold isMesh, isSprite in *. simpl. rewrite Hk. simpl. reflexivity.
    + rewrite Hk, Hg. reflexivity.
  - simpl. rewrite Hk. reflexivity.
Qed.

Lemma cullStep_lookup (cam : CameraT) (h : gmap uuid Object3D) (cnt : nat * nat)
    (j i : uuid) :
  fst (cullStep cam (h, cnt) j) !! i =
    if decide (i = j) then (fun o => culled cam o) <$> h !! i else h !! i.
Proof.
  unfold cullStep. destruct cnt as [v c].
  destruct (h !! j) as [o|] eqn:Ho.
  - destruct (cullObject cam o) as [o' [[|]|]] eqn:Ec; simpl.
    + destruct (decide (i = j)) as [->|Hne].
      * rewrite lookup_insert_eq, Ho. simpl. rewrite Ec. reflexivity.
      * rewrite lookup_insert_ne by congruence. reflexivity.
    + destruct (decide (i = j)) as [->|Hne].
      * rewrite lookup_insert_eq, Ho. simpl. rewrite Ec. reflexivity.
      * rewrite lookup_insert_ne by congruence. reflexivity.
    + destruct (decide (i = j)) as [->|Hne]; [|reflexivity].
      rewrite Ho. simpl. rewrite cullObject_skipped; [reflexivity|].
      rewrite Ec. reflexivity.
  - simpl. destruct (decide (i = j)) as [->|Hne]; [|reflexivity].
    rewrite Ho. reflexivity.
Qed.

Lemma fold_cull_lookup (cam : CameraT) (l : list uuid) :
  forall (h : gmap uuid Object3D) (cnt : nat * nat) (i : uuid),
    fst (fold_left (cullStep cam) l (h, cnt)) !! i =
      if decide (i ∈ l) then (fun o => culled cam o) <$> h !! i else h !! i.
Proof.
  induction l as [|j l IH]; intros h cnt i.
  - simpl. destruct (decide (i ∈ [])) as [Hin|_]; [|reflexivity].
    apply elem_of_nil in Hin. contradiction.
  - change (fold_left (cullStep cam) (j :: l) (h, cnt))
      with (fold_left (cullStep cam) l (cullStep cam (h, cnt) j)).
    destruct (cullStep cam (h, cnt) j) as [h1 cnt1] eqn:Es.
    rewrite IH.
    pose proof (cullStep_lookup cam h cnt j i) as E1. rewrite Es in E1. simpl in E1.
    rewrite E1.
    destruct (decide (i = j)) as [->|Hne].
    + destruct (decide (j ∈ j :: l)) as [_|Hn]; [|exfalso; apply Hn; left].
      destruct (decide (j ∈ l)); [|reflexivity].
      destruct (h !! j); simpl; [|reflexivity]. rewrite cullObject_idem. reflexivity.
    + destruct (decide (i ∈ l)) as [Hin|Hin];
        destruct (decide (i ∈ j :: l)) as [Hin'|Hin']; try reflexivity.
      * exfalso. apply Hin'. right. exact Hin.
      * exfalso. apply elem_of_cons in Hin'. destruct Hin'; [congruence|contradiction].
Qed.

Lemma updateFrustumCulling_lookup (cam : CameraT) (s : PerformanceOptimizer) (i : uuid) :
  objects (store (updateFrustumCulling cam s)) !! i =
    if decide (i ∈ preorder (scene s))
    then (fun o => culled cam o) <$> objects (store s) !! i
    else objects (store s) !! i.
Proof.
  unfold updateFrustumCulling.
  pose proof (fold_cull_lookup cam (preorder (scene s)) (objects (store s)) (0, 0)%nat i) as E.
  destruct (fold_left (cullStep cam) (preorder (scene s)) (objects (store s), (0, 0)%nat))
    as [h [v c]].
  simpl in *. exact E.
Qed.

Lemma updateFrustumCulling_scene (cam : CameraT) (s : PerformanceOptimizer) :
  scene (updateFrustumCulling cam s) = scene s.
Proof.
  unfold updateFrustumCulling.
  destruct (fold_left (cullStep cam) (preorder (scene s)) (objects (store s), (0, 0)%nat))
    as [h [v c]].
  reflexivity.
Qed.

(** After any number of earlier passes and a last pass with camera [cam],
    a cullable object of the scene shows [intersects && captured]. *)
Lemma cullPasses_visible (cams : list CameraT) (cam : CameraT) :
  forall (s : PerformanceOptimizer) (i : uuid) (o : Object3D) (g : Geometry) (sp : Sphere),
    objects (store s) !! i = Some o ->
    i ∈ preorder (scene s) ->
    isMesh o || isSprite o = true -> geometry o = Some g ->
    worldSphere o = Some sp ->
    exists o', objects (store (cullPasses (cams ++ [cam]) s)) !! i = Some o' /\
      visible o' = intersectsSphere cam sp && captured o /\
      originallyVisible (userData o') = Some (captured o).
Proof.
  induction cams as [|c cams IH]; intros s i o g sp Ho Hin Hk Hg Hsp.
  - simpl. unfold cullPasses. simpl.
    rewrite updateFrustumCulling_lookup. destruct (decide _); [|contradiction].
    rewrite Ho. simpl. eexists. split; [reflexivity|].
    destruct (cullObject_counted cam o g Hk Hg) as (sp' & Hsp' & _ & Hv & Hov & _).
    rewrite Hsp in Hsp'. injection Hsp' as <-. split; assumption.
  - change (cullPasses ((c :: cams) ++ [cam]) s)
      with (cullPasses (cams ++ [cam]) (updateFrustumCulling c s)).
    destruct (cullObject_counted c o g Hk Hg) as (sp' & Hsp' & _ & _ & _ & Hkind & Hws & Hcap).
    rewrite Hsp in Hsp'. injection Hsp' as <-.
    assert (Hg' : exists g', geometry (culled c o) = Some g').
    { unfold worldSphere in Hws. destruct (geometry (culled c o)); [eauto|discriminate]. }
    destruct Hg' as [g' Hg'].
    destruct (IH (updateFrustumCulling c s) i (culled c o) g' sp) as (o' & Ho' & Hv & Hov).
    + rewrite updateFrustumCulling_lookup. destruct (decide _); [|contradiction].
      rewrite Ho. reflexivity.
    + rewrite updateFrustumCulling_scene. exact Hin.
    + unfold isMesh, isSprite in *. rewrite Hkind. exact Hk.
    + exact Hg'.
    + exact Hws.
    + exists o'. rewrite Hcap in Hv, Hov. auto.
Qed.

End Culling.

(** C6. For an object of the scene graph that is a mesh or a sprite and
    has a geometry, after any number of culling passes the visible flag is
    the frustum test of the last pass AND the originally-visible flag, which
    is the flag already captured or else the visible flag at the first pass
    and is still stored after the last one; so a sphere outside the frustum
    gives not-visible, and an originally invisible object stays invisible. *)
Theorem frustum_culling_visibility {L : Optimizer.RenderLibrary}
    (cams : list Optimizer.CameraT) (cam : Optimizer.CameraT)
    (s : Optimizer.PerformanceOptimizer) (i : Optimizer.uuid)
    (o : Optimizer.Object3D) (g : Optimizer.Geometry)
    (Ho : Optimizer.objects (Optimizer.store s) !! i = Some o)
    (Hin : i ∈ Optimizer.preorder (Optimizer.scene s))
    (Hk : Optimizer.isMesh o || Optimizer.isSprite o = true)
    (Hg : Optimizer.geometry o = Some g) :
  exists sp o',
    Optimizer.worldSphere o = Some sp /\
    Optimizer.objects (Optimizer.store (Optimizer.cullPasses (cams ++ [cam]) s)) !! i
      = Some o' /\
    Optimizer.visible o' = Optimizer.intersectsSphere cam sp && Optimizer.captured o /\
    Optimizer.originallyVisible (Optimizer.userData o') = Some (Optimizer.captured o) /\
    (Optimizer.originallyVisible (Optimizer.userData o) = None ->
       Optimizer.captured o = Optimizer.visible o) /\
    (Optimizer.intersectsSphere cam sp = false -> Optimizer.visible o' = false) /\
    (Optimizer.captured o = false -> Optimizer.visible o' = false).
Proof.
  destruct (cullObject_counted cam o g Hk Hg) as (sp & Hsp & _).
  destruct (cullPasses_visible cams cam s i o g sp Ho Hin Hk Hg Hsp) as (o' & Ho' & Hv & Hov).
  exists sp, o'. repeat split; try assumption.
  - intros Hn. unfold Optimizer.captured. rewrite Hn. reflexivity.
  - intros Hf. rewrite Hv, Hf. reflexivity.
  - intros Hc. rewrite Hv, Hc. apply andb_false_r.
Qed.

Lemma frustum_culling_visibility_witness :
  let s := Optimizer.sampleOptimizer 60 1 in
  let after := @Optimizer.cullPasses Optimizer.lineLibrary [(0, 1000); (0, 100)] s in
  Optimizer.visible <$> (Optimizer.objects (Optimizer.store after) !! 2%nat) = Some false /\
  (Optimizer.userData <$> (Optimizer.objects (Optimizer.store after) !! 2%nat))
     ≫= Optimizer.originallyVisible = Some true.
Proof.
  intros s after.
  destruct (@frustum_culling_visibility Optimizer.lineLibrary [(0, 1000)] (0, 100) s 2%nat
              (Optimizer.sampleObject Optimizer.KMesh (Some Optimizer.mergedGeometry) 500 true)
              Optimizer.mergedGeometry)
    as (sp & o' & Hsp & Ho' & Hv & Hov & _).
  - reflexivity.
  - unfold s. simpl. set_solver.
  - reflexivity.
  - reflexivity.
  - assert (E : Optimizer.objects (Optimizer.store after) !! 2%nat = Some o') by exact Ho'.
    rewrite E. simpl.
    injection Hsp as <-. split.
    + rewrite Hv. vm_compute. reflexivity.
    + rewrite Hov. reflexivity.
Defined.

Lemma toggle_culling_off_restores_witness :
  let s := Optimizer.culledSample in
  Optimizer.visible <$> (Optimizer.objects (Optimizer.store s) !! 2%nat) = Some false /\
  Optimizer.visible <$>
    (Optimizer.objects (Optimizer.store (Optimizer.toggleOptimization "culling" false s))
       !! 2%nat) = Some true.
Proof.
  intros s.
  set (o := default (Optimizer.sampleObject Optimizer.KOther None 0 true)
              (Optimizer.objects (Optimizer.store s) !! 2%nat)).
  assert (Ho : Optimizer.objects (Optimizer.store s) !! 2%nat = Some o)
    by (vm_compute; reflexivity).
  pose proof (toggle_culling_off_restores s 2%nat o Ho) as H. cbv zeta in H.
  destruct H as (_ & _ & Hrest & _).
  assert (Hin : 2%nat ∈ Optimizer.preorder (Optimizer.scene s)).
  { unfold s. vm_compute. set_solver. }
  assert (Hb : Optimizer.originallyVisible (Optimizer.userData o) = Some true)
    by (vm_compute; reflexivity).
  pose proof (Hrest true Hin Hb) as E.
  split.
  - vm_compute. reflexivity.
  - exact (f_equal (fun x => Optimizer.visible <$> x) E).
Defined.

(** ** Reduced detail (js/performance-optimizer.js) *)

Section ReducedDetail.

Import Optimizer.

Lemma Tree_ind_strong (P : Tree -> Prop) :
  (forall j ks, Forall P ks -> P (T j ks)) -> forall t, P t.
Proof.
  intros H. fix ind 1. intros [j ks]. apply H.
  induction ks as [|k ks IH]; constructor; [apply ind | exact IH].
Qed.

Lemma cloneTree_root (t : Tree) (st : Store) :
  root (fst (cloneTree t st)) = nextId st /\
  forall o, objects st !! root t = Some o ->
    exists ls, objects (snd (cloneTree t st)) !! nextId st = Some (set_levels ls o).
Proof.
  destruct t as [i ks]. simpl.
  match goal with
  | |- context [let '(a, b) := ?e in _] => destruct e as [ks' st1]
  end.
  simpl. split; [reflexivity|].
  intros o Ho. rewrite Ho. simpl. eexists. apply lookup_insert_eq.
Qed.

Lemma createReducedDetail_null (object : uuid) (detailLevel : Q) (scene : Tree) (st : Store) :
  fst (createReducedDetail object detailLevel scene st) = None <->
  match objects st !! object with
  | Some o => isMesh o = false \/ geometry o = None \/ exists ms, material o = MaterialArray ms
  | None => True
  end.
Proof.
  unfold createReducedDetail.
  destruct (objects st !! object) as [o|]; [|simpl; tauto].
  destruct (isMesh o); simpl.
  - destruct (geometry o) as [g|]; simpl.
    + destruct (cloneTree (objectTree object scene) st) as [reduced st1].
      destruct (material o) as [|m|ms]; simpl.
      * split; [discriminate|]. intros [H|[H|[ms H]]]; discriminate.
      * split; [discriminate|]. intros [H|[H|[ms H]]]; discriminate.
      * split; [|reflexivity]. intros _. right; right. eexists. reflexivity.
    + tauto.
  - tauto.
Qed.

(** The material of the reduced object. *)
Local Abbreviation simplified detailLevel slot :=
  (match slot with
   | OneMaterial m => OneMaterial (simplifyMaterial detailLevel m)
   | other => other
   end).

Lemma createReducedDetail_plain (object : uuid) (detailLevel : Q) (scene : Tree) (st : Store)
    (o : Object3D) (g : Geometry) :
  objects st !! object = Some o -> isMesh o = true ->
  geometry o = Some g -> parameters g = None ->
  (forall ms, material o <> MaterialArray ms) ->
  exists reduced st' r,
    createReducedDetail object detailLevel scene st = (Some reduced, st') /\
    objects st' !! root reduced = Some r /\
    isMesh r = true /\ geometry r = Some g /\
    material r = simplified detailLevel (material o).
Proof.
  intros Ho Hm Hg Hp Hmat. unfold createReducedDetail. rewrite Ho, Hm, Hg. simpl.
  assert (Hroot : root (objectTree object scene) = object).
  { unfold objectTree. destruct (subtree object scene) as [t|] eqn:Es; [|reflexivity].
    clear -Es. revert t Es.
    induction scene as [j ks IH] using Tree_ind_strong.
    intros t Es. simpl in Es.
    destruct (Nat.eqb object j) eqn:Ej.
    - injection Es as <-. simpl. apply Nat.eqb_eq in Ej. congruence.
    - clear Ej. revert t Es.
      induction IH as [|k ks Hk Hks IHks]; intros t Es; [discriminate|].
      destruct (subtree object k) as [r|] eqn:Ek.
      + injection Es as <-. apply Hk. reflexivity.
      + apply IHks. exact Es. }
  destruct (cloneTree_root (objectTree object scene) st) as [Hr Hl].
  rewrite Hroot in Hl. destruct (Hl o Ho) as [ls Hls].
  destruct (cloneTree (objectTree object scene) st) as [reduced st1]. simpl in *.
  destruct (material o) as [|m|ms] eqn:Em; [| |exfalso; apply (Hmat ms); reflexivity].
  - eexists _, _, _. split; [reflexivity|]. simpl.
    rewrite Hr. rewrite lookup_alter_eq, lookup_alter_eq, Hls. simpl.
    rewrite Hg, Hp. split; [reflexivity|]. simpl. rewrite Em. auto.
  - eexists _, _, _. split; [reflexivity|]. simpl.
    rewrite Hr. rewrite lookup_alter_eq, lookup_alter_eq, Hls. simpl.
    rewrite Hg, Hp. split; [reflexivity|]. simpl. rewrite Em. auto.
Qed.

End ReducedDetail.

(** C7 (amended). For a mesh whose geometry carries no parameters record
    and whose material is one material or none, the reduced-detail
    construction returns a new mesh that keeps the geometry as it is and
    carries the simplified copy of the material.  It returns nothing when
    the input is not a mesh, when it has no geometry, and when its material
    is an array, whose missing [clone] raises an error that the function
    catches. *)
Theorem createReducedDetail_without_parameters
    (object : Optimizer.uuid) (detailLevel : Q) (scene : Optimizer.Tree)
    (st : Optimizer.Store) (o : Optimizer.Object3D)
    (Ho : Optimizer.objects st !! object = Some o) :
  (forall g,
     Optimizer.isMesh o = true ->
     Optimizer.geometry o = Some g -> Optimizer.parameters g = None ->
     (forall ms, Optimizer.material o <> Optimizer.MaterialArray ms) ->
     exists reduced st' r,
       Optimizer.createReducedDetail object detailLevel scene st = (Some reduced, st') /\
       Optimizer.objects st' !! Optimizer.root reduced = Some r /\
       Optimizer.isMesh r = true /\ Optimizer.geometry r = Some g /\
       Optimizer.material r =
         match Optimizer.material o with
         | Optimizer.OneMaterial m =>
             Optimizer.OneMaterial (Optimizer.simplifyMaterial detailLevel m)
         | other => other
         end) /\
  (Optimizer.isMesh o = false \/ Optimizer.geometry o = None \/
   (exists ms, Optimizer.material o = Optimizer.MaterialArray ms) ->
   Optimizer.createReducedDetail object detailLevel scene st = (None, st)).
Proof.
  split.
  - intros g Hm Hg Hp Hmat.
    apply (createReducedDetail_plain object detailLevel scene st o g Ho Hm Hg Hp Hmat).
  - intros H. unfold Optimizer.createReducedDetail. rewrite Ho.
    destruct (Optimizer.isMesh o) eqn:Em; [|reflexivity]. simpl.
    destruct (Optimizer.geometry o) as [g|] eqn:Eg; [|reflexivity].
    destruct H as [H|[H|[ms H]]]; [discriminate | discriminate |].
    destruct (Optimizer.cloneTree (Optimizer.objectTree object scene) st) as [reduced st1].
    rewrite H. reflexivity.
Qed.

Lemma createReducedDetail_without_parameters_witness :
  (exists reduced st',
     Optimizer.createReducedDetail 2%nat 0.6 Optimizer.sampleScene Optimizer.sampleStore
       = (Some reduced, st') /\
     Optimizer.geometry <$> (Optimizer.objects st' !! Optimizer.root reduced)
       = Some (Some Optimizer.mergedGeometry)) /\
  Optimizer.createReducedDetail 0%nat 0.6 Optimizer.sampleScene Optimizer.sampleStore
    = (None, Optimizer.sampleStore) /\
  (let st := Optimizer.modify 2%nat
               (Optimizer.set_material
                  (Optimizer.MaterialArray [Optimizer.sampleMaterial; Optimizer.sampleMaterial]))
               Optimizer.sampleStore in
   Optimizer.createReducedDetail 2%nat 0.6 Optimizer.sampleScene st = (None, st)).
Proof.
  split; [|split].
  - destruct (createReducedDetail_without_parameters 2%nat 0.6
                Optimizer.sampleScene Optimizer.sampleStore
                (Optimizer.sampleObject Optimizer.KMesh (Some Optimizer.mergedGeometry) 500 true)
                eq_refl) as [H _].
    destruct (H Optimizer.mergedGeometry eq_refl eq_refl eq_refl)
      as (reduced & st' & r & E & Hr & _ & Hg & _); [intros ms; discriminate|].
    exists reduced, st'. split; [exact E|].
    exact (eq_trans (f_equal (fun x => Optimizer.geometry <$> x) Hr) (f_equal Some Hg)).
  - destruct (createReducedDetail_without_parameters 0%nat 0.6
                Optimizer.sampleScene Optimizer.sampleStore
                (Optimizer.sampleObject Optimizer.KOther None 0 true) eq_refl) as [_ H].
    apply H. left. reflexivity.
  - intros st.
    destruct (createReducedDetail_without_parameters 2%nat 0.6 Optimizer.sampleScene st
                (Optimizer.set_material
                   (Optimizer.MaterialArray
                      [Optimizer.sampleMaterial; Optimizer.sampleMaterial])
                   (Optimizer.sampleObject Optimizer.KMesh
                      (Some Optimizer.mergedGeometry) 500 true))
                eq_refl) as [_ H].
    apply H. right; right. eexists. reflexivity.
Defined.

(** C7, counterexample. Mesh 2 of the sample scene has a geometry without
    a parameters record, and the reduced-detail construction returns an
    object for it. *)
Lemma createReducedDetail_returns_clone :
  (Optimizer.geometry <$> (Optimizer.objects Optimizer.sampleStore !! 2%nat))
    = Some (Some Optimizer.mergedGeometry) /\
  Optimizer.parameters Optimizer.mergedGeometry = None /\
  fst (Optimizer.createReducedDetail 2%nat 0.6 Optimizer.sampleScene Optimizer.sampleStore)
    <> None.
Proof.
  split; [reflexivity|]. split; [reflexivity|].
  vm_compute. discriminate.
Qed.

(** ** Registration (js/performance-optimizer.js) *)

Section Registration.

Import Optimizer.

Context {L : RenderLibrary}.

Lemma createLODForObject_registered (object : uuid) (s : PerformanceOptimizer) :
  is_Some (lodObjects s !! object) -> createLODForObject object s = Some s.
Proof.
  intros Hr. unfold createLODForObject.
  destruct (objects (store s) !! object) as [o|]; [|reflexivity].
  rewrite (bool_decide_eq_true_2 _ Hr), orb_true_r. reflexivity.
Qed.

Lemma createLODForObject_registers (object : uuid) (s s' : PerformanceOptimizer) :
  createLODForObject object s = Some s' ->
  s' = s \/ is_Some (lodObjects s' !! object).
Proof.
  unfold createLODForObject. intros H.
  destruct (objects (store s) !! object) as [o|]; [|left; congruence].
  destruct (negb (isMesh o) || bool_decide (is_Some (lodObjects s !! object)));
    [left; congruence|].
  repeat match type of H with
         | context [let '(a, b) := ?e in _] => destruct e as [? ?]
         end.
  destruct (createImpostor _ _) as [[? ?]|]; [|discriminate].
  destruct (parentOf object (scene s)); [|discriminate].
  injection H as <-. right. simpl. rewrite lookup_insert_eq. eauto.
Qed.

Lemma createLODForObject_mesh (object : uuid) (s s' : PerformanceOptimizer) (o : Object3D) :
  objects (store s) !! object = Some o -> isMesh o = true ->
  createLODForObject object s = Some s' ->
  is_Some (lodObjects s' !! object).
Proof.
  intros Ho Hm H.
  destruct (lodObjects s !! object) as [l|] eqn:El.
  - rewrite createLODForObject_registered in H by (rewrite El; eauto).
    injection H as <-. rewrite El. eauto.
  - revert H. unfold createLODForObject. rewrite Ho, Hm, El. simpl.
    intros H.
    repeat match type of H with
           | context [let '(a, b) := ?e in _] => destruct e as [? ?]
           end.
    destruct (createImpostor _ _) as [[? ?]|]; [|discriminate].
    destruct (parentOf object (scene s)); [|discriminate].
    injection H as <-. simpl. rewrite lookup_insert_eq. eauto.
Qed.

End Registration.

(** C8. Registration is idempotent: for an object that is already in the
    registry the call returns the state unchanged, registry and scene
    included; and after any call that returns, a second call for the same
    object changes nothing, the object, if it is a mesh, being then in the
    registry. *)
Theorem createLODForObject_idempotent {L : Optimizer.RenderLibrary}
    (object : Optimizer.uuid) (s : Optimizer.PerformanceOptimizer) :
  (is_Some (Optimizer.lodObjects s !! object) ->
     Optimizer.createLODForObject object s = Some s) /\
  (forall s', Optimizer.createLODForObject object s = Some s' ->
     Optimizer.createLODForObject object s' = Some s' /\
     (forall o, Optimizer.objects (Optimizer.store s) !! object = Some o ->
                Optimizer.isMesh o = true ->
                is_Some (Optimizer.lodObjects s' !! object))).
Proof.
  split; [apply createLODForObject_registered|].
  intros s' H. split.
  - destruct (createLODForObject_registers object s s' H) as [->|Hr].
    + exact H.
    + apply createLODForObject_registered. exact Hr.
  - intros o Ho Hm. apply (createLODForObject_mesh object s s' o Ho Hm H).
Qed.

Lemma createLODForObject_idempotent_witness :
  exists s',
    @Optimizer.createLODForObject Optimizer.lineLibrary 1%nat (Optimizer.sampleOptimizer 60 1)
      = Some s' /\
    @Optimizer.createLODForObject Optimizer.lineLibrary 1%nat s' = Some s' /\
    is_Some (Optimizer.lodObjects s' !! 1%nat).
Proof.
  destruct (@Optimizer.createLODForObject Optimizer.lineLibrary 1%nat
              (Optimizer.sampleOptimizer 60 1)) as [s'|] eqn:E;
    [|vm_compute in E; discriminate].
  exists s'.
  destruct (@createLODForObject_idempotent Optimizer.lineLibrary 1%nat
              (Optimizer.sampleOptimizer 60 1)) as [_ H].
  destruct (H s' E) as [H1 H2].
  split; [reflexivity|]. split; [exact H1|].
  apply (H2 (Optimizer.sampleObject Optimizer.KMesh (Some Optimizer.sphereGeometry) 0 true));
    reflexivity.
Defined.

(** ** Thresholds and the selector (js/performance-optimizer.js) *)

Section Thresholds.

Import Optimizer.

Context {L : RenderLibrary}.

Lemma adaptiveQuality_store (s : PerformanceOptimizer) :
  store (adaptiveQuality s) = store s /\ lodObjects (adaptiveQuality s) = lodObjects s /\
  scene (adaptiveQuality s) = scene s.
Proof.
  unfold adaptiveQuality.
  repeat match goal with |- context [if ?b then _ else _] => destruct b end; auto.
Qed.

Lemma updateLOD_ignores_thresholds (camera : CameraT) (s : PerformanceOptimizer) :
  store (updateLOD camera (adaptiveQuality s)) = store (updateLOD camera s).
Proof.
  destruct (adaptiveQuality_store s) as (Hs & Hl & _).
  unfold updateLOD. simpl. rewrite Hs, Hl. reflexivity.
Qed.

End Thresholds.

(** C2, evaluation. Whatever the state and the camera, the LOD evaluation
    that follows a threshold change by the quality controller computes the
    same objects as without the change.  In the sample scene, mesh 1 is
    registered under [50, 150, 300]; at a mean frame rate of 20 the
    thresholds become [30, 80, 150]; the camera is 40 away.  The update
    keeps level 0, the full-detail object, visible and the medium level
    hidden, while the same object registered under [30, 80, 150] shows the
    medium level. *)
Theorem lod_thresholds_fixed_at_registration :
  (forall (L : Optimizer.RenderLibrary) (camera : Optimizer.CameraT)
          (s : Optimizer.PerformanceOptimizer),
     Optimizer.store (Optimizer.updateLOD camera (Optimizer.adaptiveQuality s))
       = Optimizer.store (Optimizer.updateLOD camera s)) /\
  (let registered :=
     @Optimizer.createLODForObject Optimizer.lineLibrary 1%nat
       (Optimizer.sampleOptimizer 20 1) in
   let latest :=
     @Optimizer.createLODForObject Optimizer.lineLibrary 1%nat
       (Optimizer.set_lodDistances [30; 80; 150] (Optimizer.sampleOptimizer 20 1)) in
   let evaluate := fun s : Optimizer.PerformanceOptimizer =>
     let s' := @Optimizer.updateLOD Optimizer.lineLibrary (40, 100)
                 (Optimizer.adaptiveQuality s) in
     (Optimizer.lodDistances s',
      Optimizer.currentLevel <$> (Optimizer.objects (Optimizer.store s') !! 4%nat),
      map (fun i => Optimizer.visible <$> (Optimizer.objects (Optimizer.store s') !! i))
          [5; 6; 7; 8]%nat) in
   evaluate <$> registered =
     Some ([30; 80; 150], Some 0%nat, [Some true; Some false; Some false; Some false]) /\
   evaluate <$> latest =
     Some ([30; 80; 150], Some 1%nat, [Some false; Some true; Some false; Some false])).
Proof.
  split.
  - intros L camera s. apply updateLOD_ignores_thresholds.
  - split; vm_compute; reflexivity.
Qed.

(** * Further properties of the code *)

(** ** Height grid generation (js/terrain.js) *)

(** Rounding keeps a value between two numbers of the format. *)
Lemma fl_between (lo hi x : Q) :
  Float.fl lo == lo -> Float.fl hi == hi -> lo <= x -> x <= hi ->
  lo <= Float.fl x /\ Float.fl x <= hi.
Proof.
  intros Hlo Hhi H1 H2. split.
  - rewrite <- Hlo. apply fl_mono. exact H1.
  - rewrite <- Hhi. apply fl_mono. exact H2.
Qed.

Section GridGeneration.

Variable Math_sin : Q -> Q.

Lemma noise_range (x y : Q) :
  -1 <= TerrainMesh.noise Math_sin x y /\ TerrainMesh.noise Math_sin x y <= 1.
Proof.
  unfold TerrainMesh.noise.
  set (n := Float.fl (Math_sin _ * _)).
  pose proof (Qfloor_le n) as Hlo. pose proof (Qlt_floor n) as Hhi.
  rewrite inject_Z_plus in Hhi. change (inject_Z 1) with 1 in Hhi.
  destruct (fl_between 0 1 (n - inject_Z (Qfloor n))) as [A1 A2];
    [vm_compute; reflexivity | vm_compute; reflexivity | lra | lra |].
  set (r := Float.fl (n - inject_Z (Qfloor n))) in *.
  destruct (fl_between 0 2 (2 * r)) as [B1 B2];
    [vm_compute; reflexivity | vm_compute; reflexivity | lra | lra |].
  apply fl_between; [vm_compute; reflexivity | vm_compute; reflexivity | lra | lra].
Qed.

Lemma sampleHeight_range (segments : Z) (heightScale : Q) (x z : Z) :
  0 <= heightScale ->
  - Float.fl (0.875 * heightScale)
    <= TerrainMesh.sampleHeight Math_sin segments heightScale x z /\
  TerrainMesh.sampleHeight Math_sin segments heightScale x z
    <= Float.fl (0.875 * heightScale).
Proof.
  intros Hs. unfold TerrainMesh.sampleHeight.
  set (nx := Float.fl (inject_Z x / inject_Z segments)).
  set (nz := Float.fl (inject_Z z / inject_Z segments)).
  destruct (noise_range (Float.fl (nx * 2)) (Float.fl (nz * 2))) as [A1 A2].
  destruct (noise_range (Float.fl (nx * 8)) (Float.fl (nz * 8))) as [B1 B2].
  destruct (noise_range (Float.fl (nx * 32)) (Float.fl (nz * 32))) as [C1 C2].
  generalize dependent (TerrainMesh.noise Math_sin (Float.fl (nx * 2)) (Float.fl (nz * 2))).
  intros a A1 A2.
  generalize dependent (TerrainMesh.noise Math_sin (Float.fl (nx * 8)) (Float.fl (nz * 8))).
  intros b B1 B2.
  generalize dependent (TerrainMesh.noise Math_sin (Float.fl (nx * 32)) (Float.fl (nz * 32))).
  intros c C1 C2.
  destruct (fl_between (-0.5) 0.5 (a * 0.5)) as [Ea1 Ea2];
    [vm_compute; reflexivity | vm_compute; reflexivity | lra | lra |].
  set (a' := Float.fl (a * 0.5)) in *.
  destruct (fl_between (-0.5) 0.5 (0 + a')) as [H11 H12];
    [vm_compute; reflexivity | vm_compute; reflexivity | lra | lra |].
  set (h1 := Float.fl (0 + a')) in *.
  destruct (fl_between (-0.25) 0.25 (b * 0.25)) as [Eb1 Eb2];
    [vm_compute; reflexivity | vm_compute; reflexivity | lra | lra |].
  set (b' := Float.fl (b * 0.25)) in *.
  destruct (fl_between (-0.75) 0.75 (h1 + b')) as [H21 H22];
    [vm_compute; reflexivity | vm_compute; reflexivity | lra | lra |].
  set (h2 := Float.fl (h1 + b')) in *.
  destruct (fl_between (-0.125) 0.125 (c * 0.125)) as [Ec1 Ec2];
    [vm_compute; reflexivity | vm_compute; reflexivity | lra | lra |].
  set (c' := Float.fl (c * 0.125)) in *.
  destruct (fl_between (-0.875) 0.875 (h2 + c')) as [H31 H32];
    [vm_compute; reflexivity | vm_compute; reflexivity | lra | lra |].
  set (h3 := Float.fl (h2 + c')) in *.
  split.
  - rewrite <- fl_opp. apply fl_mono. nra.
  - apply fl_mono. nra.
Qed.

Lemma upTo_length (n : Z) : length (TerrainMesh.upTo n) = Z.to_nat (n + 1).
Proof. unfold TerrainMesh.upTo. rewrite length_map, length_seq. reflexivity. Qed.

End GridGeneration.

Lemma getHeightAt_within (t : Terrain.TerrainGenerator) (lo hi x z : Q) :
  lo <= 0 -> 0 <= hi ->
  Forall (Forall (fun h => lo <= h /\ h <= hi)) (Terrain.heightData t) ->
  lo <= Terrain.getHeightAt t x z /\ Terrain.getHeightAt t x z <= hi.
Proof.
  intros Hlo Hhi Hall. unfold Terrain.getHeightAt.
  destruct (Nat.eqb _ _); [auto|].
  destruct (_ || _); [auto|].
  destruct (Terrain.heightData t !! _) as [row|] eqn:Er; [|auto].
  destruct (row !! _) as [h|] eqn:Eh; [|auto].
  pose proof (Forall_lookup_1 _ _ _ _ Hall Er) as Hrow.
  pose proof (Forall_lookup_1 _ _ _ _ Hrow Eh) as Hh.
  unfold orZero. destruct (Qeq_bool h 0); auto.
Qed.

(** X1. For a segment count above zero, a height scale that is not
    negative and a sine that stays within -1 and 1, the generated grid has
    segments + 1 rows of segments + 1 samples, every sample lies within the
    rounded product of 0.875 and the height scale of zero, and so does every
    answer of the height query on the generated terrain. *)
Theorem generateHeightData_grid (Math_sin : Q -> Q) (t : Terrain.TerrainGenerator)
    (Hsin : forall a, -1 <= Math_sin a /\ Math_sin a <= 1)
    (Hsegments : (0 < Terrain.segments t)%Z)
    (Hscale : 0 <= Terrain.heightScale t) :
  let t' := TerrainMesh.generateHeightData Math_sin t in
  let bound := Float.fl (0.875 * Terrain.heightScale t) in
  length (Terrain.heightData t') = Z.to_nat (Terrain.segments t + 1) /\
  Forall (fun row => length row = Z.to_nat (Terrain.segments t + 1))
         (Terrain.heightData t') /\
  Forall (Forall (fun h => - bound <= h /\ h <= bound)) (Terrain.heightData t') /\
  forall x z, - bound <= Terrain.getHeightAt t' x z /\ Terrain.getHeightAt t' x z <= bound.
Proof.
  intros t' bound.
  assert (Hb : 0 <= bound).
  { unfold bound. apply fl_nonneg. apply Qmult_le_0_compat; [discriminate | exact Hscale]. }
  assert (Hall : Forall (Forall (fun h => - bound <= h /\ h <= bound))
                        (Terrain.heightData t')).
  { unfold t', TerrainMesh.generateHeightData. simpl.
    apply Forall_map, Forall_forall. intros x _. simpl.
    apply Forall_map, Forall_forall. intros z _. simpl.
    apply sampleHeight_range. exact Hscale. }
  split; [|split; [|split]].
  - unfold t', TerrainMesh.generateHeightData. simpl.
    rewrite length_map. apply upTo_length.
  - unfold t', TerrainMesh.generateHeightData. simpl.
    apply Forall_map, Forall_forall. intros x _. simpl.
    rewrite length_map. apply upTo_length.
  - exact Hall.
  - intros x z. apply getHeightAt_within; [lra | exact Hb | exact Hall].
Qed.

Lemma generateHeightData_grid_witness :
  let sine := fun a : Q => if Qle_bool a 10 then 0.5 else -0.25 in
  let t' := TerrainMesh.generateHeightData sine
              {| Terrain.size := 1000; Terrain.segments := 4;
                 Terrain.heightScale := 50; Terrain.heightData := [] |} in
  length (Terrain.heightData t') = 5%nat /\
  - Float.fl (0.875 * 50) <= Terrain.getHeightAt t' 100 (-200) /\
  Terrain.getHeightAt t' 100 (-200) <= Float.fl (0.875 * 50).
Proof.
  intros sine t'.
  destruct (generateHeightData_grid sine
              {| Terrain.size := 1000; Terrain.segments := 4;
                 Terrain.heightScale := 50; Terrain.heightData := [] |})
    as (Hl & _ & _ & Hq).
  - intros a. unfold sine. destruct (Qle_bool a 10); split; vm_compute; discriminate.
  - reflexivity.
  - simpl. discriminate.
  - split; [exact Hl|]. exact (Hq 100 (-200)).
Defined.

(** ** Heights applied to the mesh (js/terrain.js) *)

Section MeshHeights.

Variable t : Terrain.TerrainGenerator.

Local Abbreviation newHeight x y z :=
  (match TerrainMesh.at_ (Terrain.heightData t) (Terrain.gridIndex t x) with
   | Some row => match TerrainMesh.at_ row (Terrain.gridIndex t z) with
                 | Some h => Float.fround h
                 | None => y
                 end
   | None => y
   end).

Lemma applyHeightToGeometry_length (vs : list Q) :
  length (TerrainMesh.applyHeightToGeometry t vs) = length vs.
Proof.
  revert vs. fix IH 1. intros [|a [|b [|c rest]]]; try reflexivity.
  simpl. rewrite IH. reflexivity.
Qed.

Lemma applyHeightToGeometry_vertex (k : nat) :
  forall (vs : list Q) (x y z : Q),
    vs !! (3 * k)%nat = Some x -> vs !! (3 * k + 1)%nat = Some y ->
    vs !! (3 * k + 2)%nat = Some z ->
    TerrainMesh.applyHeightToGeometry t vs !! (3 * k)%nat = Some x /\
    TerrainMesh.applyHeightToGeometry t vs !! (3 * k + 1)%nat = Some (newHeight x y z) /\
    TerrainMesh.applyHeightToGeometry t vs !! (3 * k + 2)%nat = Some z.
Proof.
  induction k as [|k IH]; intros vs x y z Hx Hy Hz.
  - destruct vs as [|a [|b [|c rest]]]; try discriminate.
    simpl in Hx, Hy, Hz. injection Hx as ->. injection Hy as ->. injection Hz as ->.
    change (TerrainMesh.applyHeightToGeometry t (x :: y :: z :: rest))
      with (x :: newHeight x y z :: z :: TerrainMesh.applyHeightToGeometry t rest).
    auto.
  - replace (3 * S k)%nat with (S (S (S (3 * k)))) in * by lia.
    destruct vs as [|a [|b [|c rest]]]; try discriminate.
    simpl in Hx, Hy, Hz.
    change (TerrainMesh.applyHeightToGeometry t (a :: b :: c :: rest))
      with (a :: newHeight a b c :: c :: TerrainMesh.applyHeightToGeometry t rest).
    simpl. apply IH; assumption.
Qed.

Lemma at_inside {A : Type} (l : list A) (i : Z) :
  (0 <= i)%Z -> TerrainMesh.at_ l i = l !! Z.to_nat i.
Proof.
  intros H. unfold TerrainMesh.at_.
  destruct (i <? 0)%Z eqn:E; [apply Z.ltb_lt in E; lia | reflexivity].
Qed.

Lemma orZero_eq (h : Q) : orZero h == h.
Proof.
  unfold orZero. destruct (Qeq_bool h 0) eqn:E; [|reflexivity].
  apply Qeq_bool_iff in E. symmetry. exact E.
Qed.

End MeshHeights.

(** X2. [applyHeightToGeometry] keeps the length of the position array and
    the x and z of every vertex.  A vertex whose cell exists gets that
    cell's height rounded to the 32-bit format of the array (for a height
    within the range of that format), which, when both indices are below
    [segments], is the rounding of the height the query [getHeightAt]
    reports at the vertex; a vertex without a cell keeps its own y. *)
Theorem applyHeightToGeometry_vertices (t : Terrain.TerrainGenerator) (vs : list Q)
    (k : nat) (x y z : Q)
    (Hx : vs !! (3 * k)%nat = Some x) (Hy : vs !! (3 * k + 1)%nat = Some y)
    (Hz : vs !! (3 * k + 2)%nat = Some z) :
  let vs' := TerrainMesh.applyHeightToGeometry t vs in
  let index := fun c : Q =>
    Qfloor (Float.fl (Float.fl (Float.fl (c + Float.fl (Terrain.size t / 2))
                                / Terrain.size t)
                      * inject_Z (Terrain.segments t))) in
  let ix := index x in
  let iz := index z in
  length vs' = length vs /\
  vs' !! (3 * k)%nat = Some x /\ vs' !! (3 * k + 2)%nat = Some z /\
  exists y', vs' !! (3 * k + 1)%nat = Some y' /\
    (forall row h, TerrainMesh.at_ (Terrain.heightData t) ix = Some row ->
                   TerrainMesh.at_ row iz = Some h ->
                   Qabs h <= 2 ^ 127 ->
                   y' = Float.fround h /\
                   ((0 <= ix < Terrain.segments t)%Z -> (0 <= iz < Terrain.segments t)%Z ->
                    Float.fround (Terrain.getHeightAt t x z) == y')) /\
    (TerrainMesh.at_ (Terrain.heightData t) ix = None -> y' = y) /\
    (forall row, TerrainMesh.at_ (Terrain.heightData t) ix = Some row ->
                 TerrainMesh.at_ row iz = None -> y' = y).
Proof.
  intros vs' index ix iz.
  change ix with (Terrain.gridIndex t x). change iz with (Terrain.gridIndex t z).
  destruct (applyHeightToGeometry_vertex t k vs x y z Hx Hy Hz) as (H0 & H1 & H2).
  split; [apply applyHeightToGeometry_length|].
  split; [exact H0|]. split; [exact H2|].
  eexists. split; [exact H1|].
  split; [|split].
  - intros row h Er Eh _. rewrite Er, Eh. split; [reflexivity|].
    intros Hix Hiz.
    rewrite at_inside in Er by lia. rewrite at_inside in Eh by lia.
    rewrite (getHeightAt_index_in t x z Hix Hiz).
    + rewrite Er, Eh. apply fround_comp. apply orZero_eq.
    + intros E. rewrite E, lookup_nil in Er. discriminate.
  - intros Er. rewrite Er. reflexivity.
  - intros row Er Eh. rewrite Er, Eh. reflexivity.
Qed.

Lemma applyHeightToGeometry_vertices_witness :
  let t := Terrain.constructed (Terrain.constantGrid 257 0.1) in
  let vs' := TerrainMesh.applyHeightToGeometry t [0; 0; 0; 100; 7; -100; 900; 7; 0] in
  vs' !! 3%nat = Some 100 /\ vs' !! 5%nat = Some (-100) /\
  vs' !! 4%nat = Some (Float.fround 0.1) /\
  Float.fround (Terrain.getHeightAt t 100 (-100)) == Float.fround 0.1 /\
  Float.fround 0.1 == 13421773 # 134217728.
Proof.
  intros t vs'.
  destruct (applyHeightToGeometry_vertices t [0; 0; 0; 100; 7; -100; 900; 7; 0] 1%nat
              100 7 (-100) eq_refl eq_refl eq_refl)
    as (_ & H0 & H2 & y' & H1 & Hcell & _).
  destruct (Hcell (repeat 0.1 257) 0.1) as [-> Hq];
    [vm_compute; reflexivity | vm_compute; reflexivity | vm_compute; discriminate |].
  split; [exact H0|]. split; [exact H2|]. split; [exact H1|]. split.
  - apply Hq; vm_compute; split; congruence.
  - vm_compute. reflexivity.
Defined.

(** ** Mouse look and movement intents (js/camera-controller.js) *)

Lemma clamp_range (lo hi x : Q) :
  lo <= hi ->
  lo <= Math_max lo (Math_min hi x) /\ Math_max lo (Math_min hi x) <= hi.
Proof.
  intros H. unfold Math_max, Math_min.
  destruct (Qlt_le_dec x hi) as [H1|H1];
    [destruct (Qlt_le_dec lo x) as [H2|H2] | destruct (Qlt_le_dec lo hi) as [H2|H2]];
    split; lra.
Qed.

Lemma clamp_inside (lo hi x : Q) :
  lo <= x -> x <= hi -> Math_max lo (Math_min hi x) == x.
Proof.
  intros H1 H2. unfold Math_max, Math_min.
  destruct (Qlt_le_dec x hi) as [H3|H3];
    [destruct (Qlt_le_dec lo x) as [H4|H4] | destruct (Qlt_le_dec lo hi) as [H4|H4]];
    lra.
Qed.

(** X3. A mouse movement is ignored in first person while the pointer is
    not locked.  Otherwise the yaw read back from the camera is turned by
    the horizontal movement times the sensitivity, and the pitch read back
    by the vertical one, the pitch being then forced into the band from
    minPolarAngle - PI/2 to maxPolarAngle - PI/2 (and left as computed when
    already inside); the third angle is kept as read back.  The camera is
    set from the new angles in first person only. *)
Theorem onMouseMove_pitch_band (Math_PI : Q) (readBack : Look.Angles -> Look.Angles)
    (movementX movementY : option Q) (s : Look.LookState)
    (Hband : Look.minPolarAngle s <= Look.maxPolarAngle s) :
  let s' := Look.onMouseMove Math_PI readBack movementX movementY s in
  let lo := Look.minPolarAngle s - Math_PI / 2 in
  let hi := Look.maxPolarAngle s - Math_PI / 2 in
  let read := readBack (Look.cameraAngles s) in
  let turned := Look.pitch read - Look.orNone movementY * Look.mouseSensitivity s in
  (Look.isFirstPerson s = true -> Look.isPointerLocked s = false -> s' = s) /\
  (Look.isFirstPerson s = false \/ Look.isPointerLocked s = true ->
     lo <= Look.pitch (Look.euler s') /\ Look.pitch (Look.euler s') <= hi /\
     (lo <= turned -> turned <= hi -> Look.pitch (Look.euler s') == turned) /\
     Look.yaw (Look.euler s') =
       Look.yaw read - Look.orNone movementX * Look.mouseSensitivity s /\
     Look.roll (Look.euler s') = Look.roll read /\
     Look.cameraAngles s' =
       (if Look.isFirstPerson s then Look.euler s' else Look.cameraAngles s)).
Proof.
  intros s' lo hi read turned. split.
  - intros Hf Hl. unfold s', Look.onMouseMove. rewrite Hf, Hl. reflexivity.
  - intros Hactive.
    assert (E : negb (Look.isPointerLocked s) && Look.isFirstPerson s = false).
    { destruct Hactive as [-> | ->]; [apply andb_false_r | reflexivity]. }
    unfold s', Look.onMouseMove. rewrite E. simpl.
    assert (Hlh : lo <= hi) by (unfold lo, hi; lra).
    destruct (clamp_range lo hi turned Hlh) as [H1 H2].
    split; [exact H1|]. split; [exact H2|]. split; [|split; [|split]; reflexivity].
    intros Ha Hb. apply clamp_inside; assumption.
Qed.

Lemma onMouseMove_pitch_band_witness :
  let s := Look.setRotation 0.3 0.2
             {| Look.isFirstPerson := true; Look.isPointerLocked := true;
                Look.mouseSensitivity := 0.002;
                Look.minPolarAngle := 0.1; Look.maxPolarAngle := (355 # 113) - 0.1;
                Look.euler := {| Look.pitch := 0; Look.yaw := 0; Look.roll := 0 |};
                Look.cameraAngles :=
                  {| Look.pitch := 0; Look.yaw := 0; Look.roll := 0 |} |} in
  let s' := Look.onMouseMove (355 # 113) (fun a => a) (Some 10) (Some (-1000)) s in
  Look.pitch (Look.euler s) = 0.2 /\
  Look.pitch (Look.euler s') <= ((355 # 113) - 0.1) - (355 # 113) / 2 /\
  Look.yaw (Look.euler s') == 0.28.
Proof.
  intros s s'.
  destruct (onMouseMove_pitch_band (355 # 113) (fun a => a) (Some 10) (Some (-1000)) s)
    as [_ H].
  - vm_compute. discriminate.
  - destruct H as (_ & Hhi & _ & Hy & _); [right; reflexivity|].
    split; [reflexivity|]. split; [exact Hhi|].
    unfold s'. rewrite Hy. vm_compute. reflexivity.
Defined.

(** X4. In [updateMovement] opposite intents cancel: with forward and
    backward both held or both released, and left and right likewise, the
    horizontal position does not change.  The vertical step is +speed when up
    is held, whatever down is, -speed when only down is held and 0 otherwise,
    where speed = moveSpeed * (run ? runMultiplier : 1) * deltaTime. *)
Theorem updateMovement_intents (deltaTime : Q) (o : Camera.Orientation)
    (c : Camera.CameraController) :
  let speed := Camera.moveSpeed c
               * (if Camera.run (Camera.keys c) then Camera.runMultiplier c else 1)
               * deltaTime in
  let c' := Camera.updateMovement deltaTime o c in
  (Camera.forward (Camera.keys c) = Camera.backward (Camera.keys c) ->
   Camera.left (Camera.keys c) = Camera.right (Camera.keys c) ->
   vx (Camera.position c') == vx (Camera.position c) /\
   vz (Camera.position c') == vz (Camera.position c)) /\
  (Camera.up (Camera.keys c) = true ->
   vy (Camera.position c') == vy (Camera.position c) + speed) /\
  (Camera.up (Camera.keys c) = false -> Camera.down (Camera.keys c) = true ->
   vy (Camera.position c') == vy (Camera.position c) - speed) /\
  (Camera.up (Camera.keys c) = false -> Camera.down (Camera.keys c) = false ->
   vy (Camera.position c') == vy (Camera.position c)).
Proof.
  intros speed c'. unfold c', Camera.updateMovement. fold speed.
  split; [|split; [|split]].
  - intros Hfb Hlr. rewrite <- Hfb, <- Hlr.
    destruct (Camera.forward (Camera.keys c)), (Camera.left (Camera.keys c));
      simpl; split; ring.
  - intros Hu. rewrite Hu. simpl. reflexivity.
  - intros Hu Hd. rewrite Hu, Hd. simpl. ring.
  - intros Hu Hd. rewrite Hu, Hd. simpl. ring.
Qed.

Lemma updateMovement_intents_witness :
  let c := Camera.onKeyDown "Space"
             (Camera.onKeyDown "KeyC"
                (Camera.onKeyDown "KeyS" (Camera.onKeyDown "KeyW" (Camera.scenario 10)))) in
  let c' := Camera.updateMovement (1 # 50) Camera.noOrientation c in
  vx (Camera.position c') == 0 /\ vz (Camera.position c') == 0 /\
  vy (Camera.position c') == 11.
Proof.
  intros c c'.
  destruct (updateMovement_intents (1 # 50) Camera.noOrientation c) as (Hh & Hu & _).
  destruct Hh as [Hx Hz]; [reflexivity | reflexivity |].
  split; [exact (Qeq_trans _ _ _ Hx (Qeq_refl 0))|].
  split; [exact (Qeq_trans _ _ _ Hz (Qeq_refl 0))|].
  refine (Qeq_trans _ _ _ (Hu eq_refl) _). vm_compute. reflexivity.
Defined.

Lemma setKey_release_after_press (code : string) (k : Camera.Keys) :
  Camera.setKey code false (Camera.setKey code true k) = Camera.setKey code false k.
Proof.
  unfold Camera.setKey.
  repeat (destruct (String.eqb code _); [reflexivity|]). reflexivity.
Qed.

Lemma setKey_unlisted (code : string) (v : bool) (k : Camera.Keys) :
  ~ In code ["KeyW"; "KeyS"; "KeyA"; "KeyD"; "Space"; "KeyC"; "ShiftLeft"] ->
  Camera.setKey code v k = k.
Proof.
  intros Hn. unfold Camera.setKey.
  repeat (destruct (String.eqb code _) eqn:E;
          [apply String.eqb_eq in E; exfalso; apply Hn; subst; simpl; tauto | clear E]).
  reflexivity.
Qed.

(** X5. The key handlers touch nothing but the intent flags.  Releasing a
    key after pressing it leaves the flags as a release alone does, so from a
    controller with no key held a press followed by its release gives the
    controller back; a key code other than the seven handled ones changes
    nothing. *)
Theorem key_press_release (code : string) (c : Camera.CameraController) :
  Camera.position (Camera.onKeyDown code c) = Camera.position c /\
  Camera.isFirstPerson (Camera.onKeyDown code c) = Camera.isFirstPerson c /\
  Camera.onKeyUp code (Camera.onKeyDown code c) = Camera.onKeyUp code c /\
  (Camera.keys c = Camera.noKeys -> Camera.onKeyUp code (Camera.onKeyDown code c) = c) /\
  (~ In code ["KeyW"; "KeyS"; "KeyA"; "KeyD"; "Space"; "KeyC"; "ShiftLeft"] ->
   Camera.onKeyDown code c = c /\ Camera.onKeyUp code c = c).
Proof.
  split; [reflexivity|]. split; [reflexivity|].
  assert (E : Camera.onKeyUp code (Camera.onKeyDown code c) = Camera.onKeyUp code c).
  { unfold Camera.onKeyUp, Camera.onKeyDown, Camera.with_keys. simpl.
    rewrite setKey_release_after_press. reflexivity. }
  split; [exact E|]. split.
  - intros Hk. rewrite E. unfold Camera.onKeyUp, Camera.with_keys. rewrite Hk.
    destruct c; simpl in *. subst.
    unfold Camera.setKey, Camera.noKeys.
    repeat (destruct (String.eqb code _); [reflexivity|]). reflexivity.
  - intros Hn. unfold Camera.onKeyDown, Camera.onKeyUp, Camera.with_keys.
    rewrite !setKey_unlisted by exact Hn. destruct c; auto.
Qed.

Lemma key_press_release_witness :
  let c := Camera.scenario 10 in
  Camera.onKeyUp "KeyW" (Camera.onKeyDown "KeyW" c) = c /\
  Camera.onKeyDown "KeyQ" c = c.
Proof.
  intros c.
  destruct (key_press_release "KeyW" c) as (_ & _ & _ & H & _).
  destruct (key_press_release "KeyQ" c) as (_ & _ & _ & _ & H').
  split; [apply H; reflexivity|].
  apply H'. simpl. intros [E|[E|[E|[E|[E|[E|[E|[]]]]]]]]; discriminate.
Defined.

(** ** Level construction (js/performance-optimizer.js) *)

Section Levels.

Import Optimizer.

Lemma Math_max_ge_l (a b : Q) : a <= Math_max a b.
Proof. unfold Math_max. destruct (Qlt_le_dec a b); lra. Qed.


Lemma Math_max_le (a b c : Q) : a <= c -> b <= c -> Math_max a b <= c.
Proof. unfold Math_max. destruct (Qlt_le_dec a b); auto. Qed.

Lemma reduceParam_lookup (k : string) (lo : Z) (f : Q) (ps : list (string * Q)) (i : nat) :
  reduceParam k lo f ps !! i =
    (fun p : string * Q =>
       if String.eqb (fst p) k && truthy (snd p)
       then (fst p, Math_max (inject_Z lo) (inject_Z (Qfloor (Float.fl (snd p * f)))))
       else p) <$> ps !! i.
Proof. unfold reduceParam. apply list_lookup_fmap. Qed.

Lemma reduceParam_keys (k : string) (lo : Z) (f : Q) (ps : list (string * Q)) :
  map fst (reduceParam k lo f ps) = map fst ps.
Proof.
  unfold reduceParam. rewrite map_map. apply map_ext.
  intros [k' v]. simpl. destruct (_ && _); reflexivity.
Qed.

Lemma floor_scaled_le (v f : Q) :
  Float.fl v == v -> 0 <= v -> f <= 1 -> inject_Z (Qfloor (Float.fl (v * f))) <= v.
Proof.
  intros Dv Hv Hf. apply Qle_trans with (Float.fl (v * f)); [apply Qfloor_le|].
  rewrite <- Dv at 2. apply fl_mono.
  pose proof (Qmult_le_compat_r f 1 v Hf Hv) as H. lra.
Qed.

End Levels.

(** X6. For a detail level between 0 and 1, [reduceParams] keeps the
    keys of the parameter record and their order.  A radialSegments entry
    that is not zero becomes max(3, floor(v * detailLevel)), a
    heightSegments or widthSegments entry that is not zero becomes
    max(1, floor(v * detailLevel)), the floor being taken of the rounded
    product; zero entries and all other keys keep their value.  A value that
    was at least its floor does not grow. *)
Theorem reduceParams_entries (detailLevel : Q) (params : list (string * Q))
    (i : nat) (k : string) (v : Q)
    (Hd : 0 <= detailLevel /\ detailLevel <= 1)
    (Hv : Float.fl v == v)
    (Hi : params !! i = Some (k, v)) :
  map fst (Optimizer.reduceParams detailLevel params) = map fst params /\
  exists v', Optimizer.reduceParams detailLevel params !! i = Some (k, v') /\
    (k = "radialSegments" -> truthy v = true ->
       v' = Math_max 3 (inject_Z (Qfloor (Float.fl (v * detailLevel)))) /\ 3 <= v' /\
       (3 <= v -> v' <= v)) /\
    (k = "heightSegments" \/ k = "widthSegments" -> truthy v = true ->
       v' = Math_max 1 (inject_Z (Qfloor (Float.fl (v * detailLevel)))) /\ 1 <= v' /\
       (1 <= v -> v' <= v)) /\
    (truthy v = false -> v' = v) /\
    (k <> "radialSegments" -> k <> "heightSegments" -> k <> "widthSegments" -> v' = v).
Proof.
  split.
  - unfold Optimizer.reduceParams. rewrite !reduceParam_keys. reflexivity.
  - unfold Optimizer.reduceParams.
    rewrite !reduceParam_lookup, Hi. simpl.
    destruct (String.eqb k "radialSegments") eqn:Er.
    + apply String.eqb_eq in Er. subst k. simpl.
      destruct (truthy v) eqn:Et; simpl.
      * eexists. split; [reflexivity|]. split; [|split; [|split]].
        -- intros _ _. split; [reflexivity|]. split; [apply Math_max_ge_l|].
           intros Hge. apply Math_max_le; [exact Hge|].
           apply floor_scaled_le; [exact Hv | lra | apply Hd].
        -- intros [H|H]; discriminate.
        -- discriminate.
        -- congruence.
      * rewrite ?Et; simpl. eexists. split; [reflexivity|].
        repeat split; try congruence; try (intros [H|H]; discriminate).
    + simpl. destruct (String.eqb k "heightSegments") eqn:Eh.
      * apply String.eqb_eq in Eh. subst k. simpl.
        destruct (truthy v) eqn:Et; simpl.
        -- eexists. split; [reflexivity|]. split; [|split; [|split]].
           ++ discriminate.
           ++ intros _ _. split; [reflexivity|]. split; [apply Math_max_ge_l|].
              intros Hge. apply Math_max_le; [exact Hge|].
              apply floor_scaled_le; [exact Hv | lra | apply Hd].
           ++ discriminate.
           ++ congruence.
        -- rewrite ?Et; simpl. eexists. split; [reflexivity|].
           repeat split; try congruence; try discriminate.
      * simpl. destruct (String.eqb k "widthSegments") eqn:Ew.
        -- apply String.eqb_eq in Ew. subst k. simpl.
           destruct (truthy v) eqn:Et; simpl.
           ++ eexists. split; [reflexivity|]. split; [|split; [|split]].
              ** discriminate.
              ** intros _ _. split; [reflexivity|]. split; [apply Math_max_ge_l|].
                 intros Hge. apply Math_max_le; [exact Hge|].
                 apply floor_scaled_le; [exact Hv | lra | apply Hd].
              ** discriminate.
              ** congruence.
           ++ eexists. split; [reflexivity|].
              repeat split; try congruence; try discriminate.
        -- simpl. apply String.eqb_neq in Er, Eh, Ew.
           eexists. split; [reflexivity|].
           split; [congruence|]. split; [intros [H|H]; congruence|]. auto.
Qed.

Lemma reduceParams_entries_witness :
  let params := [("radius", 7); ("widthSegments", 5); ("radialSegments", 4);
                 ("heightSegments", 0)] in
  Optimizer.reduceParams (Float.fl 0.6) params !! 1%nat = Some ("widthSegments", 3) /\
  Optimizer.reduceParams (Float.fl 0.6) params !! 2%nat = Some ("radialSegments", 3) /\
  Optimizer.reduceParams (Float.fl 0.6) params !! 3%nat = Some ("heightSegments", 0) /\
  map fst (Optimizer.reduceParams (Float.fl 0.6) params) = map fst params.
Proof.
  intros params.
  assert (Hd : 0 <= Float.fl 0.6 /\ Float.fl 0.6 <= 1) by (split; vm_compute; discriminate).
  destruct (reduceParams_entries (Float.fl 0.6) params 1%nat "widthSegments" 5 Hd)
    as (_ & v1 & E1 & _ & Hw & _); [vm_compute; reflexivity | reflexivity |].
  destruct (reduceParams_entries (Float.fl 0.6) params 2%nat "radialSegments" 4 Hd)
    as (Hk & v2 & E2 & Hr & _); [vm_compute; reflexivity | reflexivity |].
  destruct (reduceParams_entries (Float.fl 0.6) params 3%nat "heightSegments" 0 Hd)
    as (_ & v3 & E3 & _ & _ & Hz & _); [vm_compute; reflexivity | reflexivity |].
  destruct (Hw (or_intror eq_refl) eq_refl) as (-> & _).
  destruct (Hr eq_refl eq_refl) as (-> & _).
  rewrite (Hz eq_refl) in E3.
  split; [exact E1|]. split; [exact E2|]. split; [exact E3 | exact Hk].
Defined.

(** X7. The simplified material is rougher and less metallic within the
    valid range: for a roughness in [0, 1] the new one lies between the old
    one and 1, and for a metalness of at least 0 the new one lies between 0
    and the old one.  The three detail maps are removed exactly when the
    detail level is below 0.5. *)
Theorem simplifyMaterial_bounds (detailLevel : Q) (m : Optimizer.Material)
    (Hr : 0 <= Optimizer.roughness m /\ Optimizer.roughness m <= 1)
    (Hm : 0 <= Optimizer.metalness m) :
  let m' := Optimizer.simplifyMaterial detailLevel m in
  Optimizer.roughness m <= Optimizer.roughness m' /\ Optimizer.roughness m' <= 1 /\
  0 <= Optimizer.metalness m' /\ Optimizer.metalness m' <= Optimizer.metalness m /\
  (detailLevel < 0.5 ->
     Optimizer.normalMap m' = None /\ Optimizer.roughnessMap m' = None /\
     Optimizer.metalnessMap m' = None) /\
  (0.5 <= detailLevel ->
     Optimizer.normalMap m' = Optimizer.normalMap m /\
     Optimizer.roughnessMap m' = Optimizer.roughnessMap m /\
     Optimizer.metalnessMap m' = Optimizer.metalnessMap m).
Proof.
  intros m'. destruct Hr as [Hr0 Hr1].
  assert (R : Optimizer.roughness m' = Math_min 1 (Optimizer.roughness m * 1.2)).
  { unfold m', Optimizer.simplifyMaterial. destruct (Qlt_le_dec detailLevel 0.5); reflexivity. }
  assert (M : Optimizer.metalness m' = Math_max 0 (Optimizer.metalness m * 0.8)).
  { unfold m', Optimizer.simplifyMaterial. destruct (Qlt_le_dec detailLevel 0.5); reflexivity. }
  rewrite R, M. unfold Math_min, Math_max.
  destruct (Qlt_le_dec (Optimizer.roughness m * 1.2) 1) as [H1|H1];
    destruct (Qlt_le_dec 0 (Optimizer.metalness m * 0.8)) as [H2|H2];
    (split; [lra|]); (split; [lra|]); (split; [lra|]); (split; [lra|]);
    unfold m', Optimizer.simplifyMaterial;
    destruct (Qlt_le_dec detailLevel 0.5) as [H3|H3]; simpl;
    (split; intros H4; [auto | auto]);
    try (exfalso; lra).
Qed.

Lemma simplifyMaterial_bounds_witness :
  let m' := Optimizer.simplifyMaterial 0.3 Optimizer.sampleMaterial in
  Optimizer.roughness m' <= 1 /\ Optimizer.normalMap m' = None.
Proof.
  intros m'.
  destruct (simplifyMaterial_bounds 0.3 Optimizer.sampleMaterial) as (_ & H1 & _ & _ & H2 & _).
  - split; discriminate.
  - discriminate.
  - split; [exact H1|]. apply H2. reflexivity.
Defined.



(** X9. Registering a mesh that is not yet registered and whose geometry
    is null throws: the bounding box for the impostor cannot be computed.
    For an object that is not a mesh, or that is registered already, the
    call returns and changes nothing. *)
Theorem createLODForObject_null_geometry {L : Optimizer.RenderLibrary}
    (object : Optimizer.uuid) (s : Optimizer.PerformanceOptimizer) (o : Optimizer.Object3D)
    (Ho : Optimizer.objects (Optimizer.store s) !! object = Some o) :
  (Optimizer.isMesh o = true -> Optimizer.lodObjects s !! object = None ->
   Optimizer.geometry o = None ->
   Optimizer.createLODForObject object s = None) /\
  (Optimizer.isMesh o = false \/ is_Some (Optimizer.lodObjects s !! object) ->
   Optimizer.createLODForObject object s = Some s).
Proof.
  split.
  - intros Hm Hl Hg. unfold Optimizer.createLODForObject. rewrite Ho, Hm, Hl.
    cbn [negb orb]. rewrite bool_decide_eq_false_2 by (intros [x Hx]; discriminate).
    unfold Optimizer.alloc. cbv beta iota zeta.
    destruct (Optimizer.cloneTree _ _) as [high st1].
    destruct (Optimizer.createReducedDetail _ _ _ _) as [[m|] st3]; cbv beta iota zeta;
      destruct (Optimizer.createReducedDetail _ _ _ _) as [[m'|] st5]; cbv beta iota zeta;
      unfold Optimizer.createImpostor; rewrite (Optimizer.boxSize_null o Hm Hg);
      reflexivity.
  - intros H. unfold Optimizer.createLODForObject. rewrite Ho.
    destruct H as [H|H].
    + rewrite H. reflexivity.
    + rewrite (bool_decide_eq_true_2 _ H), orb_true_r. reflexivity.
Qed.

Lemma createLODForObject_null_geometry_witness :
  let s :=
    Optimizer.set_store
      {| Optimizer.objects :=
           <[1%nat := Optimizer.sampleObject Optimizer.KMesh None 0 true]>
             (Optimizer.objects Optimizer.sampleStore);
         Optimizer.nextId := 4%nat |}
      (Optimizer.sampleOptimizer 60 1) in
  @Optimizer.createLODForObject Optimizer.lineLibrary 1%nat s = None /\
  @Optimizer.createLODForObject Optimizer.lineLibrary 0%nat s = Some s.
Proof.
  intros s. split.
  - destruct (@createLODForObject_null_geometry Optimizer.lineLibrary 1%nat s
                (Optimizer.sampleObject Optimizer.KMesh None 0 true) eq_refl) as [H _].
    apply H; reflexivity.
  - destruct (@createLODForObject_null_geometry Optimizer.lineLibrary 0%nat s
                (Optimizer.sampleObject Optimizer.KOther None 0 true) eq_refl) as [_ H].
    apply H. left. reflexivity.
Defined.

(** ** Pools, samples and quality (js/performance-optimizer.js) *)

(** X10. A pool is a stack: after an object is returned to a pool that is
    below its limit, [getFromPool] on that name yields that object and leaves
    the pools exactly as they were before the return.  Taking from an empty
    pool, or taking from or returning to a name that has no pool, yields
    nothing and changes nothing. *)
Theorem pool_return_then_get (name : string) (object : Optimizer.uuid)
    (s : Optimizer.PerformanceOptimizer) :
  (forall pool, Optimizer.objectPools s !! name = Some pool -> (length pool < 100)%nat ->
     let s1 := Optimizer.returnToPool name object s in
     fst (Optimizer.getFromPool name s1) = Some object /\
     Optimizer.objectPools (snd (Optimizer.getFromPool name s1)) = Optimizer.objectPools s /\
     Optimizer.store (snd (Optimizer.getFromPool name s1)) = Optimizer.store s1) /\
  (Optimizer.objectPools s !! name = Some [] -> Optimizer.getFromPool name s = (None, s)) /\
  (Optimizer.objectPools s !! name = None ->
     Optimizer.getFromPool name s = (None, s) /\ Optimizer.returnToPool name object s = s).
Proof.
  split; [|split].
  - intros pool Hp Hl s1. unfold s1, Optimizer.returnToPool. rewrite Hp.
    apply Nat.ltb_lt in Hl. rewrite Hl.
    unfold Optimizer.getFromPool. simpl. rewrite lookup_insert_eq.
    rewrite length_app. simpl.
    replace (0 <? length pool + 1)%nat with true
      by (symmetry; apply Nat.ltb_lt; lia).
    simpl. split; [apply last_snoc|]. split; [|reflexivity].
    rewrite removelast_last, insert_insert_eq. apply insert_id. exact Hp.
  - intros Hp. unfold Optimizer.getFromPool. rewrite Hp. reflexivity.
  - intros Hp. unfold Optimizer.getFromPool, Optimizer.returnToPool. rewrite Hp. auto.
Qed.

Lemma pool_return_then_get_witness :
  let s := Optimizer.sampleOptimizer 60 1 in
  fst (Optimizer.getFromPool "particles" (Optimizer.returnToPool "particles" 2%nat s))
    = Some 2%nat /\
  Optimizer.getFromPool "particles" s = (None, s) /\
  Optimizer.getFromPool "bullets" s = (None, s).
Proof.
  intros s.
  destruct (pool_return_then_get "particles" 2%nat s) as (H1 & H2 & _).
  destruct (pool_return_then_get "bullets" 2%nat s) as (_ & _ & H3).
  split; [|split].
  - destruct (H1 [] eq_refl) as [E _]; [simpl; lia | exact E].
  - apply H2. reflexivity.
  - apply H3. reflexivity.
Defined.

Section Samples.

Import Optimizer.

Lemma Math_round_mono (a b : Q) : a <= b -> (Math_round a <= Math_round b)%Z.
Proof. intros H. unfold Math_round. apply Qfloor_resp_le. lra. Qed.

Lemma Math_round_unique (x : Q) (k : Z) :
  inject_Z k - (1 # 2) <= x -> x < inject_Z k + (1 # 2) -> Math_round x = k.
Proof.
  intros H1 H2. unfold Math_round.
  assert (L : (k <= Qfloor (x + (1 # 2)))%Z).
  { apply Qfloor_above. lra. }
  assert (U : (Qfloor (x + (1 # 2)) < k + 1)%Z).
  { rewrite Zlt_Qlt. apply Qle_lt_trans with (x + (1 # 2)); [apply Qfloor_le|].
    rewrite inject_Z_plus. change (inject_Z 1) with 1. lra. }
  lia.
Qed.

Lemma Math_round_Z (k : Z) : Math_round (inject_Z k) = k.
Proof. apply Math_round_unique; lra. Qed.

Lemma sumSamples_bounds (lo hi : Z) (l : list Q) :
  Forall (fun x => inject_Z lo <= x /\ x <= inject_Z hi) l ->
  forall (a : Q) (k : Z),
    ((k + Z.of_nat (length l)) * Z.max (Z.abs lo) (Z.abs hi) < 2 ^ 53)%Z ->
    (0 <= k)%Z ->
    inject_Z (k * lo) <= a -> a <= inject_Z (k * hi) ->
    inject_Z ((k + Z.of_nat (length l)) * lo)
      <= fold_left (fun sum fps => Float.fl (sum + fps)) l a /\
    fold_left (fun sum fps => Float.fl (sum + fps)) l a
      <= inject_Z ((k + Z.of_nat (length l)) * hi).
Proof.
  induction 1 as [|x l [Hx1 Hx2] _ IH]; intros a k Hb Hk H1 H2.
  - cbn [length fold_left]. replace (k + Z.of_nat 0)%Z with k by lia. split; assumption.
  - cbn [fold_left].
    replace (k + Z.of_nat (length (x :: l)))%Z with ((k + 1) + Z.of_nat (length l))%Z in *
      by (cbn [length]; lia).
    apply IH; [exact Hb | lia | |].
    + apply (fl_between (inject_Z ((k + 1) * lo)) (inject_Z ((k + 1) * hi))).
      * apply fl_Z. nia.
      * apply fl_Z. nia.
      * replace ((k + 1) * lo)%Z with (k * lo + lo)%Z by lia. rewrite inject_Z_plus. lra.
      * replace ((k + 1) * hi)%Z with (k * hi + hi)%Z by lia. rewrite inject_Z_plus. lra.
    + apply (fl_between (inject_Z ((k + 1) * lo)) (inject_Z ((k + 1) * hi))).
      * apply fl_Z. nia.
      * apply fl_Z. nia.
      * replace ((k + 1) * lo)%Z with (k * lo + lo)%Z by lia. rewrite inject_Z_plus. lra.
      * replace ((k + 1) * hi)%Z with (k * hi + hi)%Z by lia. rewrite inject_Z_plus. lra.
Qed.

Lemma sumSamples_integers (E : Z) (l : list Q) :
  Forall (fun x => exists k : Z, x == inject_Z k /\ (Z.abs k < 2 ^ E)%Z) l ->
  forall (a a' : Q) (A : Z),
    a == inject_Z A -> a' == inject_Z A ->
    (Z.abs A + Z.of_nat (length l) * 2 ^ E <= 2 ^ 53)%Z ->
    exists S : Z,
      fold_left (fun sum fps => Float.fl (sum + fps)) l a == inject_Z S /\
      fold_left Qplus l a' == inject_Z S /\
      (Z.abs S <= Z.abs A + Z.of_nat (length l) * (2 ^ E - 1))%Z.
Proof.
  induction 1 as [|x l (k & Hx & Hk) _ IH]; intros a a' A Ha Ha' Hb.
  - exists A. cbn [fold_left length]. split; [exact Ha|]. split; [exact Ha'|]. lia.
  - cbn [fold_left]. cbn [length] in Hb.
    assert (Hs : a + x == inject_Z (A + k)).
    { rewrite inject_Z_plus, Ha, Hx. reflexivity. }
    assert (Hs' : a' + x == inject_Z (A + k)).
    { rewrite inject_Z_plus, Ha', Hx. reflexivity. }
    assert (Hf : Float.fl (a + x) == inject_Z (A + k)).
    { apply Qeq_trans with (Float.fl (inject_Z (A + k))); [apply fl_comp; exact Hs|].
      apply fl_Z. lia. }
    destruct (IH _ _ _ Hf Hs') as (S & S1 & S2 & S3); [lia|].
    exists S. split; [exact S1|]. split; [exact S2|]. cbn [length]. lia.
Qed.

Lemma Math_round_fl_quotient (S n E : Z) :
  (0 < n)%Z -> (0 <= E)%Z -> (Z.abs S <= n * (2 ^ E - 1))%Z -> (n * 2 ^ E <= 2 ^ 51)%Z ->
  Math_round (Float.fl (inject_Z S / inject_Z n)) = Math_round (inject_Z S / inject_Z n).
Proof.
  intros Hn HE HS Hb.
  set (q := inject_Z S / inject_Z n).
  set (k := Math_round q).
  assert (HN : 0 < inject_Z n).
  { change 0 with (inject_Z 0). rewrite <- Zlt_Qlt. exact Hn. }
  assert (Hp : (0 < 2 ^ E)%Z) by (apply Z.pow_pos_nonneg; lia).
  assert (HE51 : (2 ^ E <= 2 ^ 51)%Z) by nia.
  assert (Hq1 : inject_Z k - (1 # 2) <= q).
  { unfold k, Math_round.
    pose proof (Qfloor_le (q + (1 # 2))). lra. }
  assert (Hq2 : q < inject_Z k + (1 # 2)).
  { unfold k, Math_round.
    pose proof (Qlt_floor (q + (1 # 2))) as H.
    rewrite inject_Z_plus in H. change (inject_Z 1) with 1 in H. lra. }
  assert (Hk : (Z.abs k <= 2 ^ E - 1)%Z).
  { assert (L : inject_Z (- (2 ^ E - 1)) <= q).
    { unfold q. apply Qle_shift_div_l; [exact HN|].
      rewrite <- inject_Z_mult. rewrite <- Zle_Qle. nia. }
    assert (U : q <= inject_Z (2 ^ E - 1)).
    { unfold q. apply Qle_shift_div_r; [exact HN|].
      rewrite <- inject_Z_mult. rewrite <- Zle_Qle. nia. }
    apply Math_round_mono in L, U. rewrite Math_round_Z in L, U. fold k in L, U. lia. }
  apply Math_round_unique.
  - apply Qle_trans with (Float.fl (inject_Z (2 * k + -1) * 2 ^ (-1))).
    + rewrite fl_exact by lia.
      rewrite inject_Z_plus, inject_Z_mult.
      change (2 ^ (-1)) with (1 # 2). change (inject_Z 2) with 2.
      change (inject_Z (-1)) with (-1).
      lra.
    + apply fl_mono.
      rewrite inject_Z_plus, inject_Z_mult.
      change (2 ^ (-1)) with (1 # 2). change (inject_Z 2) with 2.
      change (inject_Z (-1)) with (-1).
      lra.
  - set (y := inject_Z ((2 * k + 1) * 2 ^ (52 - E) + -1) * 2 ^ (E - 53)).
    assert (HE' : (E <= 51)%Z).
    { destruct (Z_le_gt_dec E 51) as [|G]; [assumption|].
      assert (2 ^ 52 <= 2 ^ E)%Z by (apply Z.pow_le_mono_r; lia). lia. }
    assert (Hy : y == inject_Z k + (1 # 2) - 2 ^ (E - 53)).
    { unfold y. rewrite inject_Z_plus, inject_Z_mult, inject_Z_plus, inject_Z_mult.
      rewrite pow2_Z by lia.
      change (inject_Z 2) with 2. change (inject_Z 1) with 1.
      change (inject_Z (-1)) with (-1).
      assert (X : 2 ^ (52 - E) * 2 ^ (E - 53) == 1 # 2).
      { rewrite <- pow2_plus. replace (52 - E + (E - 53))%Z with (-1)%Z by lia. reflexivity. }
      generalize dependent (2 ^ (52 - E)). generalize (2 ^ (E - 53)).
      intros P R X.
      apply Qeq_trans with ((2 * inject_Z k + 1) * (R * P) - P); [ring|].
      rewrite X. ring. }
    assert (Hfy : Float.fl y == y).
    { unfold y. apply fl_exact; [|lia].
      assert (2 <= 2 ^ (52 - E))%Z.
      { change 2%Z with (2 ^ 1)%Z at 1. apply Z.pow_le_mono_r; lia. }
      assert (2 ^ E * 2 ^ (52 - E) = 2 ^ 52)%Z.
      { rewrite <- Z.pow_add_r by lia. f_equal. lia. }
      nia. }
    assert (Hpp : 0 < 2 ^ (E - 53)) by apply pow2_pos.
    apply Qle_lt_trans with y; [|lra].
    apply Qle_trans with (Float.fl y); [|rewrite Hfy; apply Qle_refl].
    apply fl_mono. rewrite Hy.
    assert (Z1 : (2 * S + 1 <= n * (2 * k + 1))%Z).
    { assert (Z0 : (2 * S < n * (2 * k + 1))%Z).
      { rewrite Zlt_Qlt. rewrite !inject_Z_mult, inject_Z_plus, inject_Z_mult.
        change (inject_Z 2) with 2. change (inject_Z 1) with 1.
        assert (Q0 : inject_Z S == q * inject_Z n) by (unfold q; field; lra).
        rewrite Q0. nra. }
      lia. }
    assert (Q1 : 2 * inject_Z S + 1 <= inject_Z n * (2 * inject_Z k + 1)).
    { rewrite Zle_Qle in Z1.
      rewrite inject_Z_plus, !inject_Z_mult, inject_Z_plus, inject_Z_mult in Z1.
      exact Z1. }
    assert (Q2 : 2 * inject_Z n * 2 ^ (E - 53) <= 1).
    { assert (X : 2 ^ (E - 53) == inject_Z (2 ^ E) / inject_Z (2 ^ 53)).
      { rewrite pow2_minus. rewrite !pow2_Z by lia. reflexivity. }
      rewrite X.
      assert (Z2 : (2 * n * 2 ^ E <= 2 ^ 53)%Z) by lia.
      rewrite Zle_Qle in Z2. rewrite !inject_Z_mult in Z2. change (inject_Z 2) with 2 in Z2.
      set (b := inject_Z (2 ^ 53)) in *. set (a := inject_Z (2 ^ E)) in *.
      assert (Pb : 0 < b) by reflexivity.
      assert (Y : 2 * inject_Z n * (a / b) == (2 * inject_Z n * a) / b) by (field; lra).
      rewrite Y. apply Qle_shift_div_r; [exact Pb|]. lra. }
    unfold q. apply Qle_shift_div_r; [exact HN|].
    generalize dependent (2 ^ (E - 53)). intros P _ _ _ HP Q2. nra.
Qed.

End Samples.

(** X11. With no sample since the last second the statistics update changes
    nothing, so there is no division by zero.  Otherwise the sample buffer is
    emptied and the new mean frame rate is the rounded mean of the samples as
    the code computes it: the samples are added from the left in double
    precision, the sum is divided by their number and the quotient rounded to
    the nearest integer.  When all samples lie between two integers lo and hi
    (and the sums stay below 2^53), so does the result; when the samples are
    integers below 2^E in absolute value (n * 2^E <= 2^51), the result is
    exactly the mathematical mean rounded to the nearest integer.  Nothing
    else of the optimizer changes. *)
Theorem updatePerformanceStats_mean (s : Optimizer.PerformanceOptimizer) (lo hi E : Z) :
  let h := Optimizer.fpsHistory s in
  let n := Z.of_nat (length h) in
  let s' := Optimizer.updatePerformanceStats s in
  (h = [] -> s' = s) /\
  (h <> [] ->
   Optimizer.fpsHistory s' = [] /\
   Optimizer.averageFPS (Optimizer.performanceStats s')
     = Optimizer.Math_round (Float.fl (Optimizer.sumSamples h / inject_Z n)) /\
   ((n * Z.max (Z.abs lo) (Z.abs hi) < 2 ^ 53)%Z ->
    Forall (fun x => inject_Z lo <= x /\ x <= inject_Z hi) h ->
    (lo <= Optimizer.averageFPS (Optimizer.performanceStats s') <= hi)%Z) /\
   ((0 <= E)%Z -> (n * 2 ^ E <= 2 ^ 51)%Z ->
    Forall (fun x => exists k : Z, x == inject_Z k /\ (Z.abs k < 2 ^ E)%Z) h ->
    Optimizer.averageFPS (Optimizer.performanceStats s')
      = Optimizer.Math_round (fold_left Qplus h 0 / inject_Z n)) /\
   Optimizer.pixelRatio s' = Optimizer.pixelRatio s /\
   Optimizer.lodDistances s' = Optimizer.lodDistances s /\
   Optimizer.store s' = Optimizer.store s).
Proof.
  intros h n s'. split.
  - intros H. unfold s', Optimizer.updatePerformanceStats. fold h. rewrite H. reflexivity.
  - intros Hne.
    assert (Hn : (0 < n)%Z).
    { unfold n. destruct h; [congruence | cbn [length]; lia]. }
    assert (HN : 0 < inject_Z n).
    { change 0 with (inject_Z 0). rewrite <- Zlt_Qlt. exact Hn. }
    assert (Es : s' = Optimizer.set_fps [] (Optimizer.lastFrameTime s)
                   (Optimizer.set_performanceStats
                      (Optimizer.set_averageFPS
                         (Optimizer.Math_round
                            (Float.fl (Optimizer.sumSamples h / inject_Z n)))
                         (Optimizer.performanceStats s)) s)).
    { unfold s', Optimizer.updatePerformanceStats. fold h. fold n.
      replace (0 <? length h)%nat with true; [reflexivity|].
      symmetry. apply Nat.ltb_lt. unfold n in Hn. lia. }
    rewrite Es. cbn [Optimizer.fpsHistory Optimizer.set_fps Optimizer.performanceStats
                     Optimizer.set_performanceStats Optimizer.averageFPS
                     Optimizer.set_averageFPS Optimizer.pixelRatio Optimizer.lodDistances
                     Optimizer.store].
    split; [reflexivity|]. split; [reflexivity|]. split; [|split; [|auto]].
    + intros Hb Hall.
      destruct (sumSamples_bounds lo hi h Hall 0 0) as [H1 H2].
      * exact Hb.
      * lia.
      * apply Qle_refl.
      * apply Qle_refl.
      * fold (Optimizer.sumSamples h) in H1, H2. fold n in H1, H2.
        replace (0 + n)%Z with n in H1, H2 by lia.
        rewrite inject_Z_mult in H1, H2.
        destruct (fl_between (inject_Z lo) (inject_Z hi)
                    (Optimizer.sumSamples h / inject_Z n)) as [B1 B2].
        -- apply fl_Z. nia.
        -- apply fl_Z. nia.
        -- apply Qle_shift_div_l; [exact HN|]. lra.
        -- apply Qle_shift_div_r; [exact HN|]. lra.
        -- apply Math_round_mono in B1, B2. rewrite Math_round_Z in B1, B2.
           split; assumption.
    + intros HE Hb Hall.
      destruct (sumSamples_integers E h Hall 0 0 0) as (S & S1 & S2 & S3).
      * reflexivity.
      * reflexivity.
      * fold n. lia.
      * fold (Optimizer.sumSamples h) in S1. fold n in S3.
        assert (C1 : Float.fl (Optimizer.sumSamples h / inject_Z n)
                     == Float.fl (inject_Z S / inject_Z n)).
        { apply fl_comp. rewrite S1. reflexivity. }
        assert (C2 : fold_left Qplus h 0 / inject_Z n == inject_Z S / inject_Z n).
        { rewrite S2. reflexivity. }
        unfold Optimizer.Math_round. rewrite C1, C2.
        apply (Math_round_fl_quotient S n E); [exact Hn | exact HE | lia | exact Hb].
Qed.

Lemma updatePerformanceStats_mean_witness :
  let s := Optimizer.set_fps [18; 22; 21] 0 (Optimizer.sampleOptimizer 60 2) in
  let s' := Optimizer.updatePerformanceStats s in
  Optimizer.fpsHistory s' = [] /\
  Optimizer.averageFPS (Optimizer.performanceStats s') = 20%Z /\
  (18 <= Optimizer.averageFPS (Optimizer.performanceStats s') <= 22)%Z.
Proof.
  intros s s'.
  destruct (updatePerformanceStats_mean s 18 22 5) as [_ H].
  destruct H as (H0 & _ & H1 & H2 & _).
  - discriminate.
  - split; [exact H0|]. split.
    + unfold s'. rewrite H2.
      * vm_compute. reflexivity.
      * lia.
      * vm_compute. discriminate.
      * repeat constructor.
        -- exists 18%Z. split; [reflexivity | vm_compute; reflexivity].
        -- exists 22%Z. split; [reflexivity | vm_compute; reflexivity].
        -- exists 21%Z. split; [reflexivity | vm_compute; reflexivity].
    + apply H1.
      * vm_compute. reflexivity.
      * repeat constructor; discriminate.
Defined.

(** X12. Between 30 and 50 frames per second [adaptiveQuality] is the
    identity; more precisely the resolution scale is untouched from 30 to 55
    and the LOD thresholds from 25 to 50. *)
Theorem adaptiveQuality_dead_band (s : Optimizer.PerformanceOptimizer) :
  let fps := Optimizer.averageFPS (Optimizer.performanceStats s) in
  ((30 <= fps <= 50)%Z -> Optimizer.adaptiveQuality s = s) /\
  ((30 <= fps <= 55)%Z ->
     Optimizer.pixelRatio (Optimizer.adaptiveQuality s) = Optimizer.pixelRatio s) /\
  ((25 <= fps <= 50)%Z ->
     Optimizer.lodDistances (Optimizer.adaptiveQuality s) = Optimizer.lodDistances s).
Proof.
  intros fps. unfold Optimizer.adaptiveQuality. fold fps.
  split; [|split]; intros H.
  - replace (fps <? 30)%Z with false by (symmetry; apply Z.ltb_ge; lia).
    replace (55 <? fps)%Z with false by (symmetry; apply Z.ltb_ge; lia).
    replace (fps <? 25)%Z with false by (symmetry; apply Z.ltb_ge; lia).
    replace (50 <? fps)%Z with false by (symmetry; apply Z.ltb_ge; lia).
    reflexivity.
  - replace (fps <? 30)%Z with false by (symmetry; apply Z.ltb_ge; lia).
    replace (55 <? fps)%Z with false by (symmetry; apply Z.ltb_ge; lia).
    simpl. destruct (fps <? 25)%Z; [reflexivity|]. destruct (50 <? fps)%Z; reflexivity.
  - replace (fps <? 25)%Z with false by (symmetry; apply Z.ltb_ge; lia).
    replace (50 <? fps)%Z with false by (symmetry; apply Z.ltb_ge; lia).
    repeat match goal with |- context [if ?b then _ else _] => destruct b end; reflexivity.
Qed.

Lemma adaptiveQuality_dead_band_witness :
  Optimizer.adaptiveQuality (Optimizer.sampleOptimizer 45 2) = Optimizer.sampleOptimizer 45 2 /\
  Optimizer.ticks 30 (Optimizer.sampleOptimizer 45 2) = Optimizer.sampleOptimizer 45 2.
Proof.
  destruct (adaptiveQuality_dead_band (Optimizer.sampleOptimizer 45 2)) as [H _].
  assert (E : Optimizer.adaptiveQuality (Optimizer.sampleOptimizer 45 2)
              = Optimizer.sampleOptimizer 45 2) by (apply H; simpl; lia).
  split; [exact E|].
  do 30 (cbn [Optimizer.ticks]; rewrite E). reflexivity.
Defined.

Section QualityInvariant.

Import Optimizer.

Lemma adaptiveQuality_fixed (s : PerformanceOptimizer) :
  devicePixelRatio (adaptiveQuality s) = devicePixelRatio s /\
  performanceStats (adaptiveQuality s) = performanceStats s.
Proof.
  unfold adaptiveQuality.
  repeat match goal with |- context [if ?b then _ else _] => destruct b end; auto.
Qed.

Lemma adaptiveQuality_scale_cases (s : PerformanceOptimizer) :
  pixelRatio (adaptiveQuality s) = pixelRatio s \/
  (1 < pixelRatio s /\ pixelRatio (adaptiveQuality s) = Math_max 0.5 (pixelRatio s * 0.9)) \/
  (pixelRatio s < devicePixelRatio s /\
   pixelRatio (adaptiveQuality s) = Math_min (devicePixelRatio s) (pixelRatio s * 1.1)).
Proof.
  unfold adaptiveQuality.
  destruct ((averageFPS (performanceStats s) <? 30)%Z && Qltb 1 (pixelRatio s)) eqn:E1.
  - apply andb_true_iff in E1. destruct E1 as [_ E1]. apply Qltb_lt in E1.
    right; left. split; [exact E1|].
    repeat match goal with |- context [if ?b then _ else _] => destruct b end; reflexivity.
  - destruct ((55 <? averageFPS (performanceStats s))%Z
              && Qltb (pixelRatio s) (devicePixelRatio s)) eqn:E2.
    + apply andb_true_iff in E2. destruct E2 as [_ E2]. apply Qltb_lt in E2.
      right; right. split; [exact E2|].
      repeat match goal with |- context [if ?b then _ else _] => destruct b end; reflexivity.
    + left.
      repeat match goal with |- context [if ?b then _ else _] => destruct b end; reflexivity.
Qed.

Lemma adaptiveQuality_thresholds (s : PerformanceOptimizer) :
  lodDistances (adaptiveQuality s) = lodDistances s \/
  lodDistances (adaptiveQuality s) = [30; 80; 150] \/
  lodDistances (adaptiveQuality s) = [70; 200; 400].
Proof.
  unfold adaptiveQuality.
  repeat match goal with |- context [if ?b then _ else _] => destruct b end; simpl; auto.
Qed.

Lemma adaptiveQuality_keeps_invariant (b : Q) (s : PerformanceOptimizer) :
  0 <= b -> b <= 0.9 ->
  b < pixelRatio s -> pixelRatio s <= devicePixelRatio s ->
  In (lodDistances s) thresholdPresets ->
  b < pixelRatio (adaptiveQuality s) /\
  pixelRatio (adaptiveQuality s) <= devicePixelRatio (adaptiveQuality s) /\
  In (lodDistances (adaptiveQuality s)) thresholdPresets.
Proof.
  intros Hb0 Hb1 Hlo Hhi Hin.
  destruct (adaptiveQuality_fixed s) as [Hd _]. rewrite Hd.
  split; [|split].
  - destruct (adaptiveQuality_scale_cases s) as [E|[[H E]|[H E]]]; rewrite E.
    + exact Hlo.
    + unfold Math_max. destruct (Qlt_le_dec 0.5 (pixelRatio s * 0.9)); lra.
    + unfold Math_min. destruct (Qlt_le_dec (pixelRatio s * 1.1) (devicePixelRatio s)); lra.
  - destruct (adaptiveQuality_scale_cases s) as [E|[[H E]|[H E]]]; rewrite E.
    + exact Hhi.
    + unfold Math_max. destruct (Qlt_le_dec 0.5 (pixelRatio s * 0.9)); lra.
    + unfold Math_min. destruct (Qlt_le_dec (pixelRatio s * 1.1) (devicePixelRatio s)); lra.
  - destruct (adaptiveQuality_thresholds s) as [E|[E|E]]; rewrite E.
    + exact Hin.
    + simpl. auto.
    + simpl. auto.
Qed.

End QualityInvariant.

(** X13. Whatever mean frame rates are measured, a resolution scale that
    starts above a bound b between 0 and 0.9 and at most at the device pixel
    ratio stays above b and at most at the device pixel ratio after every
    adaptation step, and the LOD thresholds are always one of the three
    tables [50,150,300], [30,80,150], [70,200,400]. *)
Theorem feed_keeps_quality_bounds (rates : list Z) (b : Q)
    (s : Optimizer.PerformanceOptimizer)
    (Hb : 0 <= b /\ b <= 0.9)
    (Hlo : b < Optimizer.pixelRatio s)
    (Hhi : Optimizer.pixelRatio s <= Optimizer.devicePixelRatio s)
    (Hin : In (Optimizer.lodDistances s) Optimizer.thresholdPresets) :
  let s' := Optimizer.feed rates s in
  b < Optimizer.pixelRatio s' /\
  Optimizer.pixelRatio s' <= Optimizer.devicePixelRatio s /\
  In (Optimizer.lodDistances s') Optimizer.thresholdPresets.
Proof.
  revert s Hlo Hhi Hin. induction rates as [|f rates IH]; intros s Hlo Hhi Hin; simpl.
  - auto.
  - set (s1 := Optimizer.set_performanceStats
                 (Optimizer.set_averageFPS f (Optimizer.performanceStats s)) s).
    destruct Hb as [Hb0 Hb1].
    destruct (adaptiveQuality_keeps_invariant b s1 Hb0 Hb1 Hlo Hhi Hin) as (H1 & H2 & H3).
    destruct (adaptiveQuality_fixed s1) as [Hd _].
    specialize (IH (Optimizer.adaptiveQuality s1) H1 H2 H3).
    rewrite Hd in IH. exact IH.
Qed.

Lemma feed_keeps_quality_bounds_witness :
  let s' := Optimizer.feed [20; 20; 60; 10; 45; 70]%Z (Optimizer.sampleOptimizer 60 2) in
  0.9 < Optimizer.pixelRatio s' /\ Optimizer.pixelRatio s' <= 2 /\
  In (Optimizer.lodDistances s') Optimizer.thresholdPresets.
Proof.
  intros s'.
  apply (feed_keeps_quality_bounds [20; 20; 60; 10; 45; 70]%Z 0.9
           (Optimizer.sampleOptimizer 60 2)).
  - split; discriminate.
  - reflexivity.
  - discriminate.
  - simpl. auto.
Defined.

Section HighRate.

Import Optimizer.







End HighRate.



(** ** More on frustum culling (js/performance-optimizer.js) *)

Section CullingCounts.

Import Optimizer.

Context {L : RenderLibrary}.

Local Abbreviation culled cam o := (fst (cullObject cam o)).

Lemma verdict_culled (cam : CameraT) (o : Object3D) :
  verdict cam (culled cam o) = verdict cam o.
Proof.
  unfold verdict, cullObject. destruct (isMesh o || isSprite o) eqn:Hk.
  - destruct (geometry o) as [g|] eqn:Hg; simpl.
    + unfold isMesh, isSprite in *. simpl. rewrite Hk. simpl. reflexivity.
    + rewrite Hk, Hg. reflexivity.
  - simpl. rewrite Hk. reflexivity.
Qed.

Lemma captured_culled (cam : CameraT) (o : Object3D) :
  captured (culled cam o) = captured o.
Proof.
  unfold cullObject. destruct (isMesh o || isSprite o); [|reflexivity].
  destruct (geometry o); reflexivity.
Qed.

Lemma countVerdict_ext (b : bool) (cam : CameraT) (h h' : gmap uuid Object3D)
    (l : list uuid) :
  (forall i, (h' !! i) ≫= verdict cam = (h !! i) ≫= verdict cam) ->
  countVerdict b cam h' l = countVerdict b cam h l.
Proof.
  intros He. unfold countVerdict. f_equal. apply List.filter_ext. intros i.
  specialize (He i).
  destruct (h' !! i), (h !! i); simpl in He;
    first [rewrite He; reflexivity | rewrite <- He; reflexivity | reflexivity].
Qed.

Lemma cullStep_verdicts (cam : CameraT) (h : gmap uuid Object3D) (cnt : nat * nat)
    (j i : uuid) :
  (fst (cullStep cam (h, cnt) j) !! i) ≫= verdict cam = (h !! i) ≫= verdict cam.
Proof.
  rewrite cullStep_lookup. destruct (decide (i = j)); [|reflexivity].
  destruct (h !! i); simpl; [apply verdict_culled | reflexivity].
Qed.

Lemma cullStep_counts (cam : CameraT) (h : gmap uuid Object3D) (v c : nat) (j : uuid) :
  snd (cullStep cam (h, (v, c)) j) =
    ((v + countVerdict true cam h [j])%nat, (c + countVerdict false cam h [j])%nat).
Proof.
  unfold cullStep, countVerdict, verdict. simpl.
  destruct (h !! j) as [o|]; simpl.
  - destruct (cullObject cam o) as [o' [[|]|]]; simpl; f_equal; lia.
  - f_equal; lia.
Qed.

Lemma countVerdict_cons (b : bool) (cam : CameraT) (h : gmap uuid Object3D)
    (j : uuid) (l : list uuid) :
  countVerdict b cam h (j :: l) = (countVerdict b cam h [j] + countVerdict b cam h l)%nat.
Proof.
  unfold countVerdict. simpl.
  destruct (match h !! j with Some o => _ | None => false end); simpl; lia.
Qed.

Lemma fold_cull_counts (cam : CameraT) (l : list uuid) :
  forall (h : gmap uuid Object3D) (v c : nat),
    snd (fold_left (cullStep cam) l (h, (v, c))) =
      ((v + countVerdict true cam h l)%nat, (c + countVerdict false cam h l)%nat).
Proof.
  induction l as [|j l IH]; intros h v c.
  - simpl. unfold countVerdict. simpl. f_equal; lia.
  - change (fold_left (cullStep cam) (j :: l) (h, (v, c)))
      with (fold_left (cullStep cam) l (cullStep cam (h, (v, c)) j)).
    pose proof (cullStep_counts cam h v c j) as Ec.
    pose proof (fun i => cullStep_verdicts cam h (v, c) j i) as Ev.
    destruct (cullStep cam (h, (v, c)) j) as [h1 [v1 c1]]. cbn [fst snd] in Ec, Ev.
    injection Ec as -> ->.
    rewrite IH.
    rewrite (countVerdict_ext true cam h h1 l Ev), (countVerdict_ext false cam h h1 l Ev).
    rewrite (countVerdict_cons true cam h j l), (countVerdict_cons false cam h j l).
    f_equal; lia.
Qed.

Lemma updateFrustumCulling_counts (cam : CameraT) (s : PerformanceOptimizer) :
  visibleObjects (performanceStats (updateFrustumCulling cam s)) =
    countVerdict true cam (objects (store s)) (preorder (scene s)) /\
  culledObjects (performanceStats (updateFrustumCulling cam s)) =
    countVerdict false cam (objects (store s)) (preorder (scene s)).
Proof.
  unfold updateFrustumCulling.
  pose proof (fold_cull_counts cam (preorder (scene s)) (objects (store s)) 0 0) as E.
  destruct (fold_left (cullStep cam) (preorder (scene s)) (objects (store s), (0, 0)%nat))
    as [h [v c]].
  simpl in *. injection E as -> ->. auto.
Qed.

Lemma verdict_cases (cam : CameraT) (o : Object3D) :
  verdict cam o =
    if isMesh o || isSprite o
    then (fun sp => intersectsSphere cam sp) <$> worldSphere o
    else None.
Proof.
  unfold verdict, cullObject, worldSphere.
  destruct (isMesh o || isSprite o); [|reflexivity].
  destruct (geometry o); reflexivity.
Qed.

Lemma countVerdict_total (cam : CameraT) (h : gmap uuid Object3D) (l : list uuid) :
  (countVerdict true cam h l + countVerdict false cam h l <= length l)%nat.
Proof.
  induction l as [|i l IH].
  - unfold countVerdict. simpl. lia.
  - rewrite (countVerdict_cons true cam h i l), (countVerdict_cons false cam h i l).
    assert (H1 : (countVerdict true cam h [i] + countVerdict false cam h [i] <= 1)%nat).
    { unfold countVerdict. simpl. destruct (h !! i) as [o|]; simpl; [|lia].
      destruct (verdict cam o) as [[|]|]; simpl; lia. }
    simpl length. lia.
Qed.

End CullingCounts.

(** X15. After a culling pass the two counters partition the visits of the
    traversal: visibleObjects is the number of visited meshes and sprites
    with a geometry whose world sphere meets the frustum, culledObjects the
    number of those whose sphere does not, counted on the objects as they
    were before the pass; everything else is not counted, and an object
    counts as visible by the frustum test alone, even when it is hidden. *)
Theorem updateFrustumCulling_counters {L : Optimizer.RenderLibrary}
    (cam : Optimizer.CameraT) (s : Optimizer.PerformanceOptimizer) :
  let s' := Optimizer.updateFrustumCulling cam s in
  Optimizer.visibleObjects (Optimizer.performanceStats s') =
    Optimizer.countVerdict true cam (Optimizer.objects (Optimizer.store s))
      (Optimizer.preorder (Optimizer.scene s)) /\
  Optimizer.culledObjects (Optimizer.performanceStats s') =
    Optimizer.countVerdict false cam (Optimizer.objects (Optimizer.store s))
      (Optimizer.preorder (Optimizer.scene s)) /\
  (Optimizer.visibleObjects (Optimizer.performanceStats s')
   + Optimizer.culledObjects (Optimizer.performanceStats s')
   <= length (Optimizer.preorder (Optimizer.scene s)))%nat /\
  (forall o, Optimizer.verdict cam o =
     if Optimizer.isMesh o || Optimizer.isSprite o
     then (fun sp => Optimizer.intersectsSphere cam sp) <$> Optimizer.worldSphere o
     else None).
Proof.
  intros s'. destruct (updateFrustumCulling_counts cam s) as [Hv Hc].
  split; [exact Hv|]. split; [exact Hc|]. split; [|apply verdict_cases].
  unfold s'. rewrite Hv, Hc. apply countVerdict_total.
Qed.

Section CullingComposition.

Import Optimizer.

Context {L : RenderLibrary}.

Local Abbreviation culled cam o := (fst (cullObject cam o)).

Lemma updateFrustumCulling_shape (cam : CameraT) (s : PerformanceOptimizer) :
  updateFrustumCulling cam s =
    set_performanceStats
      (set_counts (countVerdict true cam (objects (store s)) (preorder (scene s)))
                  (countVerdict false cam (objects (store s)) (preorder (scene s)))
                  (performanceStats s))
      (set_store
         {| objects := fst (fold_left (cullStep cam) (preorder (scene s))
                              (objects (store s), (0, 0)%nat));
            nextId := nextId (store s) |} s).
Proof.
  unfold updateFrustumCulling.
  pose proof (fold_cull_counts cam (preorder (scene s)) (objects (store s)) 0 0) as E.
  destruct (fold_left (cullStep cam) (preorder (scene s)) (objects (store s), (0, 0)%nat))
    as [h [v c]].
  simpl in *. injection E as -> ->. reflexivity.
Qed.

(** X16. A culling pass is a recomputation: a second pass with the same
    camera changes nothing, neither an object nor a counter. *)
Theorem updateFrustumCulling_idempotent (cam : CameraT) (s : PerformanceOptimizer) :
  updateFrustumCulling cam (updateFrustumCulling cam s) = updateFrustumCulling cam s.
Proof.
  rewrite (updateFrustumCulling_shape cam (updateFrustumCulling cam s)).
  rewrite (updateFrustumCulling_shape cam s). simpl.
  set (l := preorder (scene s)). set (h := objects (store s)).
  set (h1 := fst (fold_left (cullStep cam) l (h, (0, 0)%nat))).
  assert (Hl : forall i, h1 !! i = if decide (i ∈ l)
                                   then (fun o => culled cam o) <$> h !! i else h !! i).
  { intros i. apply fold_cull_lookup. }
  assert (Hh : fst (fold_left (cullStep cam) l (h1, (0, 0)%nat)) = h1).
  { apply map_eq. intros i. rewrite fold_cull_lookup, Hl.
    destruct (decide (i ∈ l)); [|reflexivity].
    destruct (h !! i); simpl; [|reflexivity]. rewrite cullObject_idem. reflexivity. }
  assert (Hv : forall i, (h1 !! i) ≫= verdict cam = (h !! i) ≫= verdict cam).
  { intros i. rewrite Hl. destruct (decide (i ∈ l)); [|reflexivity].
    destruct (h !! i); simpl; [apply verdict_culled | reflexivity]. }
  rewrite Hh, (countVerdict_ext true cam h h1 l Hv), (countVerdict_ext false cam h h1 l Hv).
  reflexivity.
Qed.

Lemma cullPasses_captured (cams : list CameraT) :
  forall (s : PerformanceOptimizer) (i : uuid) (o : Object3D),
    objects (store s) !! i = Some o ->
    scene (cullPasses cams s) = scene s /\
    exists o', objects (store (cullPasses cams s)) !! i = Some o' /\
               captured o' = captured o.
Proof.
  induction cams as [|c cams IH]; intros s i o Ho.
  - simpl. split; [reflexivity|]. eauto.
  - change (cullPasses (c :: cams) s) with (cullPasses cams (updateFrustumCulling c s)).
    assert (H1 : exists o1, objects (store (updateFrustumCulling c s)) !! i = Some o1 /\
                            captured o1 = captured o).
    { rewrite updateFrustumCulling_lookup, Ho.
      destruct (decide _); simpl; eauto using captured_culled. }
    destruct H1 as (o1 & Ho1 & Hc1).
    destruct (IH (updateFrustumCulling c s) i o1 Ho1) as (Hs & o' & Ho' & Hc').
    split; [rewrite Hs; apply updateFrustumCulling_scene|].
    exists o'. split; [exact Ho'|]. congruence.
Qed.

Lemma restoreObject_visible (o : Object3D) : visible (restoreObject o) = captured o.
Proof.
  unfold restoreObject, captured. destruct (originallyVisible (userData o)); reflexivity.
Qed.

End CullingComposition.

(** X17. Culling followed by switching culling off gives every object of
    the scene graph its own visibility back: after any number of passes and
    [toggleOptimization('culling', false)], the visible flag of an object
    of the scene graph is the flag captured for it, that is, its
    [originallyVisible] if it had one before the passes and its visible flag
    before the passes otherwise. *)
Theorem culling_then_off_restores {L : Optimizer.RenderLibrary}
    (cams : list Optimizer.CameraT) (s : Optimizer.PerformanceOptimizer)
    (i : Optimizer.uuid) (o : Optimizer.Object3D)
    (Ho : Optimizer.objects (Optimizer.store s) !! i = Some o)
    (Hin : i ∈ Optimizer.preorder (Optimizer.scene s)) :
  exists o',
    Optimizer.objects
      (Optimizer.store
         (Optimizer.toggleOptimization "culling" false (Optimizer.cullPasses cams s))) !! i
      = Some o' /\
    Optimizer.visible o' = Optimizer.captured o /\
    (Optimizer.originallyVisible (Optimizer.userData o) = None ->
     Optimizer.visible o' = Optimizer.visible o).
Proof.
  destruct (cullPasses_captured cams s i o Ho) as (Hs & o1 & Ho1 & Hc1).
  change (Optimizer.toggleOptimization "culling" false (Optimizer.cullPasses cams s))
    with (Optimizer.restoreVisibility
            (Optimizer.set_frustumCullingEnabled false (Optimizer.cullPasses cams s))).
  rewrite restoreVisibility_lookup. simpl.
  destruct (decide _) as [_|Hn]; [|rewrite Hs in Hn; contradiction].
  rewrite Ho1. simpl. eexists. split; [reflexivity|].
  rewrite restoreObject_visible, Hc1. split; [reflexivity|].
  intros Hnone. unfold Optimizer.captured. rewrite Hnone. reflexivity.
Qed.

Lemma culling_then_off_restores_witness :
  let s := Optimizer.sampleOptimizer 60 1 in
  let after := Optimizer.toggleOptimization "culling" false
                 (@Optimizer.cullPasses Optimizer.lineLibrary [(0, 100); (400, 50)] s) in
  Optimizer.visible <$> (Optimizer.objects (Optimizer.store after) !! 2%nat) = Some true /\
  Optimizer.visible <$> (Optimizer.objects (Optimizer.store after) !! 3%nat) = Some false.
Proof.
  intros s after.
  destruct (@culling_then_off_restores Optimizer.lineLibrary [(0, 100); (400, 50)] s 2%nat
              (Optimizer.sampleObject Optimizer.KMesh (Some Optimizer.mergedGeometry) 500 true))
    as (o2 & H2 & V2 & _); [reflexivity | unfold s; simpl; set_solver |].
  destruct (@culling_then_off_restores Optimizer.lineLibrary [(0, 100); (400, 50)] s 3%nat
              (Optimizer.sampleObject Optimizer.KMesh (Some Optimizer.sphereGeometry) 0 false))
    as (o3 & H3 & V3 & _); [reflexivity | unfold s; simpl; set_solver |].
  split.
  - exact (eq_trans (f_equal (fun x => Optimizer.visible <$> x) H2) (f_equal Some V2)).
  - exact (eq_trans (f_equal (fun x => Optimizer.visible <$> x) H3) (f_equal Some V3)).
Defined.

(** ** Stores only grow (js/performance-optimizer.js) *)

Section StoreGrowth.

Import Optimizer.

Lemma extends_refl (st : Store) : extends st st.
Proof. split; auto. Qed.

Lemma extends_trans (a b c : Store) : extends a b -> extends b c -> extends a c.
Proof.
  intros [H1 H2] [H3 H4]. split; [lia|].
  intros j Hj. rewrite H4 by lia. apply H2. exact Hj.
Qed.

Lemma cloneTree_unfold (i : uuid) (ks : list Tree) (st : Store) :
  cloneTree (T i ks) st =
    let i' := nextId st in
    let st0 := {| objects := objects st; nextId := S i' |} in
    let '(ks', st1) := cloneKids ks st0 in
    let renames := zip (map root ks) (map root ks') in
    let st2 :=
      match objects st !! i with
      | Some o =>
          {| objects := <[i' := set_levels (relink renames (levels o)) o]> (objects st1);
             nextId := nextId st1 |}
      | None => st1
      end in
    (T i' ks', st2).
Proof. reflexivity. Qed.

Lemma cloneKids_extends (ks : list Tree) :
  Forall (fun k => forall st, (nextId st < nextId (snd (cloneTree k st)))%nat /\
                              extends st (snd (cloneTree k st))) ks ->
  forall st, extends st (snd (cloneKids ks st)).
Proof.
  induction 1 as [|k ks Hk _ IH]; intros st; simpl.
  - apply extends_refl.
  - destruct (Hk st) as [_ H1]. specialize (IH (snd (cloneTree k st))).
    destruct (cloneTree k st) as [k' s1]. simpl in *.
    destruct (cloneKids ks s1) as [r s2]. simpl in *.
    eapply extends_trans; eassumption.
Qed.

Lemma cloneTree_extends (t : Tree) :
  forall st, (nextId st < nextId (snd (cloneTree t st)))%nat /\
             extends st (snd (cloneTree t st)).
Proof.
  induction t as [i ks IH] using Tree_ind_strong. intros st.
  rewrite cloneTree_unfold. cbv zeta.
  pose proof (cloneKids_extends ks IH
                {| objects := objects st; nextId := S (nextId st) |}) as [H1 H2].
  destruct (cloneKids ks {| objects := objects st; nextId := S (nextId st) |})
    as [ks' st1]. simpl in *.
  destruct (objects st !! i) as [o|]; simpl.
  - split; [lia|]. split; [simpl; lia|].
    intros j Hj. simpl. rewrite lookup_insert_ne by lia. apply H2. lia.
  - split; [lia|]. split; [lia|]. intros j Hj. apply H2. lia.
Qed.

Lemma subtree_root (object : uuid) (scene t : Tree) :
  subtree object scene = Some t -> root t = object.
Proof.
  revert t. induction scene as [j ks IH] using Tree_ind_strong.
  intros t Es. simpl in Es.
  destruct (Nat.eqb object j) eqn:Ej.
  - injection Es as <-. simpl. apply Nat.eqb_eq in Ej. congruence.
  - clear Ej. revert t Es.
    induction IH as [|k ks Hk Hks IHks]; intros t Es; [discriminate|].
    destruct (subtree object k) as [r|] eqn:Ek.
    + injection Es as <-. apply Hk. reflexivity.
    + apply IHks. exact Es.
Qed.

Lemma objectTree_root (object : uuid) (scene : Tree) :
  root (objectTree object scene) = object.
Proof.
  unfold objectTree. destruct (subtree object scene) as [t|] eqn:Es; [|reflexivity].
  apply (subtree_root object scene t Es).
Qed.

Lemma createReducedDetail_extends (object : uuid) (detailLevel : Q) (scene : Tree)
    (st : Store) :
  extends st (snd (createReducedDetail object detailLevel scene st)) /\
  forall reduced, fst (createReducedDetail object detailLevel scene st) = Some reduced ->
                  root reduced = nextId st.
Proof.
  unfold createReducedDetail.
  destruct (objects st !! object) as [o|]; [|split; [apply extends_refl | discriminate]].
  destruct (isMesh o); simpl; [|split; [apply extends_refl | discriminate]].
  destruct (geometry o); [|split; [apply extends_refl | discriminate]].
  destruct (cloneTree_extends (objectTree object scene) st) as [Hn [H1 H2]].
  destruct (cloneTree_root (objectTree object scene) st) as [Hr _].
  destruct (cloneTree (objectTree object scene) st) as [reduced st1]. simpl in *.
  destruct (material o) as [|m|ms]; simpl.
  - split.
    + split; [simpl; lia|]. intros j Hj. simpl.
      rewrite !lookup_alter_ne by lia. apply H2. exact Hj.
    + intros r E. injection E as <-. exact Hr.
  - split.
    + split; [simpl; lia|]. intros j Hj. simpl.
      rewrite !lookup_alter_ne by lia. apply H2. exact Hj.
    + intros r E. injection E as <-. exact Hr.
  - split; [apply extends_refl | discriminate].
Qed.

Lemma createImpostor_extends {L : RenderLibrary} (o : Object3D) (st st' : Store)
    (impostor : uuid) :
  createImpostor o st = Some (impostor, st') ->
  impostor = nextId st /\ extends st st'.
Proof.
  unfold createImpostor, alloc. destruct (boxSize o) as [size|]; [|discriminate].
  intros E. injection E as <- <-. split; [reflexivity|].
  split; [simpl; lia|].
  intros j Hj. simpl. apply lookup_insert_ne. lia.
Qed.

End StoreGrowth.

(** X18. For a mesh whose geometry has a parameters record and whose
    material is one material or none, the reduced-detail construction
    returns a new mesh with a geometry of the same class built from the
    reduced parameters (each segment count the floor of the double-precision
    product) and with the simplified copy of the material.  When the material
    is an array the error raised inside is caught and nothing is returned.
    In every case the construction only adds objects: no object that existed
    before, the original included, is changed. *)
Theorem createReducedDetail_parametric (object : Optimizer.uuid) (detailLevel : Q)
    (scene : Optimizer.Tree) (st : Optimizer.Store) :
  Optimizer.extends st (snd (Optimizer.createReducedDetail object detailLevel scene st)) /\
  (forall o g params,
     Optimizer.objects st !! object = Some o -> Optimizer.isMesh o = true ->
     Optimizer.geometry o = Some g -> Optimizer.parameters g = Some params ->
     (forall ms, Optimizer.material o <> Optimizer.MaterialArray ms) ->
     exists reduced st' r,
       Optimizer.createReducedDetail object detailLevel scene st = (Some reduced, st') /\
       Optimizer.root reduced = Optimizer.nextId st /\
       Optimizer.objects st' !! Optimizer.root reduced = Some r /\
       Optimizer.isMesh r = true /\
       Optimizer.geometry r =
         Some {| Optimizer.geometryClass := Optimizer.geometryClass g;
                 Optimizer.parameters := Some (Optimizer.reduceParams detailLevel params);
                 Optimizer.boundingSphere := None |} /\
       Optimizer.material r =
         match Optimizer.material o with
         | Optimizer.OneMaterial m =>
             Optimizer.OneMaterial (Optimizer.simplifyMaterial detailLevel m)
         | other => other
         end) /\
  (forall o ms,
     Optimizer.objects st !! object = Some o ->
     Optimizer.material o = Optimizer.MaterialArray ms ->
     Optimizer.createReducedDetail object detailLevel scene st = (None, st)).
Proof.
  split; [apply createReducedDetail_extends|]. split.
  - intros o g params Ho Hm Hg Hp Hmat.
    destruct (createReducedDetail_extends object detailLevel scene st) as [_ Hroot].
    revert Hroot. unfold Optimizer.createReducedDetail. rewrite Ho, Hm, Hg. simpl.
    destruct (cloneTree_root (Optimizer.objectTree object scene) st) as [Hr Hl].
    rewrite objectTree_root in Hl. destruct (Hl o Ho) as [ls Hls].
    destruct (Optimizer.cloneTree (Optimizer.objectTree object scene) st) as [reduced st1].
    simpl in *.
    destruct (Optimizer.material o) as [|m|ms] eqn:Em;
      [| |exfalso; apply (Hmat ms); reflexivity].
    + intros _. eexists _, _, _. split; [reflexivity|]. simpl.
      split; [exact Hr|].
      rewrite Hr. rewrite lookup_alter_eq, lookup_alter_eq, Hls. simpl.
      rewrite Hg, Hp. simpl. rewrite Em. auto.
    + intros _. eexists _, _, _. split; [reflexivity|]. simpl.
      split; [exact Hr|].
      rewrite Hr. rewrite lookup_alter_eq, lookup_alter_eq, Hls. simpl.
      rewrite Hg, Hp. simpl. rewrite Em. auto.
  - intros o ms Ho Em. unfold Optimizer.createReducedDetail. rewrite Ho.
    destruct (Optimizer.isMesh o); [|reflexivity]. simpl.
    destruct (Optimizer.geometry o) as [g|]; [|reflexivity].
    destruct (Optimizer.cloneTree (Optimizer.objectTree object scene) st) as [reduced st1].
    rewrite Em. reflexivity.
Qed.

Lemma createReducedDetail_parametric_witness :
  (exists reduced st' r,
     Optimizer.createReducedDetail 1%nat (Float.fl 0.3) Optimizer.sampleScene
       Optimizer.sampleStore = (Some reduced, st') /\
     Optimizer.objects st' !! Optimizer.root reduced = Some r /\
     Optimizer.geometry r =
       Some {| Optimizer.geometryClass := "SphereGeometry";
               Optimizer.parameters :=
                 Some [("radius", 1); ("widthSegments", 9); ("heightSegments", 4)];
               Optimizer.boundingSphere := None |}) /\
  (let st := Optimizer.modify 1%nat
               (Optimizer.set_material
                  (Optimizer.MaterialArray [Optimizer.sampleMaterial; Optimizer.sampleMaterial]))
               Optimizer.sampleStore in
   Optimizer.createReducedDetail 1%nat (Float.fl 0.3) Optimizer.sampleScene st = (None, st)).
Proof.
  split.
  - destruct (createReducedDetail_parametric 1%nat (Float.fl 0.3)
                Optimizer.sampleScene Optimizer.sampleStore) as [_ [H _]].
    destruct (H (Optimizer.sampleObject Optimizer.KMesh (Some Optimizer.sphereGeometry) 0 true)
                Optimizer.sphereGeometry
                [("radius", 1); ("widthSegments", 32); ("heightSegments", 16)])
      as (reduced & st' & r & E & _ & Hr & _ & Hg & _);
      try reflexivity; [intros ms; discriminate|].
    exists reduced, st', r. split; [exact E|]. split; [exact Hr|].
    rewrite Hg. vm_compute. reflexivity.
  - intros st.
    destruct (createReducedDetail_parametric 1%nat (Float.fl 0.3)
                Optimizer.sampleScene st) as [_ [_ H]].
    apply (H (Optimizer.set_material
                (Optimizer.MaterialArray [Optimizer.sampleMaterial; Optimizer.sampleMaterial])
                (Optimizer.sampleObject Optimizer.KMesh (Some Optimizer.sphereGeometry) 0 true))
             [Optimizer.sampleMaterial; Optimizer.sampleMaterial]).
    + reflexivity.
    + reflexivity.
Defined.

(** ** What registration builds (js/performance-optimizer.js) *)

Section RegistrationResult.

Import Optimizer.

Variables (lod : uuid) (base : gmap uuid Object3D) (blank : Object3D).

Local Abbreviation tracked st ls :=
  (Nat.lt lod (nextId st) /\
   objects st !! lod = Some (set_levels ls blank) /\
   forall j, Nat.lt j lod -> objects st !! j = base !! j).

Lemma tracked_extends (st st' : Store) (ls : list Level) :
  tracked st ls -> extends st st' -> tracked st' ls.
Proof.
  intros (Hn & Hl & Hb) [He1 He2]. split; [lia|]. split.
  - rewrite He2 by exact Hn. exact Hl.
  - intros j Hj. rewrite He2 by lia. apply Hb. exact Hj.
Qed.

Lemma tracked_addLevel (st : Store) (ls : list Level) (x : uuid) (d : Q) :
  tracked st ls ->
  tracked (addLevel lod x d st)
          (insertLevel {| levelDistance := Qabs d; levelObject := x |} ls).
Proof.
  intros (Hn & Hl & Hb). unfold addLevel, modify. simpl. split; [exact Hn|]. split.
  - rewrite lookup_alter_eq, Hl. reflexivity.
  - intros j Hj. rewrite lookup_alter_ne by lia. apply Hb. exact Hj.
Qed.

End RegistrationResult.

Lemma Qabs_nonneg_eq (x : Q) : 0 <= x -> Qabs x = x.
Proof.
  destruct x as [n d]. unfold Qle, Qabs. simpl. intros H.
  rewrite Z.abs_eq by lia. reflexivity.
Qed.

Lemma insertLevel_last (lv : Optimizer.Level) (ls : list Optimizer.Level) :
  Forall (fun x => Optimizer.levelDistance x <= Optimizer.levelDistance lv) ls ->
  Optimizer.insertLevel lv ls = ls ++ [lv].
Proof.
  induction 1 as [|x ls Hx _ IH]; simpl; [reflexivity|].
  destruct (Qlt_le_dec (Optimizer.levelDistance lv) (Optimizer.levelDistance x)) as [H|H].
  - exfalso. apply (Qlt_not_le _ _ H Hx).
  - rewrite IH. reflexivity.
Qed.

Ltac original_entry N T Hwf Ho :=
  match type of N with
  | _ <-> match ?e with _ => _ end =>
      let Eo := fresh "Eo" in
      assert (Eo : e = Some _) by exact (eq_trans (T _ Hwf) Ho);
      rewrite Eo in N; clear Eo
  end.

(** X19. Registering a mesh of the scene graph that is not yet registered,
    that has a geometry and whose bounding box can be computed (thresholds
    d0 <= d1 <= d2, none negative) allocates the LOD at the next free identity
    and records it in the registry under the object.  The LOD has the
    transform of the object and the object's user data with [originalObject]
    pointing back at it.  Its level table has the distances 0, d0, d1, d2 in
    this order when the material of the mesh is one material or none; when
    the material is an array both reduced levels are missing and the table is
    0, d2: the full-detail clone and the impostor.  The thresholds are left
    as they were, and no object that existed before is changed. *)
Theorem createLODForObject_levels {L : Optimizer.RenderLibrary}
    (object parent : Optimizer.uuid) (s : Optimizer.PerformanceOptimizer)
    (o : Optimizer.Object3D) (g : Optimizer.Geometry) (size : Vector3) (d0 d1 d2 : Q)
    (Hwf : (object < Optimizer.nextId (Optimizer.store s))%nat)
    (Ho : Optimizer.objects (Optimizer.store s) !! object = Some o)
    (Hm : Optimizer.isMesh o = true)
    (Hg : Optimizer.geometry o = Some g)
    (Hb : Optimizer.boxSize o = Some size)
    (Hl : Optimizer.lodObjects s !! object = None)
    (Hp : Optimizer.parentOf object (Optimizer.scene s) = Some parent)
    (Hd : Optimizer.lodDistances s = [d0; d1; d2])
    (H0 : 0 <= d0) (H1 : d0 <= d1) (H2 : d1 <= d2) :
  let lod := Optimizer.nextId (Optimizer.store s) in
  exists s' lodObject,
    Optimizer.createLODForObject object s = Some s' /\
    Optimizer.lodObjects s' = <[object := lod]> (Optimizer.lodObjects s) /\
    Optimizer.lodDistances s' = Optimizer.lodDistances s /\
    Optimizer.objects (Optimizer.store s') !! lod = Some lodObject /\
    Optimizer.kind lodObject = Optimizer.KLOD /\
    Optimizer.position lodObject = Optimizer.position o /\
    Optimizer.rotation lodObject = Optimizer.rotation o /\
    Optimizer.scale lodObject = Optimizer.scale o /\
    Optimizer.userData lodObject =
      Optimizer.set_originalObject (Some object) (Optimizer.userData o) /\
    map Optimizer.levelDistance (Optimizer.levels lodObject) =
      match Optimizer.material o with
      | Optimizer.MaterialArray _ => [0; d2]
      | _ => [0; d0; d1; d2]
      end /\
    (forall j, (j < lod)%nat ->
       Optimizer.objects (Optimizer.store s') !! j
       = Optimizer.objects (Optimizer.store s) !! j).
Proof.
  intros lod.
  assert (E0 : Qabs 0 = 0) by reflexivity.
  assert (A0 : Qabs d0 = d0) by (apply Qabs_nonneg_eq; exact H0).
  assert (A1 : Qabs d1 = d1) by (apply Qabs_nonneg_eq; lra).
  assert (A2 : Qabs d2 = d2) by (apply Qabs_nonneg_eq; lra).
  assert (Hcase : (exists ms, Optimizer.material o = Optimizer.MaterialArray ms) \/
                  (forall ms, Optimizer.material o <> Optimizer.MaterialArray ms)).
  { destruct (Optimizer.material o) as [|m0|ms];
      [right; intros ms; discriminate | right; intros ms; discriminate | left].
    exists ms. reflexivity. }
  unfold Optimizer.createLODForObject. rewrite Ho, Hm, Hl.
  cbn [negb orb]. rewrite bool_decide_eq_false_2 by (intros [x Hx]; discriminate).
  unfold Optimizer.lodDistance. rewrite Hd, Hp.
  unfold Optimizer.alloc. cbv beta iota zeta. cbn [lookup list_lookup].
  fold lod.
  set (blank := Optimizer.newLOD o). set (base := Optimizer.objects (Optimizer.store s)).
  set (st0 := {| Optimizer.objects := <[lod := blank]> base; Optimizer.nextId := S lod |}).
  assert (T0 : Nat.lt lod (Optimizer.nextId st0) /\
               Optimizer.objects st0 !! lod = Some (Optimizer.set_levels [] blank) /\
               forall j, Nat.lt j lod -> Optimizer.objects st0 !! j = base !! j).
  { unfold st0. simpl. split; [unfold Nat.lt; lia|]. split; [apply lookup_insert_eq|].
    intros j Hj. apply lookup_insert_ne. unfold Nat.lt in Hj. lia. }
  (* level 0 *)
  match goal with
  | |- context [Optimizer.cloneTree ?t ?st] =>
      pose proof (cloneTree_extends t st) as [_ X1];
      destruct (Optimizer.cloneTree t st) as [high st1]
  end.
  cbn [fst snd] in X1.
  pose proof (tracked_extends lod base blank _ _ _ T0 X1) as T1.
  pose proof (tracked_addLevel lod base blank _ _ (Optimizer.root high) 0 T1) as T2.
  rewrite E0 in T2. simpl Optimizer.insertLevel in T2.
  (* level 1 *)
  match goal with
  | |- context [Optimizer.createReducedDetail ?a ?b ?c ?d] =>
      pose proof (createReducedDetail_extends a b c d) as [X3 _];
      pose proof (createReducedDetail_null a b c d) as N3;
      destruct (Optimizer.createReducedDetail a b c d) as [medium st3]
  end.
  cbn [fst snd] in X3, N3.
  destruct T2 as (T2a & T2b & T2c). original_entry N3 T2c Hwf Ho.
  rewrite Hm, Hg in N3.
  pose proof (tracked_extends lod base blank _ _ _ (conj T2a (conj T2b T2c)) X3) as T3.
  destruct Hcase as [[ms Em] | Hone].
  - (* a material array: the error is caught twice, no reduced level *)
    destruct medium as [m|];
      [exfalso; destruct N3 as [_ N3];
       assert (E : Some m = None) by (apply N3; right; right; exists ms; exact Em);
       discriminate|].
    clear N3. cbv beta iota zeta.
    match goal with
    | |- context [Optimizer.createReducedDetail ?a ?b ?c ?d] =>
        pose proof (createReducedDetail_extends a b c d) as [X5 _];
        pose proof (createReducedDetail_null a b c d) as N5;
        destruct (Optimizer.createReducedDetail a b c d) as [low st5]
    end.
    cbn [fst snd] in X5, N5.
    destruct T3 as (T3a & T3b & T3c). original_entry N5 T3c Hwf Ho.
    pose proof (tracked_extends lod base blank _ _ _ (conj T3a (conj T3b T3c)) X5) as T5.
    destruct low as [lw|];
      [exfalso; destruct N5 as [_ N5];
       assert (E : Some lw = None) by (apply N5; right; right; exists ms; exact Em);
       discriminate|].
    clear N5. cbv beta iota zeta.
    match goal with
    | |- context [Optimizer.createImpostor ?a ?b] =>
        destruct (Optimizer.createImpostor a b) as [[impostor st7]|] eqn:Ei;
        [pose proof (createImpostor_extends a b st7 impostor Ei) as [_ X7]
        |exfalso; unfold Optimizer.createImpostor in Ei; rewrite Hb in Ei; discriminate]
    end.
    pose proof (tracked_extends lod base blank _ _ _ T5 X7) as T7.
    pose proof (tracked_addLevel lod base blank _ _ impostor d2 T7) as T8.
    rewrite A2 in T8.
    rewrite insertLevel_last in T8 by (repeat constructor; simpl; lra).
    destruct T8 as (T8a & T8b & T8c).
    eexists _, _. split; [reflexivity|]. cbn [Optimizer.lodObjects Optimizer.lodDistances
                                              Optimizer.store].
    split; [reflexivity|]. split; [reflexivity|]. split.
    { unfold Optimizer.modify. cbn [Optimizer.objects].
      rewrite lookup_alter_eq, T8b. reflexivity. }
    rewrite Em. cbn. repeat split.
    intros j Hj. unfold Optimizer.modify. cbn [Optimizer.objects].
    rewrite lookup_alter_ne by lia. apply T8c. exact Hj.
  - (* one material or none: both reduced levels exist *)
    destruct medium as [m|];
      [|exfalso; destruct N3 as [N3 _];
        destruct (N3 eq_refl) as [N | [N | [ms N]]];
        [discriminate | discriminate | exact (Hone ms N)]].
    clear N3.
    pose proof (tracked_addLevel lod base blank _ _ (Optimizer.root m) d0 T3) as T4.
    rewrite A0 in T4.
    rewrite insertLevel_last in T4 by (repeat constructor; simpl; exact H0).
    cbv beta iota zeta.
    match goal with
    | |- context [Optimizer.createReducedDetail ?a ?b ?c ?d] =>
        pose proof (createReducedDetail_extends a b c d) as [X5 _];
        pose proof (createReducedDetail_null a b c d) as N5;
        destruct (Optimizer.createReducedDetail a b c d) as [low st5]
    end.
    cbn [fst snd] in X5, N5.
    destruct T4 as (T4a & T4b & T4c). original_entry N5 T4c Hwf Ho.
    rewrite Hm, Hg in N5.
    pose proof (tracked_extends lod base blank _ _ _ (conj T4a (conj T4b T4c)) X5) as T5.
    destruct low as [lw|];
      [|exfalso; destruct N5 as [N5 _];
        destruct (N5 eq_refl) as [N | [N | [ms N]]];
        [discriminate | discriminate | exact (Hone ms N)]].
    clear N5.
    pose proof (tracked_addLevel lod base blank _ _ (Optimizer.root lw) d1 T5) as T6.
    rewrite A1 in T6.
    rewrite insertLevel_last in T6 by (repeat constructor; simpl; lra).
    cbv beta iota zeta.
    match goal with
    | |- context [Optimizer.createImpostor ?a ?b] =>
        destruct (Optimizer.createImpostor a b) as [[impostor st7]|] eqn:Ei;
        [pose proof (createImpostor_extends a b st7 impostor Ei) as [_ X7]
        |exfalso; unfold Optimizer.createImpostor in Ei; rewrite Hb in Ei; discriminate]
    end.
    pose proof (tracked_extends lod base blank _ _ _ T6 X7) as T7.
    pose proof (tracked_addLevel lod base blank _ _ impostor d2 T7) as T8.
    rewrite A2 in T8.
    rewrite insertLevel_last in T8 by (repeat constructor; simpl; lra).
    destruct T8 as (T8a & T8b & T8c).
    eexists _, _. split; [reflexivity|]. cbn [Optimizer.lodObjects Optimizer.lodDistances
                                              Optimizer.store].
    split; [reflexivity|]. split; [reflexivity|]. split.
    { unfold Optimizer.modify. cbn [Optimizer.objects].
      rewrite lookup_alter_eq, T8b. reflexivity. }
    assert (Elv : match Optimizer.material o with
                  | Optimizer.MaterialArray _ => [0; d2]
                  | _ => [0; d0; d1; d2]
                  end = [0; d0; d1; d2]).
    { destruct (Optimizer.material o) as [|m0|ms] eqn:Em; [reflexivity | reflexivity |].
      exfalso. apply (Hone ms). reflexivity. }
    rewrite Elv. cbn. repeat split.
    intros j Hj. unfold Optimizer.modify. cbn [Optimizer.objects].
    rewrite lookup_alter_ne by lia. apply T8c. exact Hj.
Qed.

Lemma createLODForObject_levels_witness :
  (exists s' lodObject,
     @Optimizer.createLODForObject Optimizer.lineLibrary 1%nat (Optimizer.sampleOptimizer 60 1)
       = Some s' /\
     Optimizer.lodObjects s' !! 1%nat = Some 4%nat /\
     Optimizer.objects (Optimizer.store s') !! 4%nat = Some lodObject /\
     Optimizer.kind lodObject = Optimizer.KLOD /\
     map Optimizer.levelDistance (Optimizer.levels lodObject) = [0; 50; 150; 300]) /\
  (let arrayed :=
     Optimizer.set_material
       (Optimizer.MaterialArray [Optimizer.sampleMaterial; Optimizer.sampleMaterial])
       (Optimizer.sampleObject Optimizer.KMesh (Some Optimizer.sphereGeometry) 0 true) in
   let s := Optimizer.set_store
              (Optimizer.modify 1%nat (fun _ => arrayed) Optimizer.sampleStore)
              (Optimizer.sampleOptimizer 60 1) in
   exists s' lodObject,
     @Optimizer.createLODForObject Optimizer.lineLibrary 1%nat s = Some s' /\
     Optimizer.objects (Optimizer.store s') !! 4%nat = Some lodObject /\
     map Optimizer.levelDistance (Optimizer.levels lodObject) = [0; 300]).
Proof.
  split.
  - pose proof (@createLODForObject_levels Optimizer.lineLibrary 1%nat 0%nat
                  (Optimizer.sampleOptimizer 60 1)
                  (Optimizer.sampleObject Optimizer.KMesh (Some Optimizer.sphereGeometry) 0 true)
                  Optimizer.sphereGeometry
                  (Optimizer.scale
                     (Optimizer.sampleObject Optimizer.KMesh
                        (Some Optimizer.sphereGeometry) 0 true))
                  50 150 300) as H.
    destruct H as (s' & lodObject & E & Hr & _ & Ho & Hk & _ & _ & _ & _ & Hlv & _).
    + vm_compute. lia.
    + reflexivity.
    + reflexivity.
    + reflexivity.
    + reflexivity.
    + reflexivity.
    + reflexivity.
    + reflexivity.
    + vm_compute. discriminate.
    + vm_compute. discriminate.
    + vm_compute. discriminate.
    + exists s', lodObject. split; [exact E|]. split.
      * rewrite Hr. apply lookup_insert_eq.
      * split; [exact Ho|]. split; [exact Hk|]. exact Hlv.
  - intros arrayed s.
    pose proof (@createLODForObject_levels Optimizer.lineLibrary 1%nat 0%nat s arrayed
                  Optimizer.sphereGeometry (Optimizer.scale arrayed) 50 150 300) as H.
    destruct H as (s' & lodObject & E & _ & _ & Ho & _ & _ & _ & _ & _ & Hlv & _).
    + vm_compute. lia.
    + reflexivity.
    + reflexivity.
    + reflexivity.
    + reflexivity.
    + reflexivity.
    + reflexivity.
    + reflexivity.
    + vm_compute. discriminate.
    + vm_compute. discriminate.
    + vm_compute. discriminate.
    + exists s', lodObject. split; [exact E|]. split; [exact Ho | exact Hlv].
Defined.


(** ** The pools in the report and after dispose (js/performance-optimizer.js) *)

Section PoolReport.

Import Optimizer.

Lemma runPoolOp_names (s : PerformanceOptimizer) (op : PoolOp) (name : string) :
  is_Some (objectPools (runPoolOp s op) !! name) <-> is_Some (objectPools s !! name).
Proof.
  destruct op as [n|n o]; simpl.
  - unfold getFromPool. destruct (objectPools s !! n) as [pool|] eqn:E; [|reflexivity].
    destruct (0 <? length pool)%nat; [|reflexivity]. simpl.
    rewrite lookup_insert_is_Some. split.
    + intros [<- | [_ H]]; [rewrite E; eexists; reflexivity | exact H].
    + intros H. destruct (decide (n = name)) as [e|ne]; [left; exact e | right; split; assumption].
  - unfold returnToPool. destruct (objectPools s !! n) as [pool|] eqn:E; [|reflexivity].
    destruct (length pool <? 100)%nat; [|reflexivity]. simpl.
    rewrite lookup_insert_is_Some. split.
    + intros [<- | [_ H]]; [rewrite E; eexists; reflexivity | exact H].
    + intros H. destruct (decide (n = name)) as [e|ne]; [left; exact e | right; split; assumption].
Qed.

Lemma runPoolOps_names (ops : list PoolOp) :
  forall s name,
    is_Some (objectPools (runPoolOps ops s) !! name) <-> is_Some (objectPools s !! name).
Proof.
  induction ops as [|op ops IH]; intros s name; [reflexivity|].
  unfold runPoolOps. simpl. fold (runPoolOps ops (runPoolOp s op)).
  rewrite IH. apply runPoolOp_names.
Qed.

Lemma pooled_sum_bound (m : gmap string (list uuid)) :
  (forall name pool, m !! name = Some pool -> (length pool <= 100)%nat) ->
  (map_fold (fun (_ : string) (pool : list uuid) (sum : nat) => (sum + length pool)%nat)
     0%nat m <= 100 * size m)%nat.
Proof.
  apply (map_fold_weak_ind
           (fun (r : nat) (m : gmap string (list uuid)) =>
              (forall name pool, m !! name = Some pool -> (length pool <= 100)%nat) ->
              (r <= 100 * size m)%nat)).
  - intros _. rewrite map_size_empty. lia.
  - intros i x m' r Hi IH Hb. rewrite map_size_insert_None by exact Hi.
    assert (Hx : (length x <= 100)%nat) by (apply (Hb i); apply lookup_insert_eq).
    assert (Hr : (r <= 100 * size m')%nat).
    { apply IH. intros name pool Hn. apply (Hb name).
      rewrite lookup_insert_ne; [exact Hn|]. intros ->. rewrite Hi in Hn. discriminate. }
    lia.
Qed.

Lemma same_names_size (m1 m2 : gmap string (list uuid)) :
  (forall name, is_Some (m1 !! name) <-> is_Some (m2 !! name)) -> size m1 = size m2.
Proof.
  intros H. rewrite <- !size_dom. f_equal. apply set_eq. intros name.
  rewrite !elem_of_dom. apply H.
Qed.

End PoolReport.

(** X20. The pool operations never create or drop a pool: after any
    sequence of [getFromPool] and [returnToPool] on a constructed optimizer
    the pools are exactly "particles" and "temporary", whatever names the
    calls used, and the report of [getPerformanceStats] counts at most 200
    pooled objects. *)
Theorem pooled_objects_report (ops : list Optimizer.PoolOp) (st : Optimizer.Store)
    (sc : Optimizer.Tree) (ratio dpr now : Q) :
  let s := Optimizer.runPoolOps ops (Optimizer.constructed st sc ratio dpr now) in
  (forall name, is_Some (Optimizer.objectPools s !! name) <->
                name = "particles" \/ name = "temporary") /\
  (Optimizer.reportPooledObjects (Optimizer.getPerformanceStats s) <= 200)%nat.
Proof.
  intros s.
  assert (Hn : forall name,
             is_Some (Optimizer.objectPools (Optimizer.constructed st sc ratio dpr now) !! name)
             <-> name = "particles" \/ name = "temporary").
  { intros name. unfold Optimizer.constructed. simpl.
    rewrite !lookup_insert_is_Some. split.
    - intros [<- | [_ [<- | [_ H]]]]; [right; reflexivity | left; reflexivity |].
      destruct H as [x Hx]. rewrite lookup_empty in Hx. discriminate.
    - intros [-> | ->]; [right; split; [discriminate|left; reflexivity] | left; reflexivity]. }
  split.
  - intros name. unfold s. rewrite runPoolOps_names. apply Hn.
  - unfold Optimizer.getPerformanceStats. simpl.
    etransitivity.
    + apply pooled_sum_bound. apply runPoolOps_bounded, constructed_bounded.
    + unfold s.
      rewrite (same_names_size _ (Optimizer.objectPools
                                    (Optimizer.constructed st sc ratio dpr now)))
        by (intros name; apply runPoolOps_names).
      unfold Optimizer.constructed. simpl.
      rewrite !map_size_insert_None, map_size_empty by
        (rewrite ?lookup_insert_ne by discriminate; apply lookup_empty).
      lia.
Qed.



(** ** The registry of the world manager (js/performance-optimizer.js) *)

Section Registry.

Import World.

(** A string that holds no underscore. *)
Local Abbreviation plain s := (forall a b : string, s <> a +:+ "_" +:+ b).

Lemma plain_empty : plain EmptyString.
Proof. intros [|c a] b; discriminate. Qed.

Lemma plain_String (c : Ascii.ascii) (s : string) :
  c <> "_"%char -> plain s -> plain (String c s).
Proof.
  intros Hc Hs [|c' a] b; simpl; intros E.
  - injection E as E1 E2. apply Hc. exact E1.
  - injection E as E1 E2. exact (Hs a b E2).
Qed.

Lemma pretty_N_char_plain (x : N) : pretty_N_char x <> "_"%char.
Proof. unfold pretty_N_char. repeat case_match; discriminate. Qed.

Lemma pretty_N_go_plain (x : N) : forall s, plain s -> plain (pretty_N_go x s).
Proof.
  induction (N.lt_wf_0 x) as [x _ IH]. intros s Hs.
  destruct (decide (x = 0%N)) as [->|Hx].
  - rewrite pretty_N_go_0. exact Hs.
  - rewrite pretty_N_go_step by lia. apply IH.
    + apply N.div_lt; lia.
    + apply plain_String; [apply pretty_N_char_plain | exact Hs].
Qed.

Lemma pretty_nat_plain (n : nat) : plain (pretty n).
Proof.
  unfold pretty, pretty_nat, pretty, pretty_N.
  destruct (decide (N.of_nat n = 0%N)).
  - apply plain_String; [discriminate | apply plain_empty].
  - apply pretty_N_go_plain, plain_empty.
Qed.

Lemma objectId_counter (t1 t2 : string) (n1 n2 : nat) :
  objectId t1 n1 = objectId t2 n2 -> n1 = n2.
Proof.
  unfold objectId. revert t2. induction t1 as [|c t1 IH]; intros [|c2 t2]; simpl; intros E.
  - injection E as E. apply (inj pretty). exact E.
  - injection E as E1 E2. exfalso. exact (pretty_nat_plain n1 _ _ E2).
  - injection E as E1 E2. exfalso. symmetry in E2. exact (pretty_nat_plain n2 _ _ E2).
  - injection E as E1 E2. exact (IH t2 E2).
Qed.

Lemma issued_constructed (h : gmap ref Entity) (children : list ref) :
  issued (constructed h children).
Proof.
  intros id [x Hx]. simpl in Hx. rewrite lookup_empty in Hx. discriminate.
Qed.

Lemma registerObject_unused (type : string) (w : WorldManager) :
  issued w -> objects w !! objectId type (objectIdCounter w) = None.
Proof.
  intros Hw. destruct (objects w !! objectId type (objectIdCounter w)) as [x|] eqn:E;
    [|reflexivity].
  destruct (Hw _ (ex_intro _ x E)) as (t & n & Hid & Hn).
  apply objectId_counter in Hid. lia.
Qed.

Lemma issued_registerObject (type : string) (object : ref) (w : WorldManager) :
  issued w -> issued (snd (registerObject type object w)).
Proof.
  intros Hw id. simpl. rewrite lookup_insert_is_Some. intros [<- | [_ H]].
  - exists type, (objectIdCounter w). split; [reflexivity | lia].
  - destruct (Hw id H) as (t & n & Hid & Hn). exists t, n. split; [exact Hid | lia].
Qed.

Lemma issued_removeObject (id : string) (w : WorldManager) :
  issued w -> issued (removeObject id w).
Proof.
  intros Hw. unfold removeObject. destruct (objects w !! id) as [object|]; [|exact Hw].
  intros id'. simpl. rewrite lookup_delete_is_Some. intros [_ H]. exact (Hw id' H).
Qed.

End Registry.

(** X22. In a manager whose identifiers were all issued by
    [registerObject], as they are from the constructor on, a registration
    never overwrites an entry: the identifier it returns is not in use, the
    object count of [getWorldStats] grows by one, the other entries are as
    before, and removing the new identifier gives back the registry as it
    was.  Both operations keep the identifiers issued. *)
Theorem registerObject_fresh (type : string) (object : World.ref) (w : World.WorldManager)
    (Hw : World.issued w) :
  let id := fst (World.registerObject type object w) in
  let w' := snd (World.registerObject type object w) in
  World.objects w !! id = None /\
  World.objects w' !! id = Some object /\
  (forall id', id' <> id -> World.objects w' !! id' = World.objects w !! id') /\
  World.totalObjects (World.getWorldStats w')
    = S (World.totalObjects (World.getWorldStats w)) /\
  World.objects (World.removeObject id w') = World.objects w /\
  World.issued w' /\
  (forall id0, World.issued (World.removeObject id0 w)).
Proof.
  intros id w'. pose proof (registerObject_unused type w Hw) as Hn.
  split; [exact Hn|]. split; [apply lookup_insert_eq|]. split.
  { intros id' Hne. simpl. apply lookup_insert_ne. intros E. apply Hne. symmetry. exact E. }
  split; [simpl; apply map_size_insert_None; exact Hn|]. split.
  { unfold World.removeObject. subst w'. simpl. fold id.
    rewrite lookup_insert_eq. simpl. apply delete_insert_id. exact Hn. }
  split; [apply issued_registerObject; exact Hw|].
  intros id0. apply issued_removeObject. exact Hw.
Qed.

Lemma registerObject_fresh_witness :
  let w := snd (World.registerObject "tree" 5%nat (World.constructed ∅ [5%nat; 7%nat])) in
  World.issued w /\
  fst (World.registerObject "npc" 7%nat w) = "npc_1" /\
  World.objects w !! "npc_1" = None /\
  World.totalObjects (World.getWorldStats (snd (World.registerObject "npc" 7%nat w)))
    = 2%nat.
Proof.
  intros w.
  assert (Hw : World.issued w)
    by (apply issued_registerObject, issued_constructed).
  destruct (registerObject_fresh "npc" 7%nat w Hw) as (H1 & _ & _ & H4 & _).
  split; [exact Hw|]. split; [reflexivity|]. split; [exact H1 | exact H4].
Defined.


(** ** Talking to an NPC (js/performance-optimizer.js) *)

Section Dialogue.

Import World.

(** The number of interactions in a run of events. *)
Local Abbreviation interactions events :=
  (length (List.filter (fun e => match e with Interact => true | Timeout => false end)
             events)).

Lemma run_dialogue (d : list string) (events : list Event) :
  forall (timers : list Q) (shown : list string) (npc : Entity),
    dialogue npc = Some d -> (dialogueIndex npc < length d)%nat ->
    exists timers' npc',
      run events (timers, shown, npc) =
        (timers',
         shown ++ map (fun j => "NPC: " +:+ line d ((dialogueIndex npc + j) mod length d))
                      (seq 0 (interactions events)),
         npc') /\
      dialogue npc' = Some d /\
      dialogueIndex npc' = ((dialogueIndex npc + interactions events) mod length d)%nat.
Proof.
  induction events as [|e events IH]; intros timers shown npc Hd Hi.
  - exists timers, npc. simpl. rewrite app_nil_r, Nat.add_0_r, Nat.mod_small by exact Hi.
    repeat split. exact Hd.
  - destruct e.
    + unfold run. simpl fold_left. unfold interactWithNPC. rewrite Hd.
      apply Nat.ltb_lt in Hi as Hb. rewrite Hb. cbv beta iota zeta.
      apply Nat.ltb_lt in Hb.
      set (npc1 := set_rotation_y _ _).
      assert (Hd1 : dialogue npc1 = Some d) by exact Hd.
      assert (Hi1 : (dialogueIndex npc1 < length d)%nat).
      { unfold npc1. simpl. apply Nat.mod_upper_bound. lia. }
      destruct (IH (timers ++ [rotation_y npc])
                  (shown ++ ["NPC: " +:+ line d (dialogueIndex npc)]) npc1 Hd1 Hi1)
        as (timers' & npc' & Hrun & Hd' & Hi').
      exists timers', npc'. split; [|split; [exact Hd'|]].
      * unfold run in Hrun. simpl rotation_y. rewrite Hrun. f_equal. f_equal.
        rewrite <- app_assoc. f_equal.
        change (interactions (Interact :: events)) with (S (interactions events)).
        cbn [seq map app]. rewrite <- seq_shift, map_map. f_equal.
        { rewrite Nat.add_0_r, Nat.mod_small by exact Hi. reflexivity. }
        apply map_ext. intros j.
        unfold npc1. simpl dialogueIndex. rewrite Nat.Div0.add_mod_idemp_l.
        f_equal. f_equal. f_equal. lia.
      * rewrite Hi'. unfold npc1. simpl. rewrite Nat.Div0.add_mod_idemp_l. f_equal. lia.
    + unfold run. simpl fold_left. destruct timers as [|r rest].
      * apply (IH [] shown npc Hd Hi).
      * apply (IH rest shown (set_rotation_y r npc) Hd Hi).
Qed.

Lemma run_stuck (events : list Event) :
  forall (timers : list Q) (shown : list string) (npc : Entity),
    match dialogue npc with
    | Some d => (length d <= dialogueIndex npc)%nat
    | None => True
    end ->
    exists timers' npc',
      run events (timers, shown, npc) = (timers', shown, npc') /\
      dialogue npc' = dialogue npc /\ dialogueIndex npc' = dialogueIndex npc.
Proof.
  induction events as [|e events IH]; intros timers shown npc Hs.
  - exists timers, npc. repeat split.
  - destruct e.
    + unfold run. simpl fold_left. unfold interactWithNPC.
      destruct (dialogue npc) as [d|] eqn:Hd.
      * apply Nat.ltb_ge in Hs as Hb. rewrite Hb. cbv beta iota zeta.
        destruct (IH (timers ++ [rotation_y npc]) shown
                    (set_rotation_y (rotation_y npc + 0.2) npc)) as (t' & n' & H1 & H2 & H3).
        { simpl. rewrite Hd. exact Hs. }
        exists t', n'. split; [exact H1|]. split; [rewrite H2; simpl; exact Hd | exact H3].
      * cbv beta iota zeta.
        destruct (IH (timers ++ [rotation_y npc]) shown
                    (set_rotation_y (rotation_y npc + 0.2) npc)) as (t' & n' & H1 & H2 & H3).
        { simpl. rewrite Hd. exact I. }
        exists t', n'. split; [exact H1|]. split; [rewrite H2; simpl; exact Hd | exact H3].
    + unfold run. simpl fold_left. destruct timers as [|r rest].
      * apply (IH [] shown npc Hs).
      * destruct (IH rest shown (set_rotation_y r npc) Hs) as (t' & n' & H1 & H2 & H3).
        exists t', n'. split; [exact H1|]. split; assumption.
Qed.

End Dialogue.

(** X23. An NPC whose index is inside its dialogue speaks its lines in
    turn and starts again after the last one: over any run of interactions
    and timers, the texts shown are the lines at positions index, index + 1,
    ... taken modulo the number of lines, one per interaction, and the index
    ends at index + n modulo the number of lines, n being the number of
    interactions; the timers never touch the dialogue. *)
Theorem dialogue_cycles (npc : World.Entity) (d : list string) (events : list World.Event)
    (Hd : World.dialogue npc = Some d)
    (Hi : (World.dialogueIndex npc < length d)%nat) :
  let n := length (List.filter
                     (fun e => match e with World.Interact => true | World.Timeout => false end)
                     events) in
  let '(_, shown, npc') := World.run events (World.start npc) in
  shown = map (fun j => "NPC: " +:+ World.line d ((World.dialogueIndex npc + j) mod length d))
              (seq 0 n) /\
  World.dialogueIndex npc' = ((World.dialogueIndex npc + n) mod length d)%nat /\
  (World.dialogueIndex npc' < length d)%nat /\
  (n = length d -> World.dialogueIndex npc' = World.dialogueIndex npc).
Proof.
  intros n. unfold World.start.
  destruct (run_dialogue d events [] [] npc Hd Hi) as (timers' & npc' & Hrun & Hd' & Hi').
  rewrite Hrun. fold n in Hi'. fold n. split; [reflexivity|]. split; [exact Hi'|]. split.
  - rewrite Hi'. apply Nat.mod_upper_bound. lia.
  - intros Hn. rewrite Hi', Hn.
    rewrite <- Nat.Div0.add_mod_idemp_r, Nat.Div0.mod_same, Nat.add_0_r.
    apply Nat.mod_small. exact Hi.
Qed.

Lemma dialogue_cycles_witness :
  let '(_, shown, npc') :=
    World.run [World.Interact; World.Timeout; World.Interact; World.Interact; World.Interact]
      (World.start (World.sampleNpc 0 0)) in
  length shown = 4%nat /\ World.dialogueIndex npc' = 1%nat.
Proof.
  pose proof (dialogue_cycles (World.sampleNpc 0 0)
                ["Ola, aventureiro!"; "Este e um mundo virtual incrivel!";
                 "Explore e descubra novos lugares!"]
                [World.Interact; World.Timeout; World.Interact; World.Interact;
                 World.Interact] eq_refl) as H.
  assert (Hi : (World.dialogueIndex (World.sampleNpc 0 0) < 3)%nat) by (simpl; lia).
  specialize (H Hi). cbv zeta in H. revert H.
  destruct (World.run _ _) as [[timers shown] npc'].
  intros (H1 & H2 & _). split; [rewrite H1; reflexivity | exact H2].
Defined.

(** X24. An NPC without dialogue, or whose index is outside its
    dialogue, is never given a line: no text is shown over any run of
    interactions and timers, and its index stays where it is. *)
Theorem dialogue_out_of_range (npc : World.Entity) (events : list World.Event)
    (Hs : match World.dialogue npc with
          | Some d => (length d <= World.dialogueIndex npc)%nat
          | None => True
          end) :
  let '(_, shown, npc') := World.run events (World.start npc) in
  shown = [] /\ World.dialogueIndex npc' = World.dialogueIndex npc /\
  World.dialogue npc' = World.dialogue npc.
Proof.
  unfold World.start.
  destruct (run_stuck events [] [] npc Hs) as (timers' & npc' & Hrun & Hd' & Hi').
  rewrite Hrun. split; [reflexivity|]. split; [exact Hi' | exact Hd'].
Qed.

Lemma dialogue_out_of_range_witness :
  let npc := World.set_dialogueIndex 3%nat (World.sampleNpc 0 0) in
  let '(_, shown, npc') := World.run [World.Interact; World.Interact] (World.start npc) in
  shown = [] /\ World.dialogueIndex npc' = 3%nat.
Proof.
  intros npc.
  pose proof (dialogue_out_of_range npc [World.Interact; World.Interact]) as H.
  assert (Hs : (3 <= World.dialogueIndex npc)%nat) by (simpl; lia).
  specialize (H Hs). revert H.
  destruct (World.run _ _) as [[timers shown] npc'].
  intros (H1 & H2 & _). split; [exact H1 | exact H2].
Defined.


(** ** The wave of an NPC and its timers (js/performance-optimizer.js) *)

Section Wave.

Import World.

(** The rotation after [k] interactions with no timer in between. *)
Local Abbreviation turned k r := (Nat.iter k (fun x : Q => x + 0.2) r).

Lemma turned_value (k : nat) (r : Q) : turned k r == r + 0.2 * inject_Z (Z.of_nat k).
Proof.
  induction k as [|k IH].
  - change (r == r + 0.2 * 0). lra.
  - rewrite Nat.iter_succ, IH, Nat2Z.inj_succ. unfold Z.succ. rewrite inject_Z_plus.
    change (inject_Z 1) with 1. lra.
Qed.

Lemma run_interactions (k : nat) :
  forall (timers : list Q) (shown : list string) (npc : Entity),
    exists shown' npc',
      run (repeat Interact k) (timers, shown, npc) =
        (timers ++ map (fun j => turned j (rotation_y npc)) (seq 0 k), shown', npc') /\
      rotation_y npc' = turned k (rotation_y npc).
Proof.
  induction k as [|k IH]; intros timers shown npc.
  - exists shown, npc. simpl. rewrite app_nil_r. split; reflexivity.
  - unfold run. cbn [repeat fold_left step].
    destruct (interactWithNPC npc) as [[text r] npc1] eqn:E.
    assert (Hr : r = rotation_y npc /\ rotation_y npc1 = rotation_y npc + 0.2).
    { unfold interactWithNPC in E. destruct (dialogue npc) as [d|].
      - destruct (dialogueIndex npc <? length d)%nat; injection E as _ <- <-;
          split; reflexivity.
      - injection E as _ <- <-. split; reflexivity. }
    destruct Hr as [-> Hr1].
    destruct (IH (timers ++ [rotation_y npc])
                (match text with Some t => shown ++ [t] | None => shown end) npc1)
      as (shown' & npc' & Hrun & Hrot).
    exists shown', npc'. unfold run in Hrun. rewrite Hrun, Hrot, Hr1. split.
    + f_equal. f_equal. rewrite <- app_assoc. f_equal. cbn [seq map app].
      f_equal. rewrite <- seq_shift, map_map. apply map_ext. intros j.
      symmetry. exact (Nat.iter_succ_r j (fun x : Q => x + 0.2) (rotation_y npc)).
    + symmetry. exact (Nat.iter_succ_r k (fun x : Q => x + 0.2) (rotation_y npc)).
Qed.

Lemma run_timeouts (timers : list Q) :
  forall (shown : list string) (npc : Entity),
    run (repeat Timeout (length timers)) (timers, shown, npc) =
      ([], shown, match last timers with
                  | Some r => set_rotation_y r npc
                  | None => npc
                  end).
Proof.
  induction timers as [|r rest IH]; intros shown npc; [reflexivity|].
  unfold run. cbn [length repeat fold_left step]. unfold run in IH. rewrite IH.
  f_equal. destruct rest as [|r' rest']; [reflexivity|].
  rewrite last_cons_cons.
  destruct (last (r' :: rest')) as [x|] eqn:E; [reflexivity|].
  apply last_None in E. discriminate.
Qed.

Lemma run_app (e1 e2 : list Event) (s : Session) : run (e1 ++ e2) s = run e2 (run e1 s).
Proof. unfold run. apply fold_left_app. Qed.

Lemma run_spaced (n : nat) :
  forall (shown : list string) (npc : Entity),
    exists shown' npc',
      run (concat (repeat [Interact; Timeout] n)) ([], shown, npc) = ([], shown', npc') /\
      rotation_y npc' = rotation_y npc.
Proof.
  induction n as [|n IH]; intros shown npc.
  - exists shown, npc. split; reflexivity.
  - unfold run. cbn [repeat concat app fold_left step].
    destruct (interactWithNPC npc) as [[text r] npc1] eqn:E.
    assert (Hr : r = rotation_y npc).
    { unfold interactWithNPC in E. destruct (dialogue npc) as [d|].
      - destruct (dialogueIndex npc <? length d)%nat; injection E as _ <- _; reflexivity.
      - injection E as _ <- _. reflexivity. }
    subst r. cbn [app].
    destruct (IH (match text with Some t => shown ++ [t] | None => shown end)
                (set_rotation_y (rotation_y npc) npc1)) as (shown' & npc' & Hrun & Hrot).
    exists shown', npc'. split; [exact Hrun | exact Hrot].
Qed.

End Wave.

(** X25. The timer of an interaction puts the rotation back to what it
    was when the interaction read it.  If every timer runs before the next
    interaction, the NPC ends exactly at the rotation it started from; if
    n + 1 interactions come before the first timer runs, the NPC is left
    turned by n times 0.2 once all timers have run, each timer having
    restored the rotation already turned by the interactions before it. *)
Theorem wave_restores_or_drifts (npc : World.Entity) (n : nat) :
  (let '(timers, _, npc') :=
     World.run (concat (repeat [World.Interact; World.Timeout] n)) (World.start npc) in
   timers = [] /\ World.rotation_y npc' = World.rotation_y npc) /\
  (let '(timers, _, npc') :=
     World.run (repeat World.Interact (S n) ++ repeat World.Timeout (S n))
       (World.start npc) in
   timers = [] /\
   World.rotation_y npc' == World.rotation_y npc + 0.2 * inject_Z (Z.of_nat n)).
Proof.
  unfold World.start. split.
  - destruct (run_spaced n [] npc) as (shown' & npc' & Hrun & Hrot).
    rewrite Hrun. split; [reflexivity | exact Hrot].
  - rewrite run_app.
    destruct (run_interactions (S n) [] [] npc) as (shown' & npc' & Hrun & Hrot).
    rewrite Hrun. cbn [app].
    pose proof (run_timeouts
                  (map (fun j => Nat.iter j (fun x : Q => x + 0.2) (World.rotation_y npc))
                     (seq 0 (S n))) shown' npc') as Ht.
    rewrite length_map, length_seq in Ht. rewrite Ht. split; [reflexivity|].
    rewrite seq_S, map_app. cbn [map]. rewrite last_snoc. simpl World.rotation_y.
    apply turned_value.
Qed.


(** ** The animation of the NPCs (js/performance-optimizer.js) *)

Section NpcAnimation.

Import World.

Variables Math_sin Math_cos : Q -> Q.
Variable terrain : Terrain.TerrainGenerator.

Lemma fold_animate (deltaTime : Q) (l : list ref) :
  forall (h : gmap ref Entity) (i : ref),
    exists k,
      fold_left (fun h' j => alter (animate Math_sin Math_cos terrain deltaTime) j h') l h !! i
        = Nat.iter k (animate Math_sin Math_cos terrain deltaTime) <$> h !! i /\
      (i ∈ l -> (1 <= k)%nat) /\ (i ∉ l -> k = 0%nat).
Proof.
  induction l as [|j l IH]; intros h i.
  - exists 0%nat. simpl. split; [destruct (h !! i); reflexivity|].
    split; [intros H; apply elem_of_nil in H; contradiction | reflexivity].
  - simpl. destruct (IH (alter (animate Math_sin Math_cos terrain deltaTime) j h) i)
      as (k & Hk & Hin & Hout).
    destruct (decide (i = j)) as [->|Hne].
    + exists (S k). rewrite Hk, lookup_alter_eq. split.
      * destruct (h !! j) as [e|]; [|reflexivity].
        change (Some (Nat.iter k (animate Math_sin Math_cos terrain deltaTime)
                        (animate Math_sin Math_cos terrain deltaTime e))
                = Some (Nat.iter (S k) (animate Math_sin Math_cos terrain deltaTime) e)).
        rewrite Nat.iter_succ_r. reflexivity.
      * split; [lia|]. intros H. exfalso. apply H. left.
    + exists k. rewrite Hk, lookup_alter_ne by congruence. split; [reflexivity|]. split.
      * intros H. apply elem_of_cons in H. destruct H as [H|H]; [contradiction|]. auto.
      * intros H. apply Hout. intros H'. apply H. right. exact H'.
Qed.

Lemma iter_animate_original (deltaTime : Q) (k : nat) (e : Entity) :
  let e' := Nat.iter k (animate Math_sin Math_cos terrain deltaTime) e in
  originalPosition e' = originalPosition e /\ dialogue e' = dialogue e /\
  dialogueIndex e' = dialogueIndex e /\ rotation_y e' = rotation_y e.
Proof.
  induction k as [|k IH]; [repeat split|].
  rewrite Nat.iter_succ. simpl. exact IH.
Qed.

(** X26. After [updateNPCs] every NPC of the list stands on the terrain:
    its height is the terrain height at its own new position, and that
    position is within 0.3 in x and 0.2 in z of its original position, which
    is kept, as long as sine and cosine stay within -1 and 1.  This holds as
    well for an NPC that is listed more than once; an object that is not in
    the list is left as it is. *)
Theorem updateNPCs_on_terrain (deltaTime : Q) (w : WorldManager) (i : ref) (e : Entity)
    (Hsin : forall t, -1 <= Math_sin t <= 1)
    (Hcos : forall t, -1 <= Math_cos t <= 1)
    (Hin : i ∈ npcs w)
    (He : entities w !! i = Some e) :
  let w' := updateNPCs Math_sin Math_cos terrain deltaTime w in
  (exists e', entities w' !! i = Some e' /\
     vy (position e') = Terrain.getHeightAt terrain (vx (position e')) (vz (position e')) /\
     Qabs (vx (position e') - vx (originalPosition e)) <= 0.3 /\
     Qabs (vz (position e') - vz (originalPosition e)) <= 0.2 /\
     originalPosition e' = originalPosition e) /\
  (forall j, j ∉ npcs w -> entities w' !! j = entities w !! j).
Proof.
  intros w'. split.
  - destruct (fold_animate deltaTime (npcs w) (entities w) i) as (k & Hk & Hpos & _).
    specialize (Hpos Hin). destruct k as [|k]; [lia|].
    destruct (iter_animate_original deltaTime k e) as (Ho & _).
    set (e1 := Nat.iter k (animate Math_sin Math_cos terrain deltaTime) e) in *.
    exists (animate Math_sin Math_cos terrain deltaTime e1).
    split; [unfold w'; simpl entities; rewrite Hk, He; reflexivity|].
    split; [reflexivity|]. unfold animate. cbn [position vx vz originalPosition].
    rewrite Ho.
    pose proof (Hsin (animationTime e1 + deltaTime)) as Hs.
    pose proof (Hcos (animationTime e1 + deltaTime)) as Hc.
    split; [apply (proj2 (Qabs_Qle_condition _ _)); split; lra|].
    split; [apply (proj2 (Qabs_Qle_condition _ _)); split; lra | reflexivity].
  - intros j Hj.
    destruct (fold_animate deltaTime (npcs w) (entities w) j) as (k & Hk & _ & Hout).
    rewrite (Hout Hj) in Hk. simpl in Hk. unfold w'. simpl. rewrite Hk.
    destruct (entities w !! j); reflexivity.
Qed.

End NpcAnimation.

Lemma updateNPCs_on_terrain_witness :
  let w := {| World.entities := <[7%nat := World.sampleNpc 600 0]> ∅;
              World.sceneChildren := [7%nat]; World.objects := ∅;
              World.interactiveObjects := [7%nat]; World.npcs := [7%nat; 7%nat];
              World.objectIdCounter := 0%nat; World.wireframeMode := false |} in
  let w' := World.updateNPCs (fun _ => 1) (fun _ => -1) (Terrain.constructed []) 0.1 w in
  exists e', World.entities w' !! 7%nat = Some e' /\
             World.originalPosition e' = World.originalPosition (World.sampleNpc 600 0).
Proof.
  intros w w'.
  destruct (updateNPCs_on_terrain (fun _ => 1) (fun _ => -1) (Terrain.constructed []) 0.1 w
              7%nat (World.sampleNpc 600 0)) as [(e' & H1 & _ & _ & _ & H5) _].
  - intros _. split; vm_compute; discriminate.
  - intros _. split; vm_compute; discriminate.
  - left.
  - reflexivity.
  - exists e'. split; [exact H1 | exact H5].
Defined.
